(** * Riesz s-energy subset selection: DP recursion and brute force

    A shallow embedding of [dp_1d.py] and [pareto2d.py].

    Number models.  In the modules [Dp1d] and [Pareto2d] coordinates and
    energies are exact rationals ([Q]), standing for the real numbers of
    the problem statement; the exponent [s] is an integer, so that
    [gap ** s] is [Qpower].  Rounding, overflow and underflow of machine
    floats are not part of these two modules: what is proved of them is
    about the control flow, the order of the comparisons and the values
    up to rounding.  The pair energy is also given on real numbers with a
    real exponent ([pair_energy_real]) and shown to agree with the
    rational one.

    The module [Numeric] is the 1-D code again, over an interface
    [arithmetic] for the operations the interpreter performs on numbers:
    there [x[i] - x[q]] and [1.0 / (gap ** s)] may raise.  Its instance
    [exact] is the rational arithmetic of [Dp1d]; its instance
    [python_int] is Python's own arithmetic on integer coordinates with a
    non-negative integer exponent, where energies are binary64 floats and
    the conversion of a large integer to a float raises OverflowError.

    The subset size [k] and all indices are natural numbers; the one
    negative index the code can form for [k >= 0], [k - 1] for [k = 0] in
    the final scan, is modelled with Python's wrap-around.  The solvers
    for a negative [k] are [dp_subset_int] and [dp_subset_selection_int].

    Python faults are explicit: a computation returns [Ok v] or
    [Raise e] with [e] the exception class. *)

From Stdlib Require Import Reals Qreals.
From Stdlib Require Import List Sorted Arith ZArith QArith Qabs Qpower Lia Psatz Bool.
From Stdlib Require String.
From Stdlib Require SpecFloat.
Import ListNotations.

(** ** Python runtime fragments *)

Inductive exn : Type :=
| IndexError
| TypeError
| OverflowError
| ZeroDivisionError.

Inductive result (A : Type) : Type :=
| Ok (a : A)
| Raise (e : exn).

Arguments Ok {A} a.
Arguments Raise {A} e.

Definition bind {A B : Type} (c : result A) (k : A -> result B) : result B :=
  match c with
  | Ok a => k a
  | Raise e => Raise e
  end.

Notation "x <- c ;; k" := (bind c (fun x => k))
  (at level 61, c at next level, right associativity).

(** [range(a, b)] with [0 <= a]. *)
Definition range (a b : nat) : list nat := seq a (b - a).

(** [range(a, b)] with a possibly negative start. *)
Definition zrange (a b : Z) : list Z :=
  map (fun j => (a + Z.of_nat j)%Z) (seq 0 (Z.to_nat (b - a))).

(** [l[i]] for [0 <= i]. *)
Definition getitem {A : Type} (l : list A) (i : nat) : result A :=
  match nth_error l i with
  | Some a => Ok a
  | None => Raise IndexError
  end.

(** [l[i]] for a signed index: a negative [i] counts from the end. *)
Definition getitem_z {A : Type} (l : list A) (i : Z) : result A :=
  if (0 <=? i)%Z then getitem l (Z.to_nat i)
  else if (- Z.of_nat (length l) <=? i)%Z
       then getitem l (Z.to_nat (Z.of_nat (length l) + i))
       else Raise IndexError.

Fixpoint update {A : Type} (l : list A) (i : nat) (v : A) : list A :=
  match l, i with
  | [], _ => []
  | _ :: t, O => v :: t
  | h :: t, S j => h :: update t j v
  end.

(** [l[i] = v] for [0 <= i]. *)
Definition setitem {A : Type} (l : list A) (i : nat) (v : A) : result (list A) :=
  if i <? length l then Ok (update l i v) else Raise IndexError.

(** [dp[r][i] = v] on a list of rows.  The rows are distinct list objects
    (the comprehension builds each one afresh), so the in-place update of
    row [r] is the replacement of row [r]. *)
Definition setitem2 {A : Type} (dp : list (list A)) (r i : nat) (v : A)
  : result (list (list A)) :=
  row <- getitem dp r ;;
  row' <- setitem row i v ;;
  setitem dp r row'.

(** A [for] loop whose body updates a state and may raise. *)
Fixpoint for_each {I S : Type} (l : list I) (body : I -> S -> result S) (st : S)
  : result S :=
  match l with
  | [] => Ok st
  | i :: l' => st' <- body i st ;; for_each l' body st'
  end.

(** [itertools.combinations(l, k)]: the [k]-element subsequences of [l],
    in lexicographic order of positions. *)
Fixpoint combinations {A : Type} (l : list A) (k : nat) : list (list A) :=
  match k, l with
  | O, _ => [[]]
  | S _, [] => []
  | S k', a :: l' => map (cons a) (combinations l' k') ++ combinations l' k
  end.

(** [a < b] on rationals, as a boolean. *)
Definition Qltb (a b : Q) : bool := negb (Qle_bool b a).

(** [1.0 / (gap ** s)]. *)
Definition pair_energy (gap : Q) (s : Z) : Q := 1 / gap ^ s.

(** ** dp_1d.py *)

Module Dp1d.

(** A stored tuple [(energy, subset)]; either component may be [None]. *)
Definition cell : Type := (option Q * option (list nat))%type.

(** The DP table; an entry is [None] or a stored tuple. *)
Definition table : Type := list (list (option cell)).

(** [best is None or candidate < best]. *)
Definition improves (candidate : Q) (best : option Q) : bool :=
  match best with
  | None => true
  | Some b => Qltb candidate b
  end.

(** The loop over [q] of [dp_subset]; [Ok None] is [valid = False]. *)
Fixpoint extra_cost_loop (x : list Q) (s : Z) (i : nat) (subset : list nat)
  (extra_cost : Q) : result (option Q) :=
  match subset with
  | [] => Ok (Some extra_cost)
  | q :: rest =>
      xi <- getitem x i ;;
      xq <- getitem x q ;;
      let gap := xi - xq in
      if Qle_bool gap 0 then Ok None
      else extra_cost_loop x s i rest (extra_cost + pair_energy gap s)
  end.

(** What one iteration of the loop over [p] does with the entry it reads. *)
Inductive extension : Type :=
| SkipAbsent                         (* dp[r-1][p] is None: continue *)
| SkipInvalid                        (* some gap <= 0: continue *)
| Candidate (candidate : Q) (subset : list nat).

Definition extend (dp : table) (x : list Q) (s : Z) (r i p : nat)
  : result extension :=
  row <- getitem dp (r - 1) ;;
  entry <- getitem row p ;;
  match entry with
  | None => Ok SkipAbsent
  | Some (prev_energy, subset) =>
      match subset with
      | None => Raise TypeError          (* for q in None *)
      | Some subset =>
          ec <- extra_cost_loop x s i subset 0 ;;
          match ec with
          | None => Ok SkipInvalid
          | Some extra_cost =>
              match prev_energy with
              | None => Raise TypeError  (* None + float *)
              | Some prev_energy =>
                  Ok (Candidate (prev_energy + extra_cost) (subset ++ [i]))
              end
          end
      end
  end.

(** One iteration of the loop over [p]; the state is [(best, best_subset)]. *)
Definition step_p (dp : table) (x : list Q) (s : Z) (r i p : nat) (st : cell)
  : result cell :=
  e <- extend dp x s r i p ;;
  match e with
  | SkipAbsent | SkipInvalid => Ok st
  | Candidate candidate subset =>
      if improves candidate (fst st) then Ok (Some candidate, Some subset)
      else Ok st
  end.

(** The body of the loop over [i]: compute and store [dp[r][i]]. *)
Definition fill_cell (x : list Q) (s : Z) (r i : nat) (dp : table)
  : result table :=
  c <- for_each (range (r - 2) i) (step_p dp x s r i) (None, None) ;;
  setitem2 dp r i (Some c).

(** The body of the loop over [r]. *)
Definition fill_row (x : list Q) (s : Z) (n r : nat) (dp : table)
  : result table :=
  for_each (range (r - 1) n) (fill_cell x s r) dp.

(** The table after the base case and the loop over [r]. *)
Definition dp_table (x : list Q) (k : nat) (s : Z) : result table :=
  let n := length x in
  let dp := repeat (repeat None n) (k + 1) in
  dp <- for_each (range 0 n)
          (fun i dp => setitem2 dp 1 i (Some (Some 0, Some [i]))) dp ;;
  for_each (range 2 (k + 1)) (fill_row x s n) dp.

(** One iteration of the final scan; the state is
    [(best_final, best_subset_final)]. *)
Definition step_final (dp : table) (k : nat) (i : Z) (st : cell) : result cell :=
  row <- getitem dp k ;;
  entry <- getitem_z row i ;;
  match entry with
  | None => Ok st
  | Some (energy, subset) =>
      match fst st with
      | None => Ok (energy, subset)
      | Some best_final =>
          match energy with
          | None => Raise TypeError      (* None < float *)
          | Some e => if Qltb e best_final then Ok (energy, subset) else Ok st
          end
      end
  end.

Definition final_scan (dp : table) (k n : nat) : result cell :=
  for_each (zrange (Z.of_nat k - 1) (Z.of_nat n)) (step_final dp k) (None, None).

Definition dp_subset (x : list Q) (k : nat) (s : Z) : result cell :=
  dp <- dp_table x k s ;;
  final_scan dp k (length x).

(** The two nested loops of [brute_force_subset] over one combination;
    [None] is [valid = False]. *)
Fixpoint energy_inner (x : list Q) (s : Z) (subset : list nat) (i : nat)
  (js : list nat) (energy : Q) : option Q :=
  match js with
  | [] => Some energy
  | j :: js' =>
      let gap := nth (nth j subset O) x 0 - nth (nth i subset O) x 0 in
      if Qle_bool gap 0 then None
      else energy_inner x s subset i js' (energy + pair_energy gap s)
  end.

Fixpoint energy_outer (x : list Q) (s : Z) (subset : list nat) (k : nat)
  (rows : list nat) (energy : Q) : option Q :=
  match rows with
  | [] => Some energy
  | i :: rows' =>
      match energy_inner x s subset i (range (i + 1) k) energy with
      | None => None
      | Some e => energy_outer x s subset k rows' e
      end
  end.

Definition subset_energy (x : list Q) (k : nat) (s : Z) (subset : list nat)
  : option Q :=
  energy_outer x s subset k (range 0 k) 0.

(** The body of the loop over combinations; the state is
    [(best_energy, best_subset)]. *)
Definition step_subset (x : list Q) (k : nat) (s : Z) (st : cell)
  (subset : list nat) : cell :=
  match subset_energy x k s subset with
  | None => st
  | Some energy =>
      if improves energy (fst st) then (Some energy, Some subset) else st
  end.

(** Indices drawn from [range(n)] are below [len(x)], so [x[subset[j]]]
    cannot fault and the function is pure. *)
Definition brute_force_subset (x : list Q) (k : nat) (s : Z) : cell :=
  fold_left (step_subset x k s) (combinations (range 0 (length x)) k)
    (None, None).

End Dp1d.

(** ** pareto2d.py *)

(** A float that is a real number or [float('inf')]. *)
Inductive xfloat : Type :=
| Fin (q : Q)
| Inf.

(** [a + b] for operands that are numbers or [+inf]. *)
Definition xadd (a b : xfloat) : xfloat :=
  match a, b with
  | Fin p, Fin q => Fin (p + q)
  | _, _ => Inf
  end.

(** [a < b] for operands that are numbers or [+inf]. *)
Definition xltb (a b : xfloat) : bool :=
  match a, b with
  | Fin p, Fin q => Qltb p q
  | Fin _, Inf => true
  | Inf, _ => false
  end.

(** The literal [1e-6]. *)
Definition tolerance : Q := 1 # 1000000.

(** [abs(a - b) < 1e-6]: with an infinite operand the difference is
    infinite or not a number, and the comparison is false. *)
Definition xclose (a b : xfloat) : bool :=
  match a, b with
  | Fin p, Fin q => Qltb (Qabs (p - q)) tolerance
  | _, _ => false
  end.

(** [==] on values that are [None] or a list of indices. *)
Definition subset_eqb (a b : option (list nat)) : bool :=
  match a, b with
  | None, None => true
  | Some u, Some v => if list_eq_dec Nat.eq_dec u v then true else false
  | _, _ => false
  end.

Module Pareto2d.

Section WithSqrt.

(** [math.sqrt], a library function on reals, is a parameter. *)
Variable sqrt : Q -> Q.

Definition point : Type := (Q * Q)%type.

Definition euclidean_distance (p q : point) : Q :=
  sqrt ((fst p - fst q) ^ 2 + (snd p - snd q) ^ 2).

(** A stored tuple [(energy, subset)]; the subset may be [None]. *)
Definition cell : Type := (xfloat * option (list nat))%type.

Definition table : Type := list (list (option cell)).

(** The loop over [q] of [dp_subset_selection]; a zero distance sets
    [extra_cost = inf] and breaks. *)
Fixpoint extra_cost_loop (points : list point) (s : Z) (i : nat)
  (subset : list nat) (extra_cost : Q) : result xfloat :=
  match subset with
  | [] => Ok (Fin extra_cost)
  | q :: rest =>
      pq <- getitem points q ;;
      pi <- getitem points i ;;
      let dist := euclidean_distance pq pi in
      if Qeq_bool dist 0 then Ok Inf
      else extra_cost_loop points s i rest (extra_cost + pair_energy dist s)
  end.

(** What one iteration of the loop over [p] computes. *)
Inductive extension : Type :=
| SkipAbsent                                   (* dp[r-1][p] is None *)
| Candidate (candidate_energy : xfloat) (subset : list nat).

Definition extend (dp : table) (points : list point) (s : Z) (r i p : nat)
  : result extension :=
  row <- getitem dp (r - 1) ;;
  entry <- getitem row p ;;
  match entry with
  | None => Ok SkipAbsent
  | Some (prev_energy, subset) =>
      match subset with
      | None => Raise TypeError          (* for q in None *)
      | Some subset =>
          extra_cost <- extra_cost_loop points s i subset 0 ;;
          Ok (Candidate (xadd prev_energy extra_cost) (subset ++ [i]))
      end
  end.

(** One iteration of the loop over [p]; the state is
    [(best_energy, best_subset)]. *)
Definition step_p (dp : table) (points : list point) (s : Z) (r i p : nat)
  (st : cell) : result cell :=
  e <- extend dp points s r i p ;;
  match e with
  | SkipAbsent => Ok st
  | Candidate candidate_energy subset =>
      if xltb candidate_energy (fst st) then Ok (candidate_energy, Some subset)
      else Ok st
  end.

Definition fill_cell (points : list point) (s : Z) (r i : nat) (dp : table)
  : result table :=
  c <- for_each (range (r - 2) i) (step_p dp points s r i) (Inf, None) ;;
  setitem2 dp r i (Some c).

Definition fill_row (points : list point) (s : Z) (n r : nat) (dp : table)
  : result table :=
  for_each (range (r - 1) n) (fill_cell points s r) dp.

Definition dp_table (points : list point) (k : nat) (s : Z) : result table :=
  let n := length points in
  let dp := repeat (repeat None n) (k + 1) in
  dp <- for_each (range 0 n)
          (fun i dp => setitem2 dp 1 i (Some (Fin 0, Some [i]))) dp ;;
  for_each (range 2 (k + 1)) (fill_row points s n) dp.

(** One iteration of the final scan; the state is
    [(final_energy, final_subset)]. *)
Definition step_final (dp : table) (k : nat) (i : Z) (st : cell) : result cell :=
  row <- getitem dp k ;;
  entry <- getitem_z row i ;;
  match entry with
  | None => Ok st
  | Some (energy, subset) =>
      if xltb energy (fst st) then Ok (energy, subset) else Ok st
  end.

Definition final_scan (dp : table) (k n : nat) : result cell :=
  for_each (zrange (Z.of_nat k - 1) (Z.of_nat n)) (step_final dp k) (Inf, None).

Definition dp_subset_selection (points : list point) (k : nat) (s : Z)
  : result cell :=
  dp <- dp_table points k s ;;
  final_scan dp k (length points).

(** The two nested loops of [brute_force_subset_selection] over one
    combination; [None] is [valid = False]. *)
Fixpoint energy_inner (points : list point) (s : Z) (subset : list nat)
  (i : nat) (js : list nat) (energy : Q) : option Q :=
  match js with
  | [] => Some energy
  | j :: js' =>
      let dist := euclidean_distance (nth (nth i subset O) points (0, 0))
                    (nth (nth j subset O) points (0, 0)) in
      if Qeq_bool dist 0 then None
      else energy_inner points s subset i js' (energy + pair_energy dist s)
  end.

Fixpoint energy_outer (points : list point) (s : Z) (subset : list nat)
  (k : nat) (rows : list nat) (energy : Q) : option Q :=
  match rows with
  | [] => Some energy
  | i :: rows' =>
      match energy_inner points s subset i (range (i + 1) k) energy with
      | None => None
      | Some e => energy_outer points s subset k rows' e
      end
  end.

Definition subset_energy (points : list point) (k : nat) (s : Z)
  (subset : list nat) : option Q :=
  energy_outer points s subset k (range 0 k) 0.

(** The body of the loop over combinations: [valid and energy < best_energy]. *)
Definition step_subset (points : list point) (k : nat) (s : Z) (st : cell)
  (subset : list nat) : cell :=
  match subset_energy points k s subset with
  | None => st
  | Some energy =>
      if xltb (Fin energy) (fst st) then (Fin energy, Some subset) else st
  end.

Definition brute_force_subset_selection (points : list point) (k : nat) (s : Z)
  : cell :=
  fold_left (step_subset points k s) (combinations (range 0 (length points)) k)
    (Inf, None).

(** The test of [run_example] that decides which verdict is printed. *)
Definition solutions_match (dp_result bf_result : cell) : bool :=
  subset_eqb (snd dp_result) (snd bf_result)
  && xclose (fst dp_result) (fst bf_result).

End WithSqrt.

End Pareto2d.

(** A square root that is exact on squares of rationals, to run the 2-D
    solvers on concrete points. *)
Definition sqrt_sq (q : Q) : Q :=
  let r := Qred q in Z.sqrt (Qnum r) # Pos.sqrt (Qden r).

(** ** Index subsets and the order of enumeration *)

(** A size-[k] index subset of a sequence of length [n]. *)
Definition index_subset (n k : nat) (c : list nat) : Prop :=
  length c = k /\ StronglySorted lt c /\ Forall (fun i => i < n)%nat c.

(** Lexicographic order on index tuples. *)
Inductive lex_lt : list nat -> list nat -> Prop :=
| lex_lt_nil : forall b v, lex_lt [] (b :: v)
| lex_lt_head : forall a b u v, (a < b)%nat -> lex_lt (a :: u) (b :: v)
| lex_lt_tail : forall a u v, lex_lt u v -> lex_lt (a :: u) (a :: v).

(** ** The energy of a chosen subset, as the problem statement gives it *)

(** The coordinates [x[i]] of the chosen indices, in index order. *)
Definition coords (x : list Q) (subset : list nat) : list Q :=
  map (fun i => nth i x 0) subset.

(** [sum_{b in later} 1 / (b - a)^s]. *)
Definition energy_against (s : Z) (a : Q) (later : list Q) : Q :=
  fold_right (fun b acc => pair_energy (b - a) s + acc) 0 later.

(** [E(S) = sum_{p < q in S} 1 / (x[q] - x[p])^s] on the chosen coordinates. *)
Fixpoint riesz_energy (s : Z) (pts : list Q) : Q :=
  match pts with
  | [] => 0
  | a :: later => energy_against s a later + riesz_energy s later
  end.

(** The energy [sum_{p < q in S} 1 / dist(p, q)^s] for a distance function. *)
Fixpoint riesz_energy_by {A : Type} (dist : A -> A -> Q) (s : Z) (pts : list A)
  : Q :=
  match pts with
  | [] => 0
  | a :: later =>
      fold_right (fun b acc => pair_energy (dist a b) s + acc) 0 later
      + riesz_energy_by dist s later
  end.

(** Every pair of chosen points is at a strictly positive distance. *)
Definition positive_distances {A : Type} (dist : A -> A -> Q) (pts : list A)
  : Prop :=
  ForallOrdPairs (fun a b => 0 < dist a b) pts.

(** The 1-D distance: the absolute coordinate difference. *)
Definition distance (a b : Q) : Q := Qabs (b - a).

(** Every later chosen point lies strictly to the right of every earlier
    one: the gaps [x[q] - x[p]] the code tests are all positive. *)
Definition positive_gaps (pts : list Q) : Prop := StronglySorted Qlt pts.

(** The inner loop of the 1-D brute force, on coordinate values. *)
Fixpoint inner_vals (s : Z) (a : Q) (later : list Q) (energy : Q) : option Q :=
  match later with
  | [] => Some energy
  | b :: later' =>
      if Qle_bool (b - a) 0 then None
      else inner_vals s a later' (energy + pair_energy (b - a) s)
  end.

(** The outer loop of the 1-D brute force, on coordinate values. *)
Fixpoint outer_vals (s : Z) (pts : list Q) (energy : Q) : option Q :=
  match pts with
  | [] => Some energy
  | a :: later =>
      match inner_vals s a later energy with
      | None => None
      | Some e => outer_vals s later e
      end
  end.

(** ** Strict-minimum scans

    Both solvers keep a running best that is replaced only by a strictly
    smaller candidate.  [scan_step] is that update for an item whose
    candidate is [cand c] ([None] when the item is skipped). *)

Section StrictMin.

Variables C V : Type.
Variable cand : C -> option (Q * V).

Definition scan_step (st : option Q * option V) (c : C) : option Q * option V :=
  match cand c with
  | None => st
  | Some (e, v) =>
      if Dp1d.improves e (fst st) then (Some e, Some v) else st
  end.

(** [first_min pre st]: [st] is the running best after the items [pre]. *)
Definition first_min (pre : list C) (st : option Q * option V) : Prop :=
  (st = (None, None) /\ forall c, In c pre -> cand c = None)
  \/ (exists e v c l1 l2,
        st = (Some e, Some v) /\ pre = l1 ++ c :: l2 /\ cand c = Some (e, v)
        /\ (forall c' e' v', In c' l1 -> cand c' = Some (e', v') -> e < e')
        /\ (forall c' e' v', In c' l2 -> cand c' = Some (e', v') -> e <= e')).

End StrictMin.

Arguments scan_step {C V} cand st c.
Arguments first_min {C V} cand pre st.

(** The candidate the 1-D brute force derives from one combination. *)
Definition bf_candidate (x : list Q) (k : nat) (s : Z) (subset : list nat)
  : option (Q * list nat) :=
  match Dp1d.subset_energy x k s subset with
  | Some energy => Some (energy, subset)
  | None => None
  end.

(** ** Table invariants *)

(** The entry at row [r], column [i], when both are in range. *)
Definition lookup2 {A : Type} (dp : list (list A)) (r i : nat) : option A :=
  match nth_error dp r with
  | Some row => nth_error row i
  | None => None
  end.

(** A list of [r] strictly increasing indices, none beyond [i]. *)
Definition chain (r i : nat) (subset : list nat) : Prop :=
  length subset = r /\ StronglySorted lt subset
  /\ Forall (fun q => q <= i)%nat subset.

(** Every subset stored at [(r, i)] is a chain of [r] indices up to
    [i < n].  The energy component of the stored tuple plays no role. *)
Definition table_sound {E : Type} (n : nat)
  (dp : list (list (option (E * option (list nat))))) : Prop :=
  forall (r i : nat) (e : E) (subset : list nat),
    lookup2 dp r i = Some (Some (e, Some subset)) ->
    chain r i subset /\ (i < n)%nat.

(** The table has [m] rows of [n] entries each. *)
Definition table_shape {A : Type} (n m : nat) (dp : list (list A)) : Prop :=
  length dp = m /\ Forall (fun row => length row = n) dp.

(** A stored tuple whose energy and subset are both present. *)
Definition present (c : Dp1d.cell) : Prop :=
  exists e subset, c = (Some e, Some subset).

(** Rows [1..r] hold a present tuple at every column [i >= r' - 1]. *)
Definition rows_complete (n r : nat) (dp : Dp1d.table) : Prop :=
  forall r' i, (1 <= r' <= r)%nat -> (r' - 1 <= i < n)%nat ->
    exists c, lookup2 dp r' i = Some (Some c) /\ present c.

(** ** The 2-D brute force on point values *)

(** The chosen points, in index order. *)
Definition coords2 (points : list Pareto2d.point) (subset : list nat)
  : list Pareto2d.point :=
  map (fun i => nth i points (0, 0)) subset.

(** The inner loop of the 2-D brute force, on point values. *)
Fixpoint inner_vals2 {A : Type} (dist : A -> A -> Q) (s : Z) (a : A)
  (later : list A) (energy : Q) : option Q :=
  match later with
  | [] => Some energy
  | b :: later' =>
      if Qeq_bool (dist a b) 0 then None
      else inner_vals2 dist s a later' (energy + pair_energy (dist a b) s)
  end.

(** The outer loop of the 2-D brute force, on point values. *)
Fixpoint outer_vals2 {A : Type} (dist : A -> A -> Q) (s : Z) (pts : list A)
  (energy : Q) : option Q :=
  match pts with
  | [] => Some energy
  | a :: later =>
      match inner_vals2 dist s a later energy with
      | None => None
      | Some e => outer_vals2 dist s later e
      end
  end.

(** No pair of chosen points is at distance zero: the test of the 2-D code. *)
Definition nonzero_distances {A : Type} (dist : A -> A -> Q) (pts : list A)
  : Prop :=
  ForallOrdPairs (fun a b => ~ dist a b == 0) pts.

(** The candidate the 2-D brute force derives from one combination. *)
Definition bf_candidate2 (sqrt : Q -> Q) (points : list Pareto2d.point)
  (k : nat) (s : Z) (subset : list nat) : option (Q * list nat) :=
  match Pareto2d.subset_energy sqrt points k s subset with
  | Some energy => Some (energy, subset)
  | None => None
  end.

(** The running best of the 2-D code read as an optional energy:
    [float('inf')] is "no energy yet". *)
Definition finite_part (st : Pareto2d.cell) : option Q * option (list nat) :=
  match fst st with
  | Fin e => (Some e, snd st)
  | Inf => (None, snd st)
  end.

(** ** Tables during the run of the 1-D DP *)

(** The table when the loop over [r] is about to process row [r]. *)
Definition table_at_row (x : list Q) (k : nat) (s : Z) (r : nat)
  : result Dp1d.table :=
  let n := length x in
  let dp := repeat (repeat None n) (k + 1) in
  dp <- for_each (range 0 n)
          (fun i dp => setitem2 dp 1 i (Some (Some 0, Some [i]))) dp ;;
  for_each (range 2 r) (Dp1d.fill_row x s n) dp.

(** The table when the loop over [i] of row [r] is about to process
    column [i]: the table on which the extensions for [(r, i)] are
    computed. *)
Definition table_at_cell (x : list Q) (k : nat) (s : Z) (r i : nat)
  : result Dp1d.table :=
  dp <- table_at_row x k s r ;;
  for_each (range (r - 1) i) (Dp1d.fill_cell x s r) dp.

(** The candidate the loop over [p] derives from endpoint [p], if any. *)
Definition dp_candidate (dp : Dp1d.table) (x : list Q) (s : Z) (r i p : nat)
  : option (Q * list nat) :=
  match Dp1d.extend dp x s r i p with
  | Ok (Dp1d.Candidate candidate subset) => Some (candidate, subset)
  | _ => None
  end.

(** The absolute difference of two energies is below [tol]; an infinite
    energy is within no tolerance of anything. *)
Definition energies_within (tol : Q) (a b : xfloat) : Prop :=
  match a, b with
  | Fin p, Fin q => Qabs (p - q) < tol
  | _, _ => False
  end.


(** ** Energies stored in the 1-D table *)

(** Every stored tuple whose energy and subset are present carries the
    energy of that subset, and all gaps of the subset are positive. *)
Definition table_exact (x : list Q) (s : Z) (dp : Dp1d.table) : Prop :=
  forall (r i : nat) (e : Q) (subset : list nat),
    lookup2 dp r i = Some (Some (Some e, Some subset)) ->
    positive_gaps (coords x subset) /\ e == riesz_energy s (coords x subset).

(** The same property of a running best. *)
Definition cell_exact (x : list Q) (s : Z) (c : Dp1d.cell) : Prop :=
  forall (e : Q) (subset : list nat),
    c = (Some e, Some subset) ->
    positive_gaps (coords x subset) /\ e == riesz_energy s (coords x subset).

(** A computation that returns a value satisfying [P] or raises
    [TypeError]: it does not raise [IndexError]. *)
Definition no_index_error {A : Type} (P : A -> Prop) (c : result A) : Prop :=
  match c with
  | Ok a => P a
  | Raise e => e = TypeError
  end.

(** A stored tuple has both components present or both [None]. *)
Definition paired (c : Dp1d.cell) : Prop :=
  c = (None, None) \/ exists e subset, c = (Some e, Some subset).

Definition table_paired (dp : Dp1d.table) : Prop :=
  forall (r i : nat) (c : Dp1d.cell), lookup2 dp r i = Some (Some c) -> paired c.

(** What one iteration of the final scan does with the entry it read. *)
Definition final_update (entry : option Dp1d.cell) (st : Dp1d.cell)
  : result Dp1d.cell :=
  match entry with
  | None => Ok st
  | Some (energy, subset) =>
      match fst st with
      | None => Ok (energy, subset)
      | Some best_final =>
          match energy with
          | None => Raise TypeError
          | Some e => if Qltb e best_final then Ok (energy, subset) else Ok st
          end
      end
  end.

(** ** Energies stored in the 2-D table *)

(** A running best of the 2-D code with a subset carries a finite energy,
    the energy of that subset, and no two chosen points are at distance
    zero. *)
Definition cell_exact2 (sqrt : Q -> Q) (points : list Pareto2d.point) (s : Z)
  (c : Pareto2d.cell) : Prop :=
  forall subset : list nat,
    snd c = Some subset ->
    exists e,
      fst c = Fin e
      /\ nonzero_distances (Pareto2d.euclidean_distance sqrt)
           (coords2 points subset)
      /\ e == riesz_energy_by (Pareto2d.euclidean_distance sqrt) s
                (coords2 points subset).

Definition table_exact2 (sqrt : Q -> Q) (points : list Pareto2d.point) (s : Z)
  (dp : Pareto2d.table) : Prop :=
  forall (r i : nat) (c : Pareto2d.cell),
    lookup2 dp r i = Some (Some c) -> cell_exact2 sqrt points s c.

(** ** Printing and the drivers

    Console output is a list of lines; a line records which [print]
    statement produced it and the values it was given, not the formatted
    text.  A driver returns the lines printed so far together with its
    outcome, so that a fault keeps what was printed before it. *)

(** The list comprehension [[x[i] for i in idx]]. *)
Fixpoint comprehension {A : Type} (x : list A) (idx : list nat)
  : result (list A) :=
  match idx with
  | [] => Ok []
  | i :: rest =>
      a <- getitem x i ;;
      l <- comprehension x rest ;;
      Ok (a :: l)
  end.

(** [[x[i] for i in subset]] where [subset] may be [None]. *)
Definition select {A : Type} (x : list A) (subset : option (list nat))
  : result (list A) :=
  match subset with
  | None => Raise TypeError            (* 'NoneType' object is not iterable *)
  | Some idx => comprehension x idx
  end.

(** The lines of [print_solution]. *)
Inductive solution_line : Type :=
| Method_line (method : String.string)       (* Method: ... *)
| Indices_line (subset : option (list nat))  (* Chosen indices: ... *)
| Points_line (pts : list Q)                 (* Chosen points: ... *)
| Energy_line (energy : option Q)            (* Total energy: ... *)
| Rule_line.                                 (* ---------------- *)

Definition print_solution (x : list Q) (subset : option (list nat))
  (energy : option Q) (method : String.string)
  : list solution_line * result unit :=
  match select x subset with
  | Raise e => ([Method_line method; Indices_line subset], Raise e)
  | Ok pts =>
      ([Method_line method; Indices_line subset; Points_line pts;
        Energy_line energy; Rule_line], Ok tt)
  end.

(** The lines of [run_example]. *)
Inductive example_line : Type :=
| Example_line (example_number : nat)
| Header_line
| Point_line (number : nat) (p : Pareto2d.point)        (* P{idx+1}: point *)
| Dp_indices_line (subset : option (list nat))
| Dp_points_line (pts : list Pareto2d.point)
| Dp_energy_line (s : Z) (energy : xfloat)
| Bf_indices_line (subset : option (list nat))
| Bf_points_line (pts : list Pareto2d.point)
| Bf_energy_line (s : Z) (energy : xfloat)
| Match_line                       (* ... matches the brute-force solution. *)
| No_match_line                    (* ... does NOT match ... *)
| Separator_line.

(** The lines [P1: ...], [P2: ...] of the loop over [enumerate(points)]. *)
Definition point_lines (points : list Pareto2d.point) : list example_line :=
  map (fun ip => Point_line (fst ip + 1) (snd ip))
    (combine (seq 0 (length points)) points).

Definition run_example (sqrt : Q -> Q) (points : list Pareto2d.point)
  (k : nat) (s : Z) (example_number : nat)
  : list example_line * result unit :=
  let intro := Example_line example_number :: Header_line :: point_lines points in
  match Pareto2d.dp_subset_selection sqrt points k s with
  | Raise e => (intro, Raise e)
  | Ok (dp_energy, dp_subset) =>
      let (bf_energy, bf_subset) :=
        Pareto2d.brute_force_subset_selection sqrt points k s in
      match select points dp_subset with
      | Raise e => (intro ++ [Dp_indices_line dp_subset], Raise e)
      | Ok dp_points =>
          let dp_lines := [Dp_indices_line dp_subset; Dp_points_line dp_points;
                           Dp_energy_line s dp_energy] in
          match select points bf_subset with
          | Raise e =>
              (intro ++ dp_lines ++ [Bf_indices_line bf_subset], Raise e)
          | Ok bf_points =>
              (intro ++ dp_lines
               ++ [Bf_indices_line bf_subset; Bf_points_line bf_points;
                   Bf_energy_line s bf_energy;
                   if Pareto2d.solutions_match (dp_energy, dp_subset)
                        (bf_energy, bf_subset)
                   then Match_line else No_match_line;
                   Separator_line],
               Ok tt)
          end
      end
  end.

(** ** A negative subset size

    [range(k + 1)] is empty for [k < 0]: the table has no row, the loop
    over [r] has no iteration, and [dp[k]] in the final scan is read with
    Python's negative indexing. *)

Definition dp_subset_int (x : list Q) (k : Z) (s : Z) : result Dp1d.cell :=
  if (0 <=? k)%Z then Dp1d.dp_subset x (Z.to_nat k) s
  else
    let n := length x in
    dp <- for_each (range 0 n)
            (fun i dp => setitem2 dp 1 i (Some (Some 0, Some [i])))
            ([] : Dp1d.table) ;;
    for_each (zrange (k - 1) (Z.of_nat n))
      (fun i st =>
         row <- getitem_z dp k ;;
         entry <- getitem_z row i ;;
         final_update entry st)
      (None, None).

Definition dp_subset_selection_int (sqrt : Q -> Q)
  (points : list Pareto2d.point) (k : Z) (s : Z) : result Pareto2d.cell :=
  if (0 <=? k)%Z then Pareto2d.dp_subset_selection sqrt points (Z.to_nat k) s
  else
    let n := length points in
    dp <- for_each (range 0 n)
            (fun i dp => setitem2 dp 1 i (Some (Fin 0, Some [i])))
            ([] : Pareto2d.table) ;;
    for_each (zrange (k - 1) (Z.of_nat n))
      (fun i st =>
         row <- getitem_z dp k ;;
         entry <- getitem_z row i ;;
         match entry with
         | None => Ok st
         | Some (energy, subset) =>
             if xltb energy (fst st) then Ok (energy, subset) else Ok st
         end)
      (Inf, None).

(** ** dp_1d.py over the numbers of the interpreter *)

(** The operations of the interpreter on the numbers of [dp_1d.py].
    Coordinates are the elements of [x] and their differences, energies
    are the floats that start at [0.0].  A subtraction can raise (an
    integer too large for the float it is subtracted from), and so can
    [1.0 / (gap ** s)] (OverflowError, ZeroDivisionError); comparisons
    and the addition of two floats cannot. *)
Record arithmetic : Type := Arithmetic {
  coordinate : Type;
  exponent : Type;
  energy : Type;
  minus : coordinate -> coordinate -> result coordinate;   (* a - b *)
  nonpositive : coordinate -> bool;                        (* gap <= 0 *)
  inverse_power : coordinate -> exponent -> result energy; (* 1.0 / (gap ** s) *)
  zero : energy;                                           (* 0.0 *)
  plus : energy -> energy -> energy;                       (* a + b *)
  less : energy -> energy -> bool                          (* a < b *)
}.

Module Numeric.

Section WithArithmetic.

Variable A : arithmetic.

Definition cell : Type := (option (energy A) * option (list nat))%type.

Definition table : Type := list (list (option cell)).

(** [best is None or candidate < best]. *)
Definition improves (candidate : energy A) (best : option (energy A)) : bool :=
  match best with
  | None => true
  | Some b => less A candidate b
  end.

(** The loop over [q] of [dp_subset]; [Ok None] is [valid = False]. *)
Fixpoint extra_cost_loop (x : list (coordinate A)) (s : exponent A) (i : nat)
  (subset : list nat) (extra_cost : energy A) : result (option (energy A)) :=
  match subset with
  | [] => Ok (Some extra_cost)
  | q :: rest =>
      xi <- getitem x i ;;
      xq <- getitem x q ;;
      gap <- minus A xi xq ;;
      if nonpositive A gap then Ok None
      else
        e <- inverse_power A gap s ;;
        extra_cost_loop x s i rest (plus A extra_cost e)
  end.

Inductive extension : Type :=
| SkipAbsent                         (* dp[r-1][p] is None: continue *)
| SkipInvalid                        (* some gap <= 0: continue *)
| Candidate (candidate : energy A) (subset : list nat).

Definition extend (dp : table) (x : list (coordinate A)) (s : exponent A)
  (r i p : nat) : result extension :=
  row <- getitem dp (r - 1) ;;
  entry <- getitem row p ;;
  match entry with
  | None => Ok SkipAbsent
  | Some (prev_energy, subset) =>
      match subset with
      | None => Raise TypeError          (* for q in None *)
      | Some subset =>
          ec <- extra_cost_loop x s i subset (zero A) ;;
          match ec with
          | None => Ok SkipInvalid
          | Some extra_cost =>
              match prev_energy with
              | None => Raise TypeError  (* None + float *)
              | Some prev_energy =>
                  Ok (Candidate (plus A prev_energy extra_cost)
                        (subset ++ [i]))
              end
          end
      end
  end.

Definition step_p (dp : table) (x : list (coordinate A)) (s : exponent A)
  (r i p : nat) (st : cell) : result cell :=
  e <- extend dp x s r i p ;;
  match e with
  | SkipAbsent | SkipInvalid => Ok st
  | Candidate candidate subset =>
      if improves candidate (fst st) then Ok (Some candidate, Some subset)
      else Ok st
  end.

Definition fill_cell (x : list (coordinate A)) (s : exponent A) (r i : nat)
  (dp : table) : result table :=
  c <- for_each (range (r - 2) i) (step_p dp x s r i) (None, None) ;;
  setitem2 dp r i (Some c).

Definition fill_row (x : list (coordinate A)) (s : exponent A) (n r : nat)
  (dp : table) : result table :=
  for_each (range (r - 1) n) (fill_cell x s r) dp.

Definition base_case (n k : nat) : result table :=
  for_each (range 0 n)
    (fun i dp => setitem2 dp 1 i (Some (Some (zero A), Some [i])))
    (repeat (repeat None n) (k + 1)).

Definition dp_table (x : list (coordinate A)) (k : nat) (s : exponent A)
  : result table :=
  let n := length x in
  dp <- base_case n k ;;
  for_each (range 2 (k + 1)) (fill_row x s n) dp.

Definition step_final (dp : table) (k : nat) (i : Z) (st : cell) : result cell :=
  row <- getitem dp k ;;
  entry <- getitem_z row i ;;
  match entry with
  | None => Ok st
  | Some (energy, subset) =>
      match fst st with
      | None => Ok (energy, subset)
      | Some best_final =>
          match energy with
          | None => Raise TypeError      (* None < float *)
          | Some e =>
              if less A e best_final then Ok (energy, subset) else Ok st
          end
      end
  end.

Definition final_scan (dp : table) (k n : nat) : result cell :=
  for_each (zrange (Z.of_nat k - 1) (Z.of_nat n)) (step_final dp k) (None, None).

Definition dp_subset (x : list (coordinate A)) (k : nat) (s : exponent A)
  : result cell :=
  dp <- dp_table x k s ;;
  final_scan dp k (length x).

(** The table when the loop over [r] is about to process row [r]. *)
Definition table_at_row (x : list (coordinate A)) (k : nat) (s : exponent A)
  (r : nat) : result table :=
  dp <- base_case (length x) k ;;
  for_each (range 2 r) (fill_row x s (length x)) dp.

(** The table when the loop over [i] of row [r] is about to process
    column [i]. *)
Definition table_at_cell (x : list (coordinate A)) (k : nat) (s : exponent A)
  (r i : nat) : result table :=
  dp <- table_at_row x k s r ;;
  for_each (range (r - 1) i) (fill_cell x s r) dp.

(** The two nested loops of [brute_force_subset] over one combination;
    [Ok None] is [valid = False]. *)
Fixpoint energy_inner (x : list (coordinate A)) (s : exponent A)
  (subset : list nat) (i : nat) (js : list nat) (e : energy A)
  : result (option (energy A)) :=
  match js with
  | [] => Ok (Some e)
  | j :: js' =>
      sj <- getitem subset j ;;
      xj <- getitem x sj ;;
      si <- getitem subset i ;;
      xi <- getitem x si ;;
      gap <- minus A xj xi ;;
      if nonpositive A gap then Ok None
      else
        t <- inverse_power A gap s ;;
        energy_inner x s subset i js' (plus A e t)
  end.

Fixpoint energy_outer (x : list (coordinate A)) (s : exponent A)
  (subset : list nat) (k : nat) (rows : list nat) (e : energy A)
  : result (option (energy A)) :=
  match rows with
  | [] => Ok (Some e)
  | i :: rows' =>
      r <- energy_inner x s subset i (range (i + 1) k) e ;;
      match r with
      | None => Ok None
      | Some e' => energy_outer x s subset k rows' e'
      end
  end.

Definition subset_energy (x : list (coordinate A)) (k : nat) (s : exponent A)
  (subset : list nat) : result (option (energy A)) :=
  energy_outer x s subset k (range 0 k) (zero A).

Definition step_subset (x : list (coordinate A)) (k : nat) (s : exponent A)
  (subset : list nat) (st : cell) : result cell :=
  r <- subset_energy x k s subset ;;
  match r with
  | None => Ok st
  | Some e =>
      if improves e (fst st) then Ok (Some e, Some subset) else Ok st
  end.

Definition brute_force_subset (x : list (coordinate A)) (k : nat)
  (s : exponent A) : result cell :=
  for_each (combinations (range 0 (length x)) k) (step_subset x k s)
    (None, None).

(** A stored tuple whose energy and subset are both present. *)
Definition present (c : cell) : Prop :=
  exists e subset, c = (Some e, Some subset).

(** Rows [1..r] hold a present tuple at every column [i >= r' - 1]. *)
Definition rows_complete (n r : nat) (dp : table) : Prop :=
  forall r' i, (1 <= r' <= r)%nat -> (r' - 1 <= i < n)%nat ->
    exists c, lookup2 dp r' i = Some (Some c) /\ present c.

(** Every gap [x[i] - x[q]], [q < i], is computed without fault and is
    strictly positive: the test [gap <= 0] fails. *)
Definition gaps_positive (x : list (coordinate A)) : Prop :=
  forall (q i : nat) (xq xi : coordinate A),
    (q < i)%nat -> nth_error x q = Some xq -> nth_error x i = Some xi ->
    exists gap, minus A xi xq = Ok gap /\ nonpositive A gap = false.

(** The exception [e] is raised by [1.0 / (gap ** s)] for the gap of a
    pair [q < i] of the sequence. *)
Definition pair_fault (x : list (coordinate A)) (s : exponent A) (e : exn)
  : Prop :=
  exists (q i : nat) (xq xi gap : coordinate A),
    (q < i)%nat /\ nth_error x q = Some xq /\ nth_error x i = Some xi
    /\ minus A xi xq = Ok gap /\ inverse_power A gap s = Raise e.

(** [1.0 / (gap ** s)] is computed without fault for every pair. *)
Definition pairs_evaluate (x : list (coordinate A)) (s : exponent A) : Prop :=
  forall (q i : nat) (xq xi gap : coordinate A),
    (q < i)%nat -> nth_error x q = Some xq -> nth_error x i = Some xi ->
    minus A xi xq = Ok gap ->
    exists t, inverse_power A gap s = Ok t.

End WithArithmetic.

End Numeric.

(** A computation returns a value satisfying [good] or raises an
    exception satisfying [bad]. *)
Definition outcome {St : Type} (good : St -> Prop) (bad : exn -> Prop)
  (c : result St) : Prop :=
  match c with
  | Ok st => good st
  | Raise e => bad e
  end.

(** The rational arithmetic of [Dp1d]: nothing raises. *)
Definition exact : arithmetic :=
  {| coordinate := Q;
     exponent := Z;
     energy := Q;
     minus := fun a b => Ok (a - b);
     nonpositive := fun gap => Qle_bool gap 0;
     inverse_power := fun gap s => Ok (pair_energy gap s);
     zero := 0;
     plus := Qplus;
     less := Qltb |}.

(** The conversion of an integer to a binary64 float, rounding to nearest
    even: [float(z)], which raises OverflowError when the result is not
    finite. *)
Definition binary64_of_int (z : Z) : result SpecFloat.spec_float :=
  match SpecFloat.binary_normalize 53 1024 z 0 false with
  | SpecFloat.S754_infinity _ => Raise OverflowError
  | f => Ok f
  end.

(** [1.0 / d] for a float [d]. *)
Definition binary64_inverse (d : SpecFloat.spec_float)
  : result SpecFloat.spec_float :=
  match d with
  | SpecFloat.S754_zero _ => Raise ZeroDivisionError
  | _ => Ok (SpecFloat.SFdiv 53 1024 (SpecFloat.SFone 53 1024) d)
  end.

(** Python's arithmetic on integer coordinates with a non-negative integer
    exponent: differences and powers are exact integers, [1.0 / n]
    converts the integer [n] to a float first, and energies are binary64
    floats. *)
Definition python_int : arithmetic :=
  {| coordinate := Z;
     exponent := N;
     energy := SpecFloat.spec_float;
     minus := fun a b => Ok (a - b)%Z;
     nonpositive := fun gap => (gap <=? 0)%Z;
     inverse_power := fun gap s =>
       d <- binary64_of_int (gap ^ Z.of_N s) ;; binary64_inverse d;
     zero := SpecFloat.S754_zero false;
     plus := SpecFloat.SFadd 53 1024;
     less := SpecFloat.SFltb |}.
Example dp_example1 :
  Dp1d.dp_subset [0; 1; 3; 6] 2 1 = Ok (Some (1 # 6), Some [0%nat; 3%nat]).
Proof. vm_compute. reflexivity. Qed.

Example bf_example1 :
  Dp1d.brute_force_subset [0; 1; 3; 6] 2 1 = (Some (1 # 6), Some [0%nat; 3%nat]).
Proof. vm_compute. reflexivity. Qed.

Example dp2_example :
  Pareto2d.dp_subset_selection sqrt_sq [(0, 0); (3, 4); (6, 8)] 2 1
  = Ok (Fin (1 # 10), Some [0%nat; 2%nat]).
Proof. vm_compute. reflexivity. Qed.

Example bf2_example :
  Pareto2d.brute_force_subset_selection sqrt_sq [(0, 0); (3, 4); (6, 8)] 2 1
  = (Fin (1 # 10), Some [0%nat; 2%nat]).
Proof. vm_compute. reflexivity. Qed.

Example dp_dup : Dp1d.dp_subset [0; 0; 1] 3 1 = Raise TypeError.
Proof. vm_compute. reflexivity. Qed.

Example dp2_dup :
  Pareto2d.dp_subset_selection sqrt_sq [(0, 0); (0, 0); (1, 0)] 3 1 = Raise TypeError.
Proof. vm_compute. reflexivity. Qed.

Example bf_tie :
  Dp1d.brute_force_subset [0; 1; 2; 3] 3 1
  = (Some (11 # 6), Some [0%nat; 1%nat; 3%nat])
  /\ Dp1d.subset_energy [0; 1; 2; 3] 3 1 [0%nat; 2%nat; 3%nat] = Some (11 # 6).
Proof. split; vm_compute; reflexivity. Qed.

Example dp_tie :
  Dp1d.dp_subset [0; 1; 2; 3] 3 1 = Ok (Some (11 # 6), Some [0%nat; 1%nat; 3%nat]).
Proof. vm_compute. reflexivity. Qed.

Example dp_unsorted : Dp1d.dp_subset [0; 1; 0] 2 1 = Raise TypeError.
Proof. vm_compute. reflexivity. Qed.

Example dp_too_large : Dp1d.dp_subset [0; 1] 3 1 = Ok (None, None).
Proof. vm_compute. reflexivity. Qed.

Example dp2_too_large :
  Pareto2d.dp_subset_selection sqrt_sq [(0, 0); (1, 0)] 3 1 = Ok (Inf, None).
Proof. vm_compute. reflexivity. Qed.

Example dp_k0 : Dp1d.dp_subset [0] 0 1 = Raise IndexError.
Proof. vm_compute. reflexivity. Qed.

Example dp_k0_n0 : Dp1d.dp_subset [] 0 1 = Raise IndexError.
Proof. vm_compute. reflexivity. Qed.

(** * Properties *)

(** ** The error monad and the loops *)

Lemma bind_ok {A B : Type} (c : result A) (k : A -> result B) (b : B) :
  bind c k = Ok b -> exists a, c = Ok a /\ k a = Ok b.
Proof.
  destruct c as [a|e]; simpl; intros H; [eauto | discriminate].
Qed.

Ltac inv_bind H :=
  let a := fresh "a" in
  let Ha := fresh "Ha" in
  apply bind_ok in H; destruct H as (a & Ha & H).

Lemma getitem_ok {A : Type} (l : list A) (i : nat) (a : A) :
  getitem l i = Ok a <-> nth_error l i = Some a.
Proof.
  unfold getitem. destruct (nth_error l i); split; intros H; congruence.
Qed.

Lemma getitem_z_ok {A : Type} (l : list A) (i : Z) (a : A) :
  getitem_z l i = Ok a -> exists j, nth_error l j = Some a.
Proof.
  unfold getitem_z.
  destruct (0 <=? i)%Z; [|destruct (- Z.of_nat (length l) <=? i)%Z];
    intros H; try discriminate; apply getitem_ok in H; eauto.
Qed.

Lemma getitem_z_of_nat {A : Type} (l : list A) (i : nat) :
  getitem_z l (Z.of_nat i) = getitem l i.
Proof.
  unfold getitem_z.
  destruct (Z.leb_spec 0 (Z.of_nat i)); [|lia].
  now rewrite Nat2Z.id.
Qed.

Lemma zrange_of_nat (a b : nat) :
  zrange (Z.of_nat a) (Z.of_nat b) = map Z.of_nat (range a b).
Proof.
  unfold zrange, range.
  replace (Z.to_nat (Z.of_nat b - Z.of_nat a)) with (b - a)%nat by lia.
  generalize (b - a)%nat as m. intros m.
  assert (H : forall j, map (fun i => (Z.of_nat a + Z.of_nat i)%Z) (seq j m)
                        = map Z.of_nat (seq (a + j) m)).
  { induction m as [|m IH]; intros j; simpl; [reflexivity|].
    f_equal; [lia|]. rewrite IH. f_equal. f_equal. lia. }
  rewrite H, Nat.add_0_r. reflexivity.
Qed.

Lemma length_update {A : Type} (l : list A) (i : nat) (v : A) :
  length (update l i v) = length l.
Proof.
  revert i; induction l as [|h t IH]; intros [|i]; simpl; auto.
Qed.

Lemma nth_error_update_eq {A : Type} (l : list A) (i : nat) (v : A) :
  (i < length l)%nat -> nth_error (update l i v) i = Some v.
Proof.
  revert i; induction l as [|h t IH]; intros [|i]; simpl; intros H;
    try lia; auto. apply IH; lia.
Qed.

Lemma nth_error_update_neq {A : Type} (l : list A) (i j : nat) (v : A) :
  i <> j -> nth_error (update l i v) j = nth_error l j.
Proof.
  revert i j; induction l as [|h t IH]; intros [|i] [|j]; simpl; intros H;
    try congruence; auto.
Qed.

Lemma in_range (a b i : nat) : In i (range a b) <-> (a <= i < b)%nat.
Proof.
  unfold range. rewrite in_seq. lia.
Qed.

Lemma range_snoc (a b : nat) :
  (a <= b)%nat -> range a (S b) = range a b ++ [b].
Proof.
  intros H. unfold range.
  replace (S b - a)%nat with (S (b - a)) by lia.
  rewrite seq_S. f_equal. f_equal. lia.
Qed.

(** A loop establishes any property its body preserves. *)
Lemma for_each_inv {I S : Type} (P : S -> Prop) (body : I -> S -> result S) :
  forall (l : list I) (st st' : S),
    (forall i st0 st1, In i l -> P st0 -> body i st0 = Ok st1 -> P st1) ->
    P st -> for_each l body st = Ok st' -> P st'.
Proof.
  induction l as [|i l IH]; simpl; intros st st' Hbody HP H.
  - congruence.
  - inv_bind H. eapply IH; [| |exact H]; eauto.
Qed.

(** A loop over [l ++ [i]] is the loop over [l] followed by the body at [i]. *)
Lemma for_each_app {I S : Type} (body : I -> S -> result S) :
  forall (l1 l2 : list I) (st : S),
    for_each (l1 ++ l2) body st
    = (st1 <- for_each l1 body st ;; for_each l2 body st1).
Proof.
  induction l1 as [|i l1 IH]; simpl; intros l2 st; [reflexivity|].
  destruct (body i st) as [st1|e]; simpl; auto.
Qed.

(** A loop whose body never raises is a fold. *)
Lemma for_each_pure {I S : Type} (body : I -> S -> result S) (g : S -> I -> S) :
  forall (l : list I) (st : S),
    (forall i st0, In i l -> body i st0 = Ok (g st0 i)) ->
    for_each l body st = Ok (fold_left g l st).
Proof.
  induction l as [|i l IH]; simpl; intros st H; [reflexivity|].
  rewrite H by auto. simpl. apply IH. auto.
Qed.

(** ** Rational comparisons *)

Lemma Qltb_lt (a b : Q) : Qltb a b = true <-> a < b.
Proof.
  unfold Qltb. rewrite negb_true_iff. split.
  - intros H. apply Qnot_le_lt. intros Hle.
    apply Qle_bool_iff in Hle. congruence.
  - intros H. destruct (Qle_bool b a) eqn:E; [|reflexivity].
    apply Qle_bool_iff in E. exfalso. eapply Qlt_not_le; eauto.
Qed.

Lemma Qltb_ge (a b : Q) : Qltb a b = false <-> b <= a.
Proof.
  unfold Qltb. rewrite negb_false_iff. apply Qle_bool_iff.
Qed.

(** The test [gap <= 0] fails exactly when the later point is to the right. *)
Lemma gap_positive (a b : Q) : Qle_bool (b - a) 0 = false <-> a < b.
Proof.
  split.
  - intros H. apply Qnot_le_lt. intros Hle.
    assert (H' : b - a <= 0) by lra.
    apply Qle_bool_iff in H'. congruence.
  - intros H. destruct (Qle_bool (b - a) 0) eqn:E; [|reflexivity].
    apply Qle_bool_iff in E. lra.
Qed.

(** ** Combinations of a range *)

Lemma StronglySorted_app {A : Type} (R : A -> A -> Prop) (l1 l2 : list A) :
  StronglySorted R l1 -> StronglySorted R l2 ->
  (forall a b, In a l1 -> In b l2 -> R a b) ->
  StronglySorted R (l1 ++ l2).
Proof.
  induction l1 as [|h t IH]; simpl; intros H1 H2 H12; [assumption|].
  inversion H1 as [|? ? Ht Hh]; subst.
  constructor.
  - apply IH; auto.
  - apply Forall_app. split; [assumption|].
    apply Forall_forall. intros b Hb. apply H12; auto.
Qed.

Lemma StronglySorted_map {A B : Type} (R : A -> A -> Prop) (R' : B -> B -> Prop)
  (f : A -> B) (l : list A) :
  (forall a b, R a b -> R' (f a) (f b)) ->
  StronglySorted R l -> StronglySorted R' (map f l).
Proof.
  intros Hf. induction 1 as [|h t Ht IH Hh]; simpl; constructor; auto.
  apply Forall_forall. intros b Hb. apply in_map_iff in Hb.
  destruct Hb as (a & <- & Ha). apply Hf.
  rewrite Forall_forall in Hh. auto.
Qed.

Lemma StronglySorted_split {A : Type} (R : A -> A -> Prop) (l1 l2 : list A) (c : A) :
  StronglySorted R (l1 ++ c :: l2) ->
  (forall a, In a l1 -> R a c) /\ (forall b, In b l2 -> R c b).
Proof.
  induction l1 as [|h t IH]; simpl; intros H;
    inversion H as [|? ? Ht Hh]; subst.
  - split; [tauto|]. rewrite Forall_forall in Hh. auto.
  - destruct (IH Ht) as [IH1 IH2]. split; [|assumption].
    intros a [<-|Ha]; auto.
    rewrite Forall_forall in Hh. apply Hh. apply in_elt.
Qed.

Lemma combinations_0 {A : Type} (l : list A) : combinations l 0 = [[]].
Proof.
  destruct l; reflexivity.
Qed.

Lemma combinations_seq_iff :
  forall (n a k : nat) (c : list nat),
    In c (combinations (seq a n) k) <->
    length c = k /\ StronglySorted lt c
    /\ Forall (fun i => a <= i < a + n)%nat c.
Proof.
  assert (Hzero : forall (l : list nat) (c : list nat) (P : nat -> Prop),
             In c (combinations l 0) <->
             length c = 0%nat /\ StronglySorted lt c /\ Forall P c).
  { intros l c P. destruct l; simpl.
    - split.
      + intros [<-|[]]. repeat split; constructor.
      + intros (H & _). destruct c; [auto|discriminate].
    - split.
      + intros [<-|[]]. repeat split; constructor.
      + intros (H & _). destruct c; [auto|discriminate]. }
  induction n as [|n IH]; intros a k c.
  - destruct k as [|k]; [apply Hzero|]. simpl. split; [tauto|].
    intros (Hlen & _ & Hb). destruct c as [|h t]; [discriminate|].
    inversion Hb; subst. lia.
  - destruct k as [|k]; [apply Hzero|].
    cbn [seq combinations]. rewrite in_app_iff, in_map_iff. split.
    + intros [(c' & <- & Hc')|Hc].
      * apply IH in Hc'. destruct Hc' as (Hlen & Hs & Hb).
        split; [simpl; lia|]. split.
        -- constructor; [assumption|].
           eapply Forall_impl; [|exact Hb]. simpl. intros; lia.
        -- constructor; [lia|].
           eapply Forall_impl; [|exact Hb]. simpl. intros; lia.
      * apply IH in Hc. destruct Hc as (Hlen & Hs & Hb).
        repeat split; auto.
        eapply Forall_impl; [|exact Hb]. simpl. intros; lia.
    + intros (Hlen & Hs & Hb). destruct c as [|h t]; [discriminate|].
      inversion Hs as [|? ? Hst Hht]; subst.
      inversion Hb as [|? ? Hbh Hbt]; subst.
      destruct (Nat.eq_dec h a) as [->|Hne].
      * left. exists t. split; [reflexivity|]. apply IH.
        split; [simpl in Hlen; lia|]. split; [assumption|].
        rewrite Forall_forall in *. intros i Hi.
        specialize (Hht i Hi). specialize (Hbt i Hi). simpl in *. lia.
      * right. apply IH. split; [assumption|]. split; [assumption|].
        constructor; [lia|].
        rewrite Forall_forall in *. intros i Hi.
        specialize (Hht i Hi). specialize (Hbt i Hi). simpl in *. lia.
Qed.

(** [combinations(range(n), k)] enumerates exactly the size-[k] index
    subsets. *)
Lemma combinations_range_iff (n k : nat) (c : list nat) :
  In c (combinations (range 0 n) k) <-> index_subset n k c.
Proof.
  unfold range, index_subset. rewrite Nat.sub_0_r, combinations_seq_iff.
  split; intros (H1 & H2 & H3); repeat split; auto;
    eapply Forall_impl; try exact H3; simpl; intros; lia.
Qed.

(** The enumeration is in strictly increasing lexicographic order. *)
Lemma combinations_seq_lex :
  forall (n a k : nat), StronglySorted lex_lt (combinations (seq a n) k).
Proof.
  induction n as [|n IH]; intros a k.
  - destruct k; simpl; repeat constructor.
  - destruct k as [|k]; [simpl; repeat constructor|].
    cbn [seq combinations]. apply StronglySorted_app.
    + eapply StronglySorted_map; [|apply IH].
      intros u v Huv. now apply lex_lt_tail.
    + apply IH.
    + intros u v Hu Hv. apply in_map_iff in Hu. destruct Hu as (u' & <- & _).
      apply combinations_seq_iff in Hv. destruct Hv as (Hlen & _ & Hb).
      destruct v as [|h t]; [discriminate|].
      inversion Hb; subst. apply lex_lt_head. lia.
Qed.

(** ** Strict-minimum scans keep the first minimum *)

Section StrictMinFacts.

Variables C V : Type.
Variable cand : C -> option (Q * V).

Lemma first_min_step (pre : list C) (st : option Q * option V) (c : C) :
  first_min cand pre st -> first_min cand (pre ++ [c]) (scan_step cand st c).
Proof.
  unfold scan_step.
  intros [(-> & Hnone)|(e & v & c0 & l1 & l2 & -> & -> & Hc0 & Hl1 & Hl2)].
  - destruct (cand c) as [[e v]|] eqn:Ec; simpl.
    + right. exists e, v, c, pre, []. repeat split; auto.
      * intros c' e' v' Hin Hc'. rewrite (Hnone c' Hin) in Hc'. discriminate.
      * intros c' e' v' [].
    + left. split; [reflexivity|]. intros c' Hin.
      apply in_app_iff in Hin. destruct Hin as [Hin|[<-|[]]]; auto.
  - destruct (cand c) as [[e1 v1]|] eqn:Ec; simpl.
    + destruct (Qltb e1 e) eqn:Elt.
      * apply Qltb_lt in Elt.
        right. exists e1, v1, c, (l1 ++ c0 :: l2), []. repeat split; auto.
        -- intros c' e' v' Hin Hc'. apply in_app_iff in Hin.
           destruct Hin as [Hin|[<-|Hin]].
           ++ eapply Qlt_trans; [exact Elt|]. eapply Hl1; eauto.
           ++ rewrite Hc0 in Hc'. injection Hc' as <- <-. exact Elt.
           ++ eapply Qlt_le_trans; [exact Elt|]. eapply Hl2; eauto.
        -- intros c' e' v' [].
      * apply Qltb_ge in Elt.
        right. exists e, v, c0, l1, (l2 ++ [c]). repeat split; auto.
        -- now rewrite <- app_assoc.
        -- intros c' e' v' Hin Hc'. apply in_app_iff in Hin.
           destruct Hin as [Hin|[<-|[]]]; [eapply Hl2; eauto|].
           rewrite Ec in Hc'. injection Hc' as <- <-. exact Elt.
    + right. exists e, v, c0, l1, (l2 ++ [c]). repeat split; auto.
      * now rewrite <- app_assoc.
      * intros c' e' v' Hin Hc'. apply in_app_iff in Hin.
        destruct Hin as [Hin|[<-|[]]]; [eapply Hl2; eauto|].
        rewrite Ec in Hc'. discriminate.
Qed.

Lemma first_min_fold :
  forall (l pre : list C) (st : option Q * option V),
    first_min cand pre st ->
    first_min cand (pre ++ l) (fold_left (scan_step cand) l st).
Proof.
  induction l as [|c l IH]; simpl; intros pre st H.
  - now rewrite app_nil_r.
  - replace (pre ++ c :: l) with ((pre ++ [c]) ++ l)
      by (rewrite <- app_assoc; reflexivity).
    apply IH. now apply first_min_step.
Qed.

Lemma first_min_scan (l : list C) :
  first_min cand l (fold_left (scan_step cand) l (None, None)).
Proof.
  apply first_min_fold with (pre := @nil C). left. split; [reflexivity|]. intros c [].
Qed.

End StrictMinFacts.

(** ** The energy loops of the 1-D brute force *)

Section Energy1d.

Variable s : Z.

Lemma energy_inner_vals (x : list Q) (subset : list nat) (i : nat) :
  forall (js : list nat) (energy : Q),
    Dp1d.energy_inner x s subset i js energy
    = inner_vals s (nth (nth i subset O) x 0)
        (map (fun j => nth (nth j subset O) x 0) js) energy.
Proof.
  induction js as [|j js IH]; simpl; intros energy; [reflexivity|].
  destruct (Qle_bool _ 0); [reflexivity|]. apply IH.
Qed.

Lemma energy_outer_vals (x : list Q) (subset : list nat) :
  forall (m i : nat) (energy : Q),
    Dp1d.energy_outer x s subset (i + m) (seq i m) energy
    = outer_vals s (map (fun j => nth (nth j subset O) x 0) (seq i m)) energy.
Proof.
  induction m as [|m IH]; intros i energy; simpl; [reflexivity|].
  rewrite energy_inner_vals. unfold range.
  replace (i + S m - (i + 1))%nat with m by lia.
  replace (i + 1)%nat with (S i) by lia.
  destruct (inner_vals s _ _ energy) as [e|]; [|reflexivity].
  replace (i + S m)%nat with (S i + m)%nat by lia. apply IH.
Qed.

Lemma map_nth_seq {A B : Type} (f : A -> B) (d : A) (l : list A) :
  map (fun j => f (nth j l d)) (seq 0 (length l)) = map f l.
Proof.
  induction l as [|a l IH]; simpl; [reflexivity|].
  f_equal. rewrite <- seq_shift, map_map. exact IH.
Qed.

Lemma subset_energy_vals (x : list Q) (subset : list nat) :
  Dp1d.subset_energy x (length subset) s subset = outer_vals s (coords x subset) 0.
Proof.
  unfold Dp1d.subset_energy, range, coords. rewrite Nat.sub_0_r.
  rewrite (energy_outer_vals x subset (length subset) 0).
  now rewrite (map_nth_seq (fun i => nth i x 0) O subset).
Qed.

Lemma inner_vals_some (a : Q) :
  forall (later : list Q) (energy e : Q),
    inner_vals s a later energy = Some e ->
    Forall (Qlt a) later /\ e == energy + energy_against s a later.
Proof.
  induction later as [|b later IH]; simpl; intros energy e H.
  - injection H as <-. split; [constructor|]. ring.
  - destruct (Qle_bool (b - a) 0) eqn:E; [discriminate|].
    apply IH in H. destruct H as (HF & He). split.
    + constructor; [|assumption].
      now apply gap_positive.
    + rewrite He. ring.
Qed.

Lemma inner_vals_total (a : Q) :
  forall (later : list Q) (energy : Q),
    Forall (Qlt a) later -> exists e, inner_vals s a later energy = Some e.
Proof.
  induction later as [|b later IH]; simpl; intros energy H; [eauto|].
  inversion H as [|? ? Hb Hl]; subst.
  apply gap_positive in Hb. rewrite Hb. apply IH. assumption.
Qed.

Lemma outer_vals_some :
  forall (pts : list Q) (energy e : Q),
    outer_vals s pts energy = Some e ->
    positive_gaps pts /\ e == energy + riesz_energy s pts.
Proof.
  induction pts as [|a later IH]; simpl; intros energy e H.
  - injection H as <-. split; [constructor|]. ring.
  - destruct (inner_vals s a later energy) as [e1|] eqn:E; [|discriminate].
    apply inner_vals_some in E. destruct E as (HF & He1).
    apply IH in H. destruct H as (Hs & He). split.
    + constructor; assumption.
    + rewrite He, He1. ring.
Qed.

Lemma outer_vals_total :
  forall (pts : list Q) (energy : Q),
    positive_gaps pts -> exists e, outer_vals s pts energy = Some e.
Proof.
  induction pts as [|a later IH]; simpl; intros energy H; [eauto|].
  inversion H as [|? ? Hs HF]; subst.
  destruct (inner_vals_total a later energy HF) as (e1 & ->). apply IH. assumption.
Qed.

(** The loops of the brute force compute [riesz_energy] on a combination
    whose gaps are all positive, and discard every other combination. *)
Lemma subset_energy_spec (x : list Q) (subset : list nat) :
  (positive_gaps (coords x subset) ->
   exists e, Dp1d.subset_energy x (length subset) s subset = Some e
             /\ e == riesz_energy s (coords x subset))
  /\ (~ positive_gaps (coords x subset) ->
      Dp1d.subset_energy x (length subset) s subset = None).
Proof.
  rewrite subset_energy_vals. split.
  - intros H. destruct (outer_vals_total _ 0 H) as (e & He).
    exists e. split; [assumption|].
    apply outer_vals_some in He. destruct He as (_ & ->). ring.
  - intros H. destruct (outer_vals s (coords x subset) 0) as [e|] eqn:E;
      [|reflexivity].
    apply outer_vals_some in E. tauto.
Qed.

End Energy1d.

(** ** The 1-D brute force as a strict-minimum scan *)

Lemma fold_left_ext {A B : Type} (f g : A -> B -> A) :
  (forall a b, f a b = g a b) ->
  forall (l : list B) (a : A), fold_left f l a = fold_left g l a.
Proof.
  intros H. induction l as [|b l IH]; simpl; intros a; [reflexivity|].
  rewrite H. apply IH.
Qed.

Lemma brute_force_subset_scan (x : list Q) (k : nat) (s : Z) :
  Dp1d.brute_force_subset x k s
  = fold_left (scan_step (bf_candidate x k s))
      (combinations (range 0 (length x)) k) (None, None).
Proof.
  unfold Dp1d.brute_force_subset. apply fold_left_ext.
  intros st c. unfold Dp1d.step_subset, scan_step, bf_candidate.
  destruct (Dp1d.subset_energy x k s c); reflexivity.
Qed.

Lemma brute_force_subset_first_min (x : list Q) (k : nat) (s : Z) :
  first_min (bf_candidate x k s) (combinations (range 0 (length x)) k)
    (Dp1d.brute_force_subset x k s).
Proof.
  rewrite brute_force_subset_scan. apply first_min_scan.
Qed.

(** The brute force is optimal over the subsets it accepts: those whose
    gaps are all positive. *)
Lemma brute_force_subset_optimal_gaps (x : list Q) (k : nat) (s : Z)
  (e : Q) (best : option (list nat)) (c : list nat) :
  Dp1d.brute_force_subset x k s = (Some e, best) ->
  index_subset (length x) k c ->
  positive_gaps (coords x c) ->
  e <= riesz_energy s (coords x c).
Proof.
  intros Hbf Hc Hgap.
  assert (Hlen : length c = k) by apply Hc.
  destruct (subset_energy_spec s x c) as [Hsome _].
  destruct (Hsome Hgap) as (ec & Hec & Heq). rewrite Hlen in Hec.
  assert (Hcand : bf_candidate x k s c = Some (ec, c))
    by (unfold bf_candidate; now rewrite Hec).
  apply combinations_range_iff in Hc.
  pose proof (brute_force_subset_first_min x k s) as Hmin.
  rewrite Hbf in Hmin.
  destruct Hmin as [(Habs & _)|(e0 & v & c0 & l1 & l2 & Hst & Hl & Hc0 & Hl1 & Hl2)];
    [discriminate|].
  injection Hst as -> ->. rewrite <- Heq.
  rewrite Hl in Hc. apply in_app_iff in Hc. destruct Hc as [Hin|[<-|Hin]].
  - apply Qlt_le_weak. eapply Hl1; eauto.
  - rewrite Hc0 in Hcand. injection Hcand as <-. apply Qle_refl.
  - eapply Hl2; eauto.
Qed.

(** ** Writing and reading table entries *)

Lemma setitem_ok {A : Type} (l : list A) (i : nat) (v : A) (l' : list A) :
  setitem l i v = Ok l' -> (i < length l)%nat /\ l' = update l i v.
Proof.
  unfold setitem. destruct (Nat.ltb_spec i (length l)) as [Hlt|Hge]; intros H;
    [injection H as <-; auto | discriminate].
Qed.

Lemma setitem2_ok {A : Type} (dp : list (list A)) (r i : nat) (v : A)
  (dp' : list (list A)) :
  setitem2 dp r i v = Ok dp' ->
  exists row, nth_error dp r = Some row /\ (i < length row)%nat
              /\ dp' = update dp r (update row i v).
Proof.
  unfold setitem2. intros H. inv_bind H. inv_bind H.
  apply getitem_ok in Ha. apply setitem_ok in Ha0. destruct Ha0 as (Hi & ->).
  apply setitem_ok in H. destruct H as (_ & ->). eauto.
Qed.

Lemma lookup2_update {A : Type} (dp : list (list A)) (r i : nat) (v : A)
  (row : list A) (r' i' : nat) :
  nth_error dp r = Some row -> (i < length row)%nat ->
  lookup2 (update dp r (update row i v)) r' i'
  = if Nat.eq_dec r' r
    then if Nat.eq_dec i' i then Some v else lookup2 dp r' i'
    else lookup2 dp r' i'.
Proof.
  intros Hrow Hi. unfold lookup2.
  assert (Hr : (r < length dp)%nat)
    by (apply nth_error_Some; congruence).
  destruct (Nat.eq_dec r' r) as [->|Hne].
  - rewrite nth_error_update_eq by assumption. rewrite Hrow.
    destruct (Nat.eq_dec i' i) as [->|Hne'].
    + now apply nth_error_update_eq.
    + apply nth_error_update_neq. congruence.
  - rewrite nth_error_update_neq by congruence. reflexivity.
Qed.

Lemma getitem2_lookup2 {A : Type} (dp : list (list A)) (r i : nat)
  (row : list A) (a : A) :
  getitem dp r = Ok row -> getitem row i = Ok a -> lookup2 dp r i = Some a.
Proof.
  intros H1 H2. apply getitem_ok in H1, H2. unfold lookup2. now rewrite H1.
Qed.

Lemma table_sound_setitem2 {E : Type} (n : nat)
  (dp dp' : list (list (option (E * option (list nat)))))
  (r i : nat) (c : E * option (list nat)) :
  table_sound n dp ->
  (forall subset, snd c = Some subset -> chain r i subset /\ (i < n)%nat) ->
  setitem2 dp r i (Some c) = Ok dp' ->
  table_sound n dp'.
Proof.
  intros Hdp Hc H. apply setitem2_ok in H.
  destruct H as (row & Hrow & Hi & ->).
  intros r' i' e subset Hl.
  rewrite (lookup2_update _ _ _ _ _ r' i' Hrow Hi) in Hl.
  destruct (Nat.eq_dec r' r) as [->|]; [|eauto].
  destruct (Nat.eq_dec i' i) as [->|]; [|eauto].
  injection Hl as ->. apply Hc. reflexivity.
Qed.

Lemma table_sound_init {E : Type} (n m : nat) :
  table_sound n (repeat (repeat (@None (E * option (list nat))) n) m).
Proof.
  intros r i e subset H. unfold lookup2 in H.
  destruct (nth_error _ r) as [row|] eqn:Er; [|discriminate].
  apply nth_error_In, repeat_spec in Er. subst row.
  apply nth_error_In, repeat_spec in H. discriminate.
Qed.

Lemma chain_snoc (r p i : nat) (subset : list nat) :
  chain r p subset -> (p < i)%nat -> chain (S r) i (subset ++ [i]).
Proof.
  intros (Hlen & Hs & Hb) Hpi. repeat split.
  - rewrite length_app. simpl. lia.
  - apply StronglySorted_app; auto.
    + repeat constructor.
    + intros a b Ha [<-|[]]. rewrite Forall_forall in Hb.
      specialize (Hb a Ha). simpl in Hb. lia.
  - apply Forall_app. split.
    + eapply Forall_impl; [|exact Hb]. simpl. intros; lia.
    + repeat constructor.
Qed.

Lemma chain_index_subset (n k i : nat) (subset : list nat) :
  chain k i subset -> (i < n)%nat -> index_subset n k subset.
Proof.
  intros (Hlen & Hs & Hb) Hi. repeat split; auto.
  eapply Forall_impl; [|exact Hb]. simpl. intros; lia.
Qed.

(** ** Soundness of the 1-D table: stored subsets are chains *)

Module Dp1dFacts.
Import Dp1d.

Lemma extend_candidate_inv (dp : table) (x : list Q) (s : Z) (r i p : nat)
  (candidate : Q) (subset' : list nat) :
  extend dp x s r i p = Ok (Candidate candidate subset') ->
  exists prev_energy subset extra_cost,
    lookup2 dp (r - 1) p = Some (Some (Some prev_energy, Some subset))
    /\ extra_cost_loop x s i subset 0 = Ok (Some extra_cost)
    /\ candidate = prev_energy + extra_cost
    /\ subset' = subset ++ [i].
Proof.
  unfold extend. intros H. inv_bind H. inv_bind H.
  pose proof (getitem2_lookup2 _ _ _ _ _ Ha Ha0) as Hl.
  destruct a0 as [[prev_energy [subset|]]|]; try discriminate.
  inv_bind H. destruct a0 as [extra_cost|]; [|discriminate].
  destruct prev_energy as [prev_energy|]; [|discriminate].
  injection H as <- <-. eauto 8.
Qed.

Lemma step_p_chain (n : nat) (dp : table) (x : list Q) (s : Z) (r i p : nat)
  (st st' : cell) :
  table_sound n dp -> (1 <= r)%nat -> (p < i)%nat ->
  (forall subset, snd st = Some subset -> chain r i subset) ->
  step_p dp x s r i p st = Ok st' ->
  forall subset, snd st' = Some subset -> chain r i subset.
Proof.
  intros Hdp Hr Hp Hst H. unfold step_p in H. inv_bind H.
  destruct a as [| |candidate subset'].
  - injection H as <-. assumption.
  - injection H as <-. assumption.
  - destruct (improves candidate (fst st)); injection H as <-; [|assumption].
    apply extend_candidate_inv in Ha.
    destruct Ha as (pe & sub & ec & Hl & _ & _ & ->).
    apply Hdp in Hl. destruct Hl as (Hchain & _).
    simpl. intros subset [= <-].
    replace r with (S (r - 1)) by lia. eapply chain_snoc; eauto.
Qed.

Lemma fill_cell_sound (n : nat) (x : list Q) (s : Z) (r i : nat)
  (dp dp' : table) :
  table_sound n dp -> (1 <= r)%nat -> (i < n)%nat ->
  fill_cell x s r i dp = Ok dp' -> table_sound n dp'.
Proof.
  intros Hdp Hr Hi H. unfold fill_cell in H. inv_bind H.
  eapply table_sound_setitem2; [exact Hdp| |exact H].
  intros subset Hs. split; [|assumption]. revert subset Hs.
  eapply (for_each_inv (fun st => forall subset, snd st = Some subset ->
                                  chain r i subset)); [| |exact Ha].
  - intros p st0 st1 Hin. apply in_range in Hin.
    eapply step_p_chain; eauto. lia.
  - simpl. discriminate.
Qed.

Lemma fill_row_sound (n : nat) (x : list Q) (s : Z) (r : nat) (dp dp' : table) :
  table_sound n dp -> (1 <= r)%nat ->
  fill_row x s n r dp = Ok dp' -> table_sound n dp'.
Proof.
  intros Hdp Hr H. unfold fill_row in H.
  eapply (for_each_inv (table_sound n)); [| exact Hdp | exact H].
  intros i st0 st1 Hin. apply in_range in Hin.
  intros Hs. apply fill_cell_sound; auto. lia.
Qed.

Lemma dp_table_sound (x : list Q) (k : nat) (s : Z) (dp : table) :
  dp_table x k s = Ok dp -> table_sound (length x) dp.
Proof.
  unfold dp_table. intros H. inv_bind H.
  eapply (for_each_inv (table_sound (length x))); [| | exact H].
  - intros r st0 st1 Hin. apply in_range in Hin.
    intros Hs. apply fill_row_sound; auto. lia.
  - eapply (for_each_inv (table_sound (length x))); [| | exact Ha].
    + intros i st0 st1 Hin Hs Hset. apply in_range in Hin.
      eapply table_sound_setitem2; [exact Hs| |exact Hset].
      simpl. intros subset [= <-]. split; [|lia].
      repeat split; repeat constructor.
    + apply table_sound_init.
Qed.

Lemma step_final_sound (n k : nat) (dp : table) (i : Z) (st st' : cell) :
  table_sound n dp ->
  (forall subset, snd st = Some subset -> index_subset n k subset) ->
  step_final dp k i st = Ok st' ->
  forall subset, snd st' = Some subset -> index_subset n k subset.
Proof.
  intros Hdp Hst H. unfold step_final in H. inv_bind H. inv_bind H.
  apply getitem_ok in Ha. apply getitem_z_ok in Ha0. destruct Ha0 as (j & Hj).
  assert (Hl : lookup2 dp k j = Some a0) by (unfold lookup2; now rewrite Ha).
  assert (Hnew : forall e subset, a0 = Some (e, Some subset) ->
                                  index_subset n k subset).
  { intros e subset ->. apply Hdp in Hl. destruct Hl.
    eapply chain_index_subset; eauto. }
  destruct a0 as [[energy subset0]|]; [|injection H as <-; assumption].
  destruct (fst st) as [best_final|].
  - destruct energy as [e|]; [|discriminate].
    destruct (Qltb e best_final); injection H as <-; [|assumption].
    simpl. intros subset ->. eauto.
  - injection H as <-. simpl. intros subset ->. eauto.
Qed.

(** A subset returned by the 1-D DP solver is a size-[k] index subset. *)
Lemma dp_subset_sound (x : list Q) (k : nat) (s : Z) (energy : option Q)
  (subset : list nat) :
  dp_subset x k s = Ok (energy, Some subset) ->
  index_subset (length x) k subset.
Proof.
  unfold dp_subset, final_scan. intros H. inv_bind H.
  apply dp_table_sound in Ha.
  eapply (for_each_inv (fun st => forall subset, snd st = Some subset ->
                                  index_subset (length x) k subset));
    [| |exact H|reflexivity].
  - intros i st0 st1 _. apply step_final_sound. assumption.
  - simpl. discriminate.
Qed.

(** A subset returned by the 1-D brute force is a size-[k] index subset. *)
Lemma brute_force_subset_sound (x : list Q) (k : nat) (s : Z)
  (energy : option Q) (subset : list nat) :
  brute_force_subset x k s = (energy, Some subset) ->
  index_subset (length x) k subset.
Proof.
  intros H. pose proof (brute_force_subset_first_min x k s) as Hmin.
  rewrite H in Hmin.
  destruct Hmin as [(Habs & _)|(e & v & c & l1 & l2 & Hst & Hl & Hc & _)];
    [discriminate|].
  injection Hst as -> ->. apply combinations_range_iff. rewrite Hl.
  unfold bf_candidate in Hc.
  destruct (subset_energy x k s c); [|discriminate].
  injection Hc as _ ->. apply in_elt.
Qed.

End Dp1dFacts.

(** ** Loops that run to completion *)

Lemma for_each_range_total {St : Type} (Inv : nat -> St -> Prop)
  (body : nat -> St -> result St) (a : nat) :
  forall (b : nat) (st : St),
    (a <= b)%nat -> Inv a st ->
    (forall i st0, (a <= i < b)%nat -> Inv i st0 ->
                   exists st1, body i st0 = Ok st1 /\ Inv (S i) st1) ->
    exists st', for_each (range a b) body st = Ok st' /\ Inv b st'.
Proof.
  induction b as [|b IH]; intros st Hab Ha Hbody.
  - assert (a = 0)%nat by lia. subst a. exists st. split; [reflexivity|assumption].
  - destruct (Nat.eq_dec a (S b)) as [->|Hne].
    + exists st. unfold range. rewrite Nat.sub_diag. split; [reflexivity|assumption].
    + rewrite range_snoc by lia. rewrite for_each_app.
      destruct (IH st) as (st1 & -> & Hst1); [lia|assumption| |].
      * intros i st0 Hi. apply Hbody. lia.
      * simpl. destruct (Hbody b st1) as (st2 & -> & Hst2); [lia|assumption|].
        simpl. eauto.
Qed.

Lemma for_each_map {I J S : Type} (f : I -> J) (body : J -> S -> result S) :
  forall (l : list I) (st : S),
    for_each (map f l) body st = for_each l (fun i => body (f i)) st.
Proof.
  induction l as [|i l IH]; simpl; intros st; [reflexivity|].
  destruct (body (f i) st); simpl; auto.
Qed.

Lemma table_shape_lookup2 {A : Type} (n m : nat) (dp : list (list A)) (r i : nat) :
  table_shape n m dp -> (r < m)%nat -> (i < n)%nat ->
  exists row a, nth_error dp r = Some row /\ length row = n
                /\ nth_error row i = Some a.
Proof.
  intros (Hlen & Hrows) Hr Hi.
  destruct (nth_error dp r) as [row|] eqn:Er.
  - assert (Hrow : length row = n).
    { rewrite Forall_forall in Hrows. apply Hrows. eapply nth_error_In; eauto. }
    destruct (nth_error row i) as [a|] eqn:Ei; [eauto|].
    apply nth_error_None in Ei. lia.
  - apply nth_error_None in Er. lia.
Qed.

Lemma Forall_update {A : Type} (P : A -> Prop) (l : list A) (i : nat) (v : A) :
  Forall P l -> P v -> Forall P (update l i v).
Proof.
  intros Hl Hv. revert i. induction Hl as [|h t Hh Ht IH]; intros [|i]; simpl;
    constructor; auto.
Qed.

(** Storing into a well-shaped table succeeds and changes one entry. *)
Lemma setitem2_total {A : Type} (n m : nat) (dp : list (list A)) (r i : nat) (v : A) :
  table_shape n m dp -> (r < m)%nat -> (i < n)%nat ->
  exists dp', setitem2 dp r i v = Ok dp'
              /\ table_shape n m dp'
              /\ forall r' i', lookup2 dp' r' i'
                   = if Nat.eq_dec r' r
                     then if Nat.eq_dec i' i then Some v else lookup2 dp r' i'
                     else lookup2 dp r' i'.
Proof.
  intros Hshape Hr Hi.
  destruct (table_shape_lookup2 n m dp r i Hshape Hr Hi)
    as (row & a & Hrow & Hlen & _).
  destruct Hshape as (Hm & Hrows).
  exists (update dp r (update row i v)). split; [|split].
  - unfold setitem2, getitem, setitem. rewrite Hrow. simpl.
    destruct (Nat.ltb_spec i (length row)); [|lia]. simpl.
    destruct (Nat.ltb_spec r (length dp)); [reflexivity|lia].
  - split; [now rewrite length_update|].
    apply Forall_update; [assumption|]. now rewrite length_update.
  - intros r' i'. apply lookup2_update; [assumption|lia].
Qed.

Lemma table_shape_init {A : Type} (n m : nat) (a : A) :
  table_shape n m (repeat (repeat a n) m).
Proof.
  split; [apply repeat_length|].
  apply Forall_forall. intros row H. apply repeat_spec in H. subst.
  apply repeat_length.
Qed.

(** ** The 1-D DP on strictly increasing coordinates runs to completion *)

Lemma sorted_nth_error_lt (x : list Q) :
  StronglySorted Qlt x ->
  forall (q i : nat) (a b : Q),
    (q < i)%nat -> nth_error x q = Some a -> nth_error x i = Some b -> a < b.
Proof.
  induction 1 as [|h t Ht IH Hh]; intros q i a b Hqi Hq Hi.
  - destruct q; discriminate.
  - destruct i as [|i]; [lia|]. simpl in Hi. destruct q as [|q]; simpl in Hq.
    + injection Hq as <-. rewrite Forall_forall in Hh. apply Hh.
      eapply nth_error_In; eauto.
    + eapply IH; [|eauto|eauto]. lia.
Qed.

Module Dp1dTotal.
Import Dp1d.

(** The base case fills row 1, whatever the coordinates are. *)
Lemma base_case_total (n k : nat) :
  (1 <= k)%nat ->
  exists dp : table,
    for_each (range 0 n)
      (fun i dp => setitem2 dp 1 i (Some (Some 0, Some [i])))
      (repeat (repeat None n) (k + 1)) = Ok dp
    /\ table_shape n (k + 1) dp
    /\ table_sound n dp
    /\ (forall i, (i < n)%nat ->
          lookup2 dp 1 i = Some (Some (Some 0, Some [i])))
    /\ (forall r i c, lookup2 dp r i = Some (Some c) -> r = 1%nat).
Proof.
  intros Hk.
  apply for_each_range_total
    with (Inv := fun j (dp0 : table) =>
                 table_shape n (k + 1) dp0 /\ table_sound n dp0
                 /\ (forall i, (i < j)%nat ->
                       lookup2 dp0 1 i = Some (Some (Some 0, Some [i])))
                 /\ (forall r i c, lookup2 dp0 r i = Some (Some c) -> r = 1%nat));
    [lia| |].
  - split; [apply table_shape_init|]. split; [apply table_sound_init|].
    split; [intros; lia|].
    intros r i c Hl. unfold lookup2 in Hl.
    destruct (nth_error _ r) as [row|] eqn:Er; [|discriminate].
    apply nth_error_In, repeat_spec in Er. subst row.
    apply nth_error_In, repeat_spec in Hl. discriminate.
  - intros i dp0 Hi (H1 & H2 & H3 & H4).
    destruct (setitem2_total n (k + 1) dp0 1 i (Some (Some 0, Some [i])) H1)
      as (dp1 & Hset & Hshape1 & Hl); [lia|lia|].
    exists dp1. split; [assumption|]. split; [assumption|]. split; [|split].
    + eapply table_sound_setitem2; [exact H2| |exact Hset].
      simpl. intros subset [= <-]. split; [|lia].
      repeat split; repeat constructor.
    + intros i' Hi'. rewrite Hl. simpl.
      destruct (Nat.eq_dec i' i) as [->|]; [reflexivity|]. apply H3. lia.
    + intros r i' c. rewrite Hl.
      destruct (Nat.eq_dec r 1); [auto|]. apply H4.
Qed.

(** The run of [dp_table] passes through [table_at_cell x k s r i] and
    calls [fill_cell] on it. *)
Lemma dp_table_through_cell (x : list Q) (s : Z) (k r i : nat) :
  (2 <= r <= k)%nat -> (r - 1 <= i < length x)%nat ->
  dp_table x k s
  = (dp <- table_at_cell x k s r i ;;
     dp <- fill_cell x s r i dp ;;
     dp <- for_each (range (S i) (length x)) (fill_cell x s r) dp ;;
     for_each (range (S r) (k + 1)) (fill_row x s (length x)) dp).
Proof.
  intros Hr Hi. unfold dp_table, table_at_cell, table_at_row.
  assert (Hrows : range 2 (k + 1) = range 2 r ++ r :: range (S r) (k + 1)).
  { unfold range. replace (k + 1 - 2)%nat with ((r - 2) + S (k + 1 - S r))%nat
      by lia.
    rewrite seq_app. simpl. repeat f_equal; lia. }
  assert (Hcols : range (r - 1) (length x)
                  = range (r - 1) i ++ i :: range (S i) (length x)).
  { unfold range.
    replace (length x - (r - 1))%nat
      with ((i - (r - 1)) + S (length x - S i))%nat by lia.
    rewrite seq_app. simpl. repeat f_equal; lia. }
  cbv zeta.
  destruct (for_each (range 0 (length x)) _ _) as [dp0|e]; cbn [bind];
    [|reflexivity].
  rewrite Hrows, for_each_app.
  destruct (for_each (range 2 r) (fill_row x s (length x)) dp0) as [dp1|e];
    cbn [bind]; [|reflexivity].
  cbn [for_each]. unfold fill_row at 1. rewrite Hcols, for_each_app.
  destruct (for_each (range (r - 1) i) (fill_cell x s r) dp1) as [dp2|e];
    cbn [bind]; [|reflexivity].
  cbn [for_each].
  destruct (fill_cell x s r i dp2) as [dp3|e]; cbn [bind]; reflexivity.
Qed.

Lemma step_final_present (dp : table) (k i : nat) (st : cell) (e : Q)
  (subset : list nat) :
  lookup2 dp k i = Some (Some (Some e, Some subset)) ->
  step_final dp k (Z.of_nat i) st
  = Ok (match fst st with
        | None => (Some e, Some subset)
        | Some best_final =>
            if Qltb e best_final then (Some e, Some subset) else st
        end).
Proof.
  unfold lookup2, step_final. intros Hl.
  destruct (nth_error dp k) as [row|] eqn:Er; [|discriminate].
  unfold getitem at 1. rewrite Er. simpl.
  rewrite getitem_z_of_nat. unfold getitem. rewrite Hl. simpl.
  destruct (fst st); [|reflexivity]. destruct (Qltb e q); reflexivity.
Qed.

Lemma final_scan_nat (dp : table) (k n : nat) :
  (1 <= k)%nat ->
  final_scan dp k n
  = for_each (range (k - 1) n) (fun i => step_final dp k (Z.of_nat i))
      (None, None).
Proof.
  intros Hk. unfold final_scan.
  replace (Z.of_nat k - 1)%Z with (Z.of_nat (k - 1)) by lia.
  rewrite zrange_of_nat. apply for_each_map.
Qed.

(** For [k = 1] the 1-D DP solver returns energy 0 and the subset [[0]],
    whatever the coordinates are. *)
Lemma dp_subset_single (x : list Q) (s : Z) :
  x <> [] -> dp_subset x 1 s = Ok (Some 0, Some [0%nat]).
Proof.
  intros Hx. unfold dp_subset, dp_table.
  destruct (base_case_total (length x) 1) as (dp & -> & _ & _ & Hrow1 & _);
    [lia|].
  simpl. rewrite final_scan_nat by lia.
  assert (Hn : (0 < length x)%nat) by (destruct x; [congruence|simpl; lia]).
  assert (Hloop : exists c,
             for_each (range (1 - 1) (length x))
               (fun i => step_final dp 1 (Z.of_nat i)) (None, None) = Ok c
             /\ ((length x = 0 /\ c = (None, None))%nat
                 \/ c = (Some 0, Some [0%nat]))).
  { apply for_each_range_total
      with (Inv := fun j st => (j = 0 /\ st = (None, None))%nat
                               \/ st = (Some 0, Some [0%nat]));
      [lia|auto|].
    intros i st0 Hi Hst0.
    rewrite (step_final_present dp 1 i st0 0 [i]) by (apply Hrow1; lia).
    eexists. split; [reflexivity|]. right.
    destruct Hst0 as [(-> & ->)| ->]; reflexivity. }
  destruct Hloop as (c & Hc & [(Habs & _)| ->]); [lia|exact Hc].
Qed.

End Dp1dTotal.

(** ** Coordinates of an index subset of an ordered sequence *)

Lemma sorted_nth_error {A : Type} (R : A -> A -> Prop) (l : list A) :
  StronglySorted R l ->
  forall (q i : nat) (a b : A),
    (q < i)%nat -> nth_error l q = Some a -> nth_error l i = Some b -> R a b.
Proof.
  induction 1 as [|h t Ht IH Hh]; intros q i a b Hqi Hq Hi.
  - destruct q; discriminate.
  - destruct i as [|i]; [lia|]. simpl in Hi. destruct q as [|q]; simpl in Hq.
    + injection Hq as <-. rewrite Forall_forall in Hh. apply Hh.
      eapply nth_error_In; eauto.
    + eapply IH; [|eauto|eauto]. lia.
Qed.

Lemma coords_sorted (R : Q -> Q -> Prop) (x : list Q) :
  StronglySorted R x ->
  forall c : list nat,
    StronglySorted lt c -> Forall (fun i => i < length x)%nat c ->
    StronglySorted R (coords x c).
Proof.
  intros Hx. induction 1 as [|h t Ht IH Hh]; intros Hb; simpl;
    constructor; inversion Hb as [|? ? Hbh Hbt]; subst; auto.
  apply Forall_forall. intros b Hin. apply in_map_iff in Hin.
  destruct Hin as (j & <- & Hj).
  rewrite Forall_forall in Hh, Hbt.
  eapply (sorted_nth_error R x Hx h j); [auto| |];
    apply nth_error_nth'; auto.
Qed.

Lemma seq_sorted (a k : nat) : StronglySorted lt (seq a k).
Proof.
  revert a. induction k as [|k IH]; intros a; simpl; constructor; auto.
  apply Forall_forall. intros i Hi. apply in_seq in Hi. lia.
Qed.

Lemma seq_index_subset (n k : nat) : (k <= n)%nat -> index_subset n k (seq 0 k).
Proof.
  intros Hk. split; [apply length_seq|]. split; [apply seq_sorted|].
  apply Forall_forall. intros i Hi. apply in_seq in Hi. lia.
Qed.

(** ** Presence and absence of a brute-force result *)

Lemma bf_candidate_valid (x : list Q) (k : nat) (s : Z) (c : list nat) :
  length c = k -> positive_gaps (coords x c) ->
  exists e, bf_candidate x k s c = Some (e, c)
            /\ e == riesz_energy s (coords x c).
Proof.
  intros <- Hgap. destruct (subset_energy_spec s x c) as [Hsome _].
  destruct (Hsome Hgap) as (e & He & Heq).
  exists e. unfold bf_candidate. rewrite He. auto.
Qed.

Lemma bf_candidate_invalid (x : list Q) (k : nat) (s : Z) (c : list nat) :
  length c = k -> ~ positive_gaps (coords x c) ->
  bf_candidate x k s c = None.
Proof.
  intros <- Hgap. destruct (subset_energy_spec s x c) as [_ Hnone].
  unfold bf_candidate. now rewrite (Hnone Hgap).
Qed.

(** The brute force returns a present result as soon as one size-[k]
    index subset has all gaps positive. *)
Lemma brute_force_subset_present (x : list Q) (k : nat) (s : Z) (c : list nat) :
  index_subset (length x) k c -> positive_gaps (coords x c) ->
  exists e subset, Dp1d.brute_force_subset x k s = (Some e, Some subset).
Proof.
  intros Hc Hgap.
  destruct (bf_candidate_valid x k s c (proj1 Hc) Hgap) as (ec & Hcand & _).
  apply combinations_range_iff in Hc.
  destruct (brute_force_subset_first_min x k s)
    as [(_ & Hnone)|(e & v & _ & _ & _ & -> & _)]; [|eauto].
  rewrite (Hnone c Hc) in Hcand. discriminate.
Qed.

(** The brute force returns the absent result when every size-[k] index
    subset has a non-positive gap; in particular when [k > n]. *)
Lemma brute_force_subset_absent (x : list Q) (k : nat) (s : Z) :
  (forall c, index_subset (length x) k c -> ~ positive_gaps (coords x c)) ->
  Dp1d.brute_force_subset x k s = (None, None).
Proof.
  intros Hall.
  destruct (brute_force_subset_first_min x k s)
    as [(-> & _)|(e & v & c & l1 & l2 & _ & Hl & Hc & _)]; [reflexivity|].
  assert (Hin : In c (combinations (range 0 (length x)) k))
    by (rewrite Hl; apply in_elt).
  apply combinations_range_iff in Hin.
  rewrite (bf_candidate_invalid x k s c (proj1 Hin) (Hall c Hin)) in Hc.
  discriminate.
Qed.

Lemma index_subset_too_large (n k : nat) (c : list nat) :
  (n < k)%nat -> ~ index_subset n k c.
Proof.
  intros Hnk Hc. apply combinations_range_iff in Hc.
  assert (H : forall (l : list nat) (m : nat),
             (length l < m)%nat -> combinations l m = []).
  { induction l as [|a l IH]; intros [|m] Hm; simpl in *; try lia; auto.
    rewrite (IH m), (IH (S m)) by lia. reflexivity. }
  rewrite H in Hc; [destruct Hc|].
  unfold range. rewrite length_seq. lia.
Qed.

(** For [k = 1] the brute force returns energy 0 and the subset [[0]]. *)
Lemma brute_force_subset_single (x : list Q) (s : Z) :
  x <> [] -> Dp1d.brute_force_subset x 1 s = (Some 0, Some [0%nat]).
Proof.
  intros Hx.
  assert (Hcand : forall c, bf_candidate x 1 s c = Some (0, c)) by reflexivity.
  destruct x as [|x0 x]; [congruence|].
  destruct (brute_force_subset_first_min (x0 :: x) 1 s)
    as [(_ & Hnone)|(e & v & c & l1 & l2 & -> & Hl & Hc & Hl1 & _)].
  - specialize (Hnone [0%nat]). rewrite Hcand in Hnone.
    assert (Some (0, [0%nat]) = None); [|discriminate].
    apply Hnone. simpl. rewrite combinations_0. left. reflexivity.
  - rewrite Hcand in Hc. injection Hc as <- <-.
    destruct l1 as [|c1 l1].
    + simpl in Hl. rewrite combinations_0 in Hl. injection Hl as <- _.
      reflexivity.
    + exfalso. apply (Qlt_irrefl 0). apply (Hl1 c1 0 c1); [left; reflexivity|].
      apply Hcand.
Qed.

(** ** Soundness of the 2-D table *)

Module Pareto2dFacts.
Import Pareto2d.

Section WithSqrt.

Variable sqrt : Q -> Q.

Lemma extend2_candidate_inv (dp : table) (points : list point) (s : Z)
  (r i p : nat) (candidate : xfloat) (subset' : list nat) :
  extend sqrt dp points s r i p = Ok (Candidate candidate subset') ->
  exists prev_energy subset extra_cost,
    lookup2 dp (r - 1) p = Some (Some (prev_energy, Some subset))
    /\ extra_cost_loop sqrt points s i subset 0 = Ok extra_cost
    /\ candidate = xadd prev_energy extra_cost
    /\ subset' = subset ++ [i].
Proof.
  unfold extend. intros H. inv_bind H. inv_bind H.
  pose proof (getitem2_lookup2 _ _ _ _ _ Ha Ha0) as Hl.
  destruct a0 as [[prev_energy [subset|]]|]; try discriminate.
  inv_bind H. injection H as <- <-. eauto 8.
Qed.

Lemma step_p2_chain (n : nat) (dp : table) (points : list point) (s : Z)
  (r i p : nat) (st st' : cell) :
  table_sound n dp -> (1 <= r)%nat -> (p < i)%nat ->
  (forall subset, snd st = Some subset -> chain r i subset) ->
  step_p sqrt dp points s r i p st = Ok st' ->
  forall subset, snd st' = Some subset -> chain r i subset.
Proof.
  intros Hdp Hr Hp Hst H. unfold step_p in H. inv_bind H.
  destruct a as [|candidate subset'].
  - injection H as <-. assumption.
  - destruct (xltb candidate (fst st)); injection H as <-; [|assumption].
    apply extend2_candidate_inv in Ha.
    destruct Ha as (pe & sub & ec & Hl & _ & _ & ->).
    apply Hdp in Hl. destruct Hl as (Hchain & _).
    simpl. intros subset [= <-].
    replace r with (S (r - 1)) by lia. eapply chain_snoc; eauto.
Qed.

Lemma fill_cell2_sound (n : nat) (points : list point) (s : Z) (r i : nat)
  (dp dp' : table) :
  table_sound n dp -> (1 <= r)%nat -> (i < n)%nat ->
  fill_cell sqrt points s r i dp = Ok dp' -> table_sound n dp'.
Proof.
  intros Hdp Hr Hi H. unfold fill_cell in H. inv_bind H.
  eapply table_sound_setitem2; [exact Hdp| |exact H].
  intros subset Hs. split; [|assumption]. revert subset Hs.
  eapply (for_each_inv (fun st => forall subset, snd st = Some subset ->
                                  chain r i subset)); [| |exact Ha].
  - intros p st0 st1 Hin. apply in_range in Hin.
    eapply step_p2_chain; eauto. lia.
  - simpl. discriminate.
Qed.

Lemma dp_table2_sound (points : list point) (k : nat) (s : Z) (dp : table) :
  dp_table sqrt points k s = Ok dp -> table_sound (length points) dp.
Proof.
  unfold dp_table. intros H. inv_bind H.
  eapply (for_each_inv (table_sound (length points))); [| | exact H].
  - intros r st0 st1 Hin Hs Hrow. apply in_range in Hin. unfold fill_row in Hrow.
    eapply (for_each_inv (table_sound (length points))); [| exact Hs | exact Hrow].
    intros i st2 st3 Hi Hs2. apply in_range in Hi.
    apply fill_cell2_sound; auto; lia.
  - eapply (for_each_inv (table_sound (length points))); [| | exact Ha].
    + intros i st0 st1 Hin Hs Hset. apply in_range in Hin.
      eapply table_sound_setitem2; [exact Hs| |exact Hset].
      simpl. intros subset [= <-]. split; [|lia].
      repeat split; repeat constructor.
    + apply table_sound_init.
Qed.

Lemma step_final2_sound (n k : nat) (dp : table) (i : Z) (st st' : cell) :
  table_sound n dp ->
  (forall subset, snd st = Some subset -> index_subset n k subset) ->
  step_final dp k i st = Ok st' ->
  forall subset, snd st' = Some subset -> index_subset n k subset.
Proof.
  intros Hdp Hst H. unfold step_final in H. inv_bind H. inv_bind H.
  apply getitem_ok in Ha. apply getitem_z_ok in Ha0. destruct Ha0 as (j & Hj).
  assert (Hl : lookup2 dp k j = Some a0) by (unfold lookup2; now rewrite Ha).
  destruct a0 as [[energy subset0]|]; [|injection H as <-; assumption].
  destruct (xltb energy (fst st)); injection H as <-; [|assumption].
  simpl. intros subset ->. apply Hdp in Hl. destruct Hl.
  eapply chain_index_subset; eauto.
Qed.

(** A subset returned by the 2-D DP solver is a size-[k] index subset. *)
Lemma dp_subset_selection_sound (points : list point) (k : nat) (s : Z)
  (energy : xfloat) (subset : list nat) :
  dp_subset_selection sqrt points k s = Ok (energy, Some subset) ->
  index_subset (length points) k subset.
Proof.
  unfold dp_subset_selection, final_scan. intros H. inv_bind H.
  apply dp_table2_sound in Ha.
  eapply (for_each_inv (fun st => forall subset, snd st = Some subset ->
                                  index_subset (length points) k subset));
    [| |exact H|reflexivity].
  - intros i st0 st1 _. apply step_final2_sound. assumption.
  - simpl. discriminate.
Qed.

End WithSqrt.

End Pareto2dFacts.

(** ** The energy loops of the 2-D brute force *)

Section Energy2d.

Variable sqrt : Q -> Q.
Variable s : Z.

Lemma energy_inner_vals2 (points : list Pareto2d.point) (subset : list nat)
  (i : nat) :
  forall (js : list nat) (energy : Q),
    Pareto2d.energy_inner sqrt points s subset i js energy
    = inner_vals2 (Pareto2d.euclidean_distance sqrt) s (nth (nth i subset O) points (0, 0))
        (map (fun j => nth (nth j subset O) points (0, 0)) js) energy.
Proof.
  induction js as [|j js IH]; simpl; intros energy; [reflexivity|].
  destruct (Qeq_bool _ 0); [reflexivity|]. apply IH.
Qed.

Lemma energy_outer_vals2 (points : list Pareto2d.point) (subset : list nat) :
  forall (m i : nat) (energy : Q),
    Pareto2d.energy_outer sqrt points s subset (i + m) (seq i m) energy
    = outer_vals2 (Pareto2d.euclidean_distance sqrt) s
        (map (fun j => nth (nth j subset O) points (0, 0)) (seq i m)) energy.
Proof.
  induction m as [|m IH]; intros i energy; simpl; [reflexivity|].
  rewrite energy_inner_vals2. unfold range.
  replace (i + S m - (i + 1))%nat with m by lia.
  replace (i + 1)%nat with (S i) by lia.
  destruct (inner_vals2 (Pareto2d.euclidean_distance sqrt) s _ _ energy) as [e|]; [|reflexivity].
  replace (i + S m)%nat with (S i + m)%nat by lia. apply IH.
Qed.

Lemma subset_energy_vals2 (points : list Pareto2d.point) (subset : list nat) :
  Pareto2d.subset_energy sqrt points (length subset) s subset
  = outer_vals2 (Pareto2d.euclidean_distance sqrt) s (coords2 points subset) 0.
Proof.
  unfold Pareto2d.subset_energy, range, coords2. rewrite Nat.sub_0_r.
  rewrite (energy_outer_vals2 points subset (length subset) 0).
  now rewrite (map_nth_seq (fun i => nth i points (0, 0)) O subset).
Qed.

End Energy2d.

Section PairLoops.

Variable A : Type.
Variable dist : A -> A -> Q.
Variable s : Z.

Lemma inner_vals2_some (a : A) :
  forall (later : list A) (energy e : Q),
    inner_vals2 dist s a later energy = Some e ->
    e == energy
         + fold_right (fun b acc => pair_energy (dist a b) s + acc) 0 later.
Proof.
  induction later as [|b later IH]; simpl; intros energy e H.
  - injection H as <-. ring.
  - destruct (Qeq_bool (dist a b) 0); [discriminate|].
    apply IH in H. rewrite H. ring.
Qed.

Lemma inner_vals2_total (a : A) :
  forall (later : list A) (energy : Q),
    Forall (fun b => ~ dist a b == 0) later ->
    exists e, inner_vals2 dist s a later energy = Some e.
Proof.
  induction later as [|b later IH]; simpl; intros energy H; [eauto|].
  inversion H as [|? ? Hb Hl]; subst.
  destruct (Qeq_bool (dist a b) 0) eqn:E.
  - apply Qeq_bool_iff in E. contradiction.
  - apply IH. assumption.
Qed.

Lemma outer_vals2_some :
  forall (pts : list A) (energy e : Q),
    outer_vals2 dist s pts energy = Some e ->
    e == energy + riesz_energy_by dist s pts.
Proof.
  induction pts as [|a later IH]; simpl; intros energy e H.
  - injection H as <-. ring.
  - destruct (inner_vals2 dist s a later energy) as [e1|] eqn:E; [|discriminate].
    apply inner_vals2_some in E. apply IH in H. rewrite H, E. ring.
Qed.

Lemma outer_vals2_total :
  forall (pts : list A) (energy : Q),
    nonzero_distances dist pts ->
    exists e, outer_vals2 dist s pts energy = Some e.
Proof.
  induction pts as [|a later IH]; simpl; intros energy H; [eauto|].
  inversion H as [|? ? HF Hs]; subst.
  destruct (inner_vals2_total a later energy HF) as (e1 & ->).
  apply IH. assumption.
Qed.

Lemma positive_nonzero_distances (pts : list A) :
  positive_distances dist pts -> nonzero_distances dist pts.
Proof.
  unfold positive_distances, nonzero_distances.
  induction 1 as [|a l Ha Hl IH]; constructor; auto.
  eapply Forall_impl; [|exact Ha]. simpl. intros b Hb Hz.
  rewrite Hz in Hb. apply (Qlt_irrefl 0 Hb).
Qed.

End PairLoops.

(** ** The 2-D brute force as a strict-minimum scan *)

Section BruteForce2d.

Variable sqrt : Q -> Q.

Lemma finite_part_step (points : list Pareto2d.point) (k : nat) (s : Z)
  (st : Pareto2d.cell) (c : list nat) :
  finite_part (Pareto2d.step_subset sqrt points k s st c)
  = scan_step (bf_candidate2 sqrt points k s) (finite_part st) c.
Proof.
  unfold Pareto2d.step_subset, scan_step, bf_candidate2.
  destruct (Pareto2d.subset_energy sqrt points k s c) as [e|]; [|reflexivity].
  destruct st as [[b|] v]; simpl; [|reflexivity].
  destruct (Qltb e b); reflexivity.
Qed.

Lemma brute_force_subset_selection_scan (points : list Pareto2d.point)
  (k : nat) (s : Z) :
  finite_part (Pareto2d.brute_force_subset_selection sqrt points k s)
  = fold_left (scan_step (bf_candidate2 sqrt points k s))
      (combinations (range 0 (length points)) k) (None, None).
Proof.
  unfold Pareto2d.brute_force_subset_selection.
  change (@None Q, @None (list nat)) with (finite_part (Inf, None)).
  generalize (Inf, @None (list nat)) as st.
  induction (combinations (range 0 (length points)) k) as [|c l IH];
    intros st; simpl; [reflexivity|].
  rewrite IH, finite_part_step. reflexivity.
Qed.

Lemma brute_force_subset_selection_first_min (points : list Pareto2d.point)
  (k : nat) (s : Z) :
  first_min (bf_candidate2 sqrt points k s)
    (combinations (range 0 (length points)) k)
    (finite_part (Pareto2d.brute_force_subset_selection sqrt points k s)).
Proof.
  rewrite brute_force_subset_selection_scan. apply first_min_scan.
Qed.

(** The 2-D brute force is optimal over the size-[k] index subsets whose
    pairwise distances are all positive. *)
Lemma brute_force_subset_selection_optimal (points : list Pareto2d.point)
  (k : nat) (s : Z) (e : Q) (best : option (list nat)) (c : list nat) :
  Pareto2d.brute_force_subset_selection sqrt points k s = (Fin e, best) ->
  index_subset (length points) k c ->
  positive_distances (Pareto2d.euclidean_distance sqrt) (coords2 points c) ->
  e <= riesz_energy_by (Pareto2d.euclidean_distance sqrt) s (coords2 points c).
Proof.
  intros Hbf Hc Hpos.
  assert (Hlen : length c = k) by apply Hc.
  apply positive_nonzero_distances in Hpos.
  destruct (outer_vals2_total _ _ s _ 0 Hpos) as (ec & Hec).
  pose proof (outer_vals2_some _ _ _ _ _ _ Hec) as Heq.
  rewrite <- subset_energy_vals2, Hlen in Hec.
  assert (Hcand : bf_candidate2 sqrt points k s c = Some (ec, c))
    by (unfold bf_candidate2; now rewrite Hec).
  apply combinations_range_iff in Hc.
  pose proof (brute_force_subset_selection_first_min points k s) as Hmin.
  rewrite Hbf in Hmin. unfold finite_part in Hmin. simpl in Hmin.
  destruct Hmin as [(Habs & _)|(e0 & v & c0 & l1 & l2 & Hst & Hl & Hc0 & Hl1 & Hl2)];
    [discriminate|].
  injection Hst as -> ->.
  assert (Hle : e0 <= ec).
  { rewrite Hl in Hc. apply in_app_iff in Hc. destruct Hc as [Hin|[<-|Hin]].
    - apply Qlt_le_weak. eapply Hl1; eauto.
    - rewrite Hc0 in Hcand. injection Hcand as <-. apply Qle_refl.
    - eapply Hl2; eauto. }
  rewrite Heq in Hle. lra.
Qed.

(** A subset returned by the 2-D brute force is a size-[k] index subset. *)
Lemma brute_force_subset_selection_sound (points : list Pareto2d.point)
  (k : nat) (s : Z) (energy : xfloat) (subset : list nat) :
  Pareto2d.brute_force_subset_selection sqrt points k s = (energy, Some subset) ->
  index_subset (length points) k subset.
Proof.
  intros H. pose proof (brute_force_subset_selection_first_min points k s) as Hmin.
  rewrite H in Hmin.
  destruct Hmin as [(Habs & _)|(e & v & c & l1 & l2 & Hst & Hl & Hc & _)].
  - unfold finite_part in Habs. simpl in Habs. destruct energy; discriminate.
  - unfold finite_part in Hst. simpl in Hst.
    assert (Hv : subset = v) by (destruct energy; congruence). subst v.
    apply combinations_range_iff. rewrite Hl.
    unfold bf_candidate2 in Hc.
    destruct (Pareto2d.subset_energy sqrt points k s c); [|discriminate].
    injection Hc as _ ->. apply in_elt.
Qed.

End BruteForce2d.

(** ** Distances and gaps on a non-decreasing sequence *)

Lemma pair_energy_comp (a b : Q) (s : Z) :
  a == b -> pair_energy a s == pair_energy b s.
Proof.
  intros H. unfold pair_energy. rewrite H. reflexivity.
Qed.

Lemma distance_gap (a b : Q) : a <= b -> distance a b == b - a.
Proof.
  intros H. unfold distance. apply Qabs_pos. lra.
Qed.

Lemma positive_distances_gaps (pts : list Q) :
  StronglySorted Qle pts ->
  positive_distances distance pts -> positive_gaps pts.
Proof.
  unfold positive_distances, positive_gaps.
  induction 1 as [|a later Hs IH Ha]; intros Hpos; constructor;
    inversion Hpos as [|? ? Hd Hl]; subst; auto.
  rewrite Forall_forall in *. intros b Hb.
  specialize (Ha b Hb). specialize (Hd b Hb). simpl in Hd.
  rewrite (distance_gap a b Ha) in Hd. lra.
Qed.

Lemma riesz_energy_by_distance (s : Z) (pts : list Q) :
  StronglySorted Qle pts ->
  riesz_energy_by distance s pts == riesz_energy s pts.
Proof.
  induction 1 as [|a later Hs IH Ha]; simpl; [reflexivity|].
  rewrite IH. apply Qplus_comp; [|reflexivity].
  unfold energy_against. clear IH Hs.
  induction Ha as [|b later Hb Hl IH]; simpl; [reflexivity|].
  rewrite IH. apply Qplus_comp; [|reflexivity].
  apply pair_energy_comp. now apply distance_gap.
Qed.

(** On a non-decreasing sequence the brute force is optimal over the
    size-[k] index subsets whose pairwise distances are all positive. *)
Lemma brute_force_subset_optimal_sorted (x : list Q) (k : nat) (s : Z)
  (e : Q) (best : option (list nat)) (c : list nat) :
  StronglySorted Qle x ->
  Dp1d.brute_force_subset x k s = (Some e, best) ->
  index_subset (length x) k c ->
  positive_distances distance (coords x c) ->
  e <= riesz_energy_by distance s (coords x c).
Proof.
  intros Hx Hbf Hc Hpos.
  assert (Hs : StronglySorted Qle (coords x c))
    by (apply coords_sorted; [assumption|apply Hc|apply Hc]).
  rewrite (riesz_energy_by_distance s _ Hs).
  eapply brute_force_subset_optimal_gaps; eauto.
  now apply positive_distances_gaps.
Qed.

(** ** The loop over [p] as a strict-minimum scan *)

Lemma step_p_scan (dp : Dp1d.table) (x : list Q) (s : Z) (r i p : nat)
  (st st' : Dp1d.cell) :
  Dp1d.step_p dp x s r i p st = Ok st' ->
  st' = scan_step (dp_candidate dp x s r i) st p.
Proof.
  unfold Dp1d.step_p, scan_step, dp_candidate. intros H.
  destruct (Dp1d.extend dp x s r i p) as [[| |candidate subset]|e]; simpl in H;
    try discriminate; try (injection H as <-; reflexivity).
  destruct (Dp1d.improves candidate (fst st)); injection H as <-; reflexivity.
Qed.

Lemma best_loop_scan (dp : Dp1d.table) (x : list Q) (s : Z) (r i : nat) :
  forall (l : list nat) (st st' : Dp1d.cell),
    for_each l (Dp1d.step_p dp x s r i) st = Ok st' ->
    st' = fold_left (scan_step (dp_candidate dp x s r i)) l st.
Proof.
  induction l as [|p l IH]; simpl; intros st st' H.
  - congruence.
  - inv_bind H. apply step_p_scan in Ha. subst a. now apply IH.
Qed.

Lemma best_loop_first_min (dp : Dp1d.table) (x : list Q) (s : Z) (r i : nat)
  (l : list nat) (st : Dp1d.cell) :
  for_each l (Dp1d.step_p dp x s r i) (None, None) = Ok st ->
  first_min (dp_candidate dp x s r i) l st.
Proof.
  intros H. apply best_loop_scan in H. subst st. apply first_min_scan.
Qed.

Lemma dp_candidate_some (dp : Dp1d.table) (x : list Q) (s : Z) (r i p : nat)
  (e : Q) (subset : list nat) :
  dp_candidate dp x s r i p = Some (e, subset)
  <-> Dp1d.extend dp x s r i p = Ok (Dp1d.Candidate e subset).
Proof.
  unfold dp_candidate.
  destruct (Dp1d.extend dp x s r i p) as [[| |candidate sub]|err];
    split; intros H; try discriminate; congruence.
Qed.

(** ** The pair energy as a function of the exponent *)









(** * Further properties of the solvers *)

(** ** The energy stored with a subset *)

Lemma lookup2_setitem2 {A : Type} (dp dp' : list (list A)) (r i : nat) (v : A) :
  setitem2 dp r i v = Ok dp' ->
  forall r' i',
    lookup2 dp' r' i'
    = if Nat.eq_dec r' r
      then if Nat.eq_dec i' i then Some v else lookup2 dp r' i'
      else lookup2 dp r' i'.
Proof.
  intros H r' i'. apply setitem2_ok in H. destruct H as (row & Hrow & Hi & ->).
  now apply lookup2_update.
Qed.

Lemma energy_against_snoc (s : Z) (a b : Q) (later : list Q) :
  energy_against s a (later ++ [b])
  == energy_against s a later + pair_energy (b - a) s.
Proof.
  unfold energy_against. induction later as [|c later IH]; simpl.
  - ring.
  - rewrite IH. ring.
Qed.

(** Appending a point adds its pair energies against all chosen points. *)
Lemma riesz_energy_snoc (s : Z) (b : Q) (pts : list Q) :
  riesz_energy s (pts ++ [b])
  == riesz_energy s pts
     + fold_right (fun a acc => pair_energy (b - a) s + acc) 0 pts.
Proof.
  induction pts as [|a pts IH]; simpl.
  - reflexivity.
  - rewrite IH, energy_against_snoc. ring.
Qed.

Lemma positive_gaps_snoc (b : Q) (pts : list Q) :
  positive_gaps pts -> Forall (fun a => a < b) pts ->
  positive_gaps (pts ++ [b]).
Proof.
  intros Hs Hb. apply StronglySorted_app; auto.
  - repeat constructor.
  - intros a c Ha [<-|[]]. rewrite Forall_forall in Hb. auto.
Qed.

Lemma getitem_nth (x : list Q) (i : nat) (a : Q) :
  getitem x i = Ok a -> nth i x 0 = a /\ (i < length x)%nat.
Proof.
  intros H. apply getitem_ok in H. split.
  - now apply nth_error_nth.
  - apply nth_error_Some. congruence.
Qed.

Lemma extra_cost_loop_some (x : list Q) (s : Z) (i : nat) :
  forall (subset : list nat) (extra_cost ec : Q),
    Dp1d.extra_cost_loop x s i subset extra_cost = Ok (Some ec) ->
    Forall (fun a => a < nth i x 0) (coords x subset)
    /\ ec == extra_cost
             + fold_right (fun a acc => pair_energy (nth i x 0 - a) s + acc) 0
                 (coords x subset).
Proof.
  induction subset as [|q rest IH]; simpl; intros extra_cost ec H.
  - injection H as <-. split; [constructor|]. ring.
  - inv_bind H. inv_bind H.
    apply getitem_nth in Ha, Ha0. destruct Ha as (<- & _), Ha0 as (<- & _).
    destruct (Qle_bool (nth i x 0 - nth q x 0) 0) eqn:E; [discriminate|].
    apply gap_positive in E. apply IH in H. destruct H as (HF & He).
    split; [constructor; assumption|]. rewrite He. ring.
Qed.

Lemma step_p_exact (dp : Dp1d.table) (x : list Q) (s : Z) (r i p : nat)
  (st st' : Dp1d.cell) :
  table_exact x s dp -> cell_exact x s st ->
  Dp1d.step_p dp x s r i p st = Ok st' -> cell_exact x s st'.
Proof.
  intros Hdp Hst H. unfold Dp1d.step_p in H. inv_bind H.
  destruct a as [| |candidate subset'];
    try (injection H as <-; assumption).
  destruct (Dp1d.improves candidate (fst st)); injection H as <-; [|assumption].
  apply Dp1dFacts.extend_candidate_inv in Ha.
  destruct Ha as (pe & sub & ec & Hl & Hec & -> & ->).
  apply Hdp in Hl. destruct Hl as (Hgaps & Hpe).
  apply extra_cost_loop_some in Hec. destruct Hec as (HF & Hec).
  intros e subset [= <- <-]. unfold coords. rewrite map_app. simpl.
  fold (coords x sub). split.
  - now apply positive_gaps_snoc.
  - rewrite riesz_energy_snoc, Hec, Hpe. ring.
Qed.

Lemma table_exact_setitem2 (x : list Q) (s : Z) (dp dp' : Dp1d.table)
  (r i : nat) (c : Dp1d.cell) :
  table_exact x s dp -> cell_exact x s c ->
  setitem2 dp r i (Some c) = Ok dp' -> table_exact x s dp'.
Proof.
  intros Hdp Hc H r' i' e subset Hl.
  rewrite (lookup2_setitem2 _ _ _ _ _ H) in Hl.
  destruct (Nat.eq_dec r' r); [|eauto].
  destruct (Nat.eq_dec i' i); [|eauto].
  injection Hl as ->. now apply Hc.
Qed.

Lemma fill_cell_exact (x : list Q) (s : Z) (r i : nat) (dp dp' : Dp1d.table) :
  table_exact x s dp -> Dp1d.fill_cell x s r i dp = Ok dp' ->
  table_exact x s dp'.
Proof.
  intros Hdp H. unfold Dp1d.fill_cell in H. inv_bind H.
  eapply table_exact_setitem2; [exact Hdp| |exact H].
  eapply (for_each_inv (cell_exact x s)); [| |exact Ha].
  - intros p st0 st1 _. now apply step_p_exact.
  - intros e subset [=].
Qed.

Lemma dp_table_exact (x : list Q) (k : nat) (s : Z) (dp : Dp1d.table) :
  Dp1d.dp_table x k s = Ok dp -> table_exact x s dp.
Proof.
  unfold Dp1d.dp_table. intros H. inv_bind H.
  eapply (for_each_inv (table_exact x s)); [| |exact H].
  - intros r st0 st1 _ Hs Hrow. unfold Dp1d.fill_row in Hrow.
    eapply (for_each_inv (table_exact x s)); [|exact Hs|exact Hrow].
    intros i st2 st3 _. apply fill_cell_exact.
  - eapply (for_each_inv (table_exact x s)); [| |exact Ha].
    + intros i st0 st1 _ Hs Hset.
      eapply table_exact_setitem2; [exact Hs| |exact Hset].
      intros e subset [= <- <-]. simpl. split; [repeat constructor|].
      unfold energy_against. simpl. ring.
    + intros r i e subset Hl. exfalso. unfold lookup2 in Hl.
      destruct (nth_error _ r) as [row|] eqn:Er; [|discriminate].
      apply nth_error_In, repeat_spec in Er. subst row.
      apply nth_error_In, repeat_spec in Hl. discriminate.
Qed.

(** The final scan returns its initial state or a tuple stored in row [k]. *)
Lemma final_scan_stored (dp : Dp1d.table) (k n : nat) (c : Dp1d.cell) :
  Dp1d.final_scan dp k n = Ok c ->
  c = (None, None) \/ exists j, lookup2 dp k j = Some (Some c).
Proof.
  unfold Dp1d.final_scan. intros H.
  eapply (for_each_inv
            (fun st => st = (None, None)
                       \/ exists j, lookup2 dp k j = Some (Some st)));
    [| |exact H]; [|auto].
  intros i st0 st1 _ Hst0 Hstep. unfold Dp1d.step_final in Hstep.
  inv_bind Hstep. inv_bind Hstep.
  apply getitem_ok in Ha. apply getitem_z_ok in Ha0. destruct Ha0 as (j & Hj).
  assert (Hl : lookup2 dp k j = Some a0) by (unfold lookup2; now rewrite Ha).
  destruct a0 as [[energy subset]|]; [|injection Hstep as <-; assumption].
  destruct (fst st0) as [best_final|].
  - destruct energy as [e|]; [|discriminate].
    destruct (Qltb e best_final); injection Hstep as <-; eauto.
  - injection Hstep as <-. eauto.
Qed.

Lemma dp_subset_exact (x : list Q) (k : nat) (s : Z) (e : Q) (subset : list nat) :
  Dp1d.dp_subset x k s = Ok (Some e, Some subset) ->
  positive_gaps (coords x subset) /\ e == riesz_energy s (coords x subset).
Proof.
  unfold Dp1d.dp_subset. intros H. inv_bind H.
  apply dp_table_exact in Ha. apply final_scan_stored in H.
  destruct H as [H|(j & Hj)]; [discriminate|]. eapply Ha; eauto.
Qed.

Lemma brute_force_subset_exact (x : list Q) (k : nat) (s : Z) (e : Q)
  (subset : list nat) :
  Dp1d.brute_force_subset x k s = (Some e, Some subset) ->
  positive_gaps (coords x subset) /\ e == riesz_energy s (coords x subset).
Proof.
  intros H.
  pose proof (Dp1dFacts.brute_force_subset_sound x k s _ _ H) as (Hlen & _).
  pose proof (brute_force_subset_first_min x k s) as Hmin. rewrite H in Hmin.
  destruct Hmin as [(Habs & _)|(e0 & v & c & l1 & l2 & Hst & _ & Hc & _)];
    [discriminate|].
  injection Hst as -> ->. unfold bf_candidate in Hc.
  destruct (Dp1d.subset_energy x k s c) as [e1|] eqn:E; [|discriminate].
  injection Hc as -> ->. rewrite <- Hlen, subset_energy_vals in E.
  apply outer_vals_some in E. destruct E as (Hg & He). split; [assumption|].
  rewrite He. ring.
Qed.

(** X1.  Both 1-D solvers return the energy of the subset they return:
    the value is [sum_{p < q in S} 1 / (x[q] - x[p])^s] over the returned
    index list, and every gap in that sum is positive. *)
Theorem X1_returned_energy_is_subset_energy :
  forall (x : list Q) (k : nat) (s : Z) (e : Q) (subset : list nat),
    (Dp1d.dp_subset x k s = Ok (Some e, Some subset) ->
     positive_gaps (coords x subset)
     /\ e == riesz_energy s (coords x subset))
    /\ (Dp1d.brute_force_subset x k s = (Some e, Some subset) ->
        positive_gaps (coords x subset)
        /\ e == riesz_energy s (coords x subset)).
Proof.
  intros x k s e subset. split.
  - apply dp_subset_exact.
  - apply brute_force_subset_exact.
Qed.

(** The DP result on [[0, 4, 5, 10, 11]], [k = 4], [s = 1]. *)
Lemma X1_returned_energy_is_subset_energy_witness :
  positive_gaps (coords [0; 4; 5; 10; 11] [0; 2; 3; 4]%nat)
  /\ (29000 # 16500) == riesz_energy 1 (coords [0; 4; 5; 10; 11] [0; 2; 3; 4]%nat).
Proof.
  apply (proj1 (X1_returned_energy_is_subset_energy
                  [0; 4; 5; 10; 11] 4%nat 1%Z (29000 # 16500) [0; 2; 3; 4]%nat)).
  vm_compute. reflexivity.
Defined.

(** ** The DP against the brute force *)

Lemma dp_subset_not_below (x : list Q) (k : nat) (s : Z) (e_dp : Q)
  (subset_dp : list nat) :
  Dp1d.dp_subset x k s = Ok (Some e_dp, Some subset_dp) ->
  exists e_bf subset_bf,
    Dp1d.brute_force_subset x k s = (Some e_bf, Some subset_bf)
    /\ e_bf <= e_dp.
Proof.
  intros Hdp.
  pose proof (Dp1dFacts.dp_subset_sound x k s _ _ Hdp) as Hidx.
  destruct (dp_subset_exact x k s _ _ Hdp) as (Hgaps & He).
  destruct (brute_force_subset_present x k s subset_dp Hidx Hgaps)
    as (e_bf & subset_bf & Hbf).
  exists e_bf, subset_bf. split; [assumption|]. rewrite He.
  eapply brute_force_subset_optimal_gaps; eauto.
Qed.

(** X2.  The subset the 1-D DP returns is one of the candidates of the
    brute force.  When both solvers return an energy on the same input,
    the DP's subset is one of the combinations the brute force
    enumerates, the brute force's own loops find it valid, and the energy
    they compute for it is not below the energy the brute force
    returns. *)
Theorem X2_brute_force_not_above_dp_subset :
  forall (x : list Q) (k : nat) (s : Z) (e_dp e_bf : Q)
         (subset_dp : list nat) (best : option (list nat)),
    Dp1d.dp_subset x k s = Ok (Some e_dp, Some subset_dp) ->
    Dp1d.brute_force_subset x k s = (Some e_bf, best) ->
    In subset_dp (combinations (range 0 (length x)) k)
    /\ exists e, Dp1d.subset_energy x k s subset_dp = Some e /\ e_bf <= e.
Proof.
  intros x k s e_dp e_bf subset_dp best Hdp Hbf.
  pose proof (Dp1dFacts.dp_subset_sound x k s _ _ Hdp) as Hidx.
  destruct (dp_subset_exact x k s _ _ Hdp) as (Hgaps & _).
  destruct (bf_candidate_valid x k s subset_dp (proj1 Hidx) Hgaps)
    as (e & Hcand & _).
  apply combinations_range_iff in Hidx. split; [assumption|].
  exists e. split.
  - unfold bf_candidate in Hcand.
    destruct (Dp1d.subset_energy x k s subset_dp); [|discriminate].
    congruence.
  - pose proof (brute_force_subset_first_min x k s) as Hmin.
    rewrite Hbf in Hmin.
    destruct Hmin
      as [(Habs & _)|(e0 & v & c0 & l1 & l2 & Hst & Hl & Hc0 & Hl1 & Hl2)];
      [discriminate|].
    injection Hst as -> ->.
    rewrite Hl in Hidx. apply in_app_iff in Hidx.
    destruct Hidx as [Hin|[<-|Hin]].
    + apply Qlt_le_weak. eapply Hl1; eauto.
    + rewrite Hc0 in Hcand. injection Hcand as <-. apply Qle_refl.
    + eapply Hl2; eauto.
Qed.

(** The input [[0, 4, 5, 10, 11]] with [k = 4] and [s = 1], where the two
    solvers return different subsets. *)
Lemma X2_brute_force_not_above_dp_subset_witness :
  In [0; 2; 3; 4]%nat (combinations (range 0 (length [0; 4; 5; 10; 11])) 4)
  /\ exists e,
       Dp1d.subset_energy [0; 4; 5; 10; 11] 4 1 [0; 2; 3; 4]%nat = Some e
       /\ (32348 # 18480) <= e.
Proof.
  apply (X2_brute_force_not_above_dp_subset [0; 4; 5; 10; 11] 4%nat 1%Z
           (29000 # 16500) (32348 # 18480) [0; 2; 3; 4]%nat
           (Some [0; 1; 3; 4]%nat)).
  - vm_compute. reflexivity.
  - vm_compute. reflexivity.
Defined.

(** X3.  The DP recursion is a heuristic: there is a strictly increasing
    input with [1 <= k <= n] on which it returns a strictly larger energy
    than the brute force.  On [x = [0, 4, 5, 10, 11]], [k = 4], [s = 1]
    the DP returns [58/33] with [[0, 2, 3, 4]] and the brute force returns
    [8087/4620] with [[0, 1, 3, 4]]. *)
Theorem X3_dp_can_be_suboptimal :
  exists (x : list Q) (k : nat) (s : Z) (e_dp e_bf : Q)
         (subset_dp subset_bf : list nat),
    StronglySorted Qlt x /\ (1 <= k <= length x)%nat
    /\ Dp1d.dp_subset x k s = Ok (Some e_dp, Some subset_dp)
    /\ Dp1d.brute_force_subset x k s = (Some e_bf, Some subset_bf)
    /\ e_bf < e_dp /\ subset_dp <> subset_bf.
Proof.
  exists [0; 4; 5; 10; 11], 4%nat, 1%Z, (29000 # 16500),
    (32348 # 18480), [0; 2; 3; 4]%nat, [0; 1; 3; 4]%nat.
  split; [repeat constructor|]. split; [simpl; lia|].
  split; [vm_compute; reflexivity|]. split; [vm_compute; reflexivity|].
  split; [reflexivity|discriminate].
Qed.

(** ** Which faults the 1-D DP can raise *)

Lemma for_each_no_index_error {I St : Type} (Inv : St -> Prop)
  (body : I -> St -> result St) :
  forall (l : list I) (st : St),
    (forall i st0, In i l -> Inv st0 -> no_index_error Inv (body i st0)) ->
    Inv st -> no_index_error Inv (for_each l body st).
Proof.
  induction l as [|i l IH]; simpl; intros st Hbody Hst; [assumption|].
  pose proof (Hbody i st (or_introl eq_refl) Hst) as Hi.
  destruct (body i st) as [st1|e]; simpl in *; [|assumption].
  apply IH; auto.
Qed.

Lemma extra_cost_loop_in_range (x : list Q) (s : Z) (i : nat) :
  (i < length x)%nat ->
  forall (subset : list nat) (extra_cost : Q),
    Forall (fun q => q < length x)%nat subset ->
    exists ec, Dp1d.extra_cost_loop x s i subset extra_cost = Ok ec.
Proof.
  intros Hi. induction subset as [|q rest IH]; simpl; intros extra_cost HF;
    [eauto|].
  inversion HF as [|? ? Hq Hrest]; subst.
  destruct (nth_error x i) as [xi|] eqn:Ei;
    [|apply nth_error_None in Ei; lia].
  destruct (nth_error x q) as [xq|] eqn:Eq;
    [|apply nth_error_None in Eq; lia].
  unfold getitem. rewrite Ei, Eq. simpl.
  destruct (Qle_bool (xi - xq) 0); [eauto|]. apply IH. assumption.
Qed.

Lemma extend_no_index_error (n m : nat) (dp : Dp1d.table) (x : list Q) (s : Z)
  (r i p : nat) :
  length x = n -> table_shape n m dp -> table_sound n dp ->
  (r - 1 < m)%nat -> (p < n)%nat -> (i < n)%nat ->
  no_index_error (fun _ => True) (Dp1d.extend dp x s r i p).
Proof.
  intros Hn Hshape Hsound Hr Hp Hi.
  destruct (table_shape_lookup2 n m dp (r - 1) p Hshape Hr Hp)
    as (row & entry & Hrow & _ & Hentry).
  unfold Dp1d.extend, getitem. rewrite Hrow. simpl. rewrite Hentry. simpl.
  destruct entry as [[prev_energy [subset|]]|]; simpl; auto.
  assert (Hl : lookup2 dp (r - 1) p = Some (Some (prev_energy, Some subset)))
    by (unfold lookup2; now rewrite Hrow).
  destruct (Hsound _ _ _ _ Hl) as ((_ & _ & Hb) & _).
  destruct (extra_cost_loop_in_range x s i (eq_ind_r _ Hi Hn) subset 0)
    as (ec & ->).
  { eapply Forall_impl; [|exact Hb]. simpl. intros; lia. }
  simpl. destruct ec; simpl; auto. destruct prev_energy; simpl; auto.
Qed.

Lemma fill_cell_no_index_error (n m : nat) (x : list Q) (s : Z) (r i : nat)
  (dp : Dp1d.table) :
  length x = n -> table_shape n m dp -> table_sound n dp ->
  (1 <= r < m)%nat -> (r - 1 <= i < n)%nat ->
  no_index_error (fun dp' => table_shape n m dp' /\ table_sound n dp')
    (Dp1d.fill_cell x s r i dp).
Proof.
  intros Hn Hshape Hsound Hr Hi.
  assert (Hloop : no_index_error (fun _ => True)
            (for_each (range (r - 2) i) (Dp1d.step_p dp x s r i) (None, None))).
  { apply for_each_no_index_error; [|exact I].
    intros p st0 Hp _. apply in_range in Hp. unfold Dp1d.step_p.
    pose proof (extend_no_index_error n m dp x s r i p Hn Hshape Hsound) as He.
    destruct (Dp1d.extend dp x s r i p) as [[| |c sub]|e]; simpl in *;
      try exact I; [|apply He; lia].
    destruct (Dp1d.improves c (fst st0)); exact I. }
  destruct (for_each (range (r - 2) i) _ _) as [c|e] eqn:Eloop;
    simpl in Hloop.
  - destruct (setitem2_total n m dp r i (Some c) Hshape) as (dp' & Hset & Hs & _);
      [lia|lia|].
    assert (Hfill : Dp1d.fill_cell x s r i dp = Ok dp')
      by (unfold Dp1d.fill_cell; rewrite Eloop; exact Hset).
    rewrite Hfill. simpl. split; [assumption|].
    eapply Dp1dFacts.fill_cell_sound; [exact Hsound| | |exact Hfill]; lia.
  - unfold Dp1d.fill_cell. rewrite Eloop. simpl. assumption.
Qed.

Lemma dp_table_no_index_error (x : list Q) (k : nat) (s : Z) :
  (1 <= k)%nat ->
  no_index_error (fun dp => table_shape (length x) (k + 1) dp)
    (Dp1d.dp_table x k s).
Proof.
  intros Hk. unfold Dp1d.dp_table.
  destruct (Dp1dTotal.base_case_total (length x) k Hk)
    as (dp1 & -> & Hshape & Hsound & _).
  simpl.
  assert (H : no_index_error
            (fun dp => table_shape (length x) (k + 1) dp
                       /\ table_sound (length x) dp)
            (for_each (range 2 (k + 1)) (Dp1d.fill_row x s (length x)) dp1)).
  { apply for_each_no_index_error; [|auto].
    intros r dp0 Hr (H1 & H2). apply in_range in Hr. unfold Dp1d.fill_row.
    apply for_each_no_index_error; [|auto].
    intros i dp2 Hi (H3 & H4). apply in_range in Hi.
    apply fill_cell_no_index_error; auto; lia. }
  destruct (for_each (range 2 (k + 1)) _ dp1); simpl in *; tauto.
Qed.

Lemma final_scan_no_index_error (n k : nat) (dp : Dp1d.table) :
  (1 <= k)%nat -> table_shape n (k + 1) dp ->
  no_index_error (fun _ => True) (Dp1d.final_scan dp k n).
Proof.
  intros Hk Hshape. rewrite Dp1dTotal.final_scan_nat by assumption.
  apply for_each_no_index_error; [|exact I].
  intros i st0 Hi _. apply in_range in Hi.
  destruct (table_shape_lookup2 n (k + 1) dp k i Hshape)
    as (row & entry & Hrow & _ & Hentry); [lia|lia|].
  unfold Dp1d.step_final. unfold getitem at 1. rewrite Hrow. simpl.
  rewrite getitem_z_of_nat. unfold getitem. rewrite Hentry. simpl.
  destruct entry as [[energy subset]|]; simpl; auto.
  destruct (fst st0); simpl; auto. destruct energy; simpl; auto.
  destruct (Qltb q0 q); simpl; auto.
Qed.

Lemma dp_subset_index_error_iff (x : list Q) (k : nat) (s : Z) :
  Dp1d.dp_subset x k s = Raise IndexError <-> k = 0%nat.
Proof.
  split.
  - intros H. destruct k as [|k]; [reflexivity|]. exfalso.
    pose proof (dp_table_no_index_error x (S k) s) as Htab.
    unfold Dp1d.dp_subset in H.
    destruct (Dp1d.dp_table x (S k) s) as [dp|e]; simpl in *.
    + pose proof (final_scan_no_index_error (length x) (S k) dp) as Hfin.
      rewrite H in Hfin. simpl in Hfin.
      assert (IndexError = TypeError) by (apply Hfin; [lia|apply Htab; lia]).
      discriminate.
    + assert (e = TypeError) by (apply Htab; lia). congruence.
  - intros ->. destruct x; reflexivity.
Qed.

Lemma zrange_cons (a b : Z) :
  (a < b)%Z -> exists l, zrange a b = a :: l.
Proof.
  intros H. unfold zrange.
  destruct (Z.to_nat (b - a)) as [|m] eqn:E; [lia|].
  simpl. rewrite Z.add_0_r. eauto.
Qed.

Lemma getitem_z_nil_negative {A : Type} (k : Z) :
  (k < 0)%Z -> getitem_z (@nil A) k = Raise IndexError.
Proof.
  intros H. unfold getitem_z.
  destruct (Z.leb_spec 0 k); [lia|]. simpl.
  destruct (Z.leb_spec 0 k); [lia|reflexivity].
Qed.

(** X4.  For an integer [k], the 1-D DP raises IndexError exactly when
    [k <= 0], on every input, the empty one included.  For [k = 0] the
    base case writes to the missing row 1, or on the empty input the
    final scan reads [dp[0][-1]] of an empty row; for [k < 0] the table
    has no row at all.  For no [k >= 1] does it raise IndexError. *)
Theorem X4_index_error_iff_k_nonpositive :
  forall (x : list Q) (k : Z) (s : Z),
    dp_subset_int x k s = Raise IndexError <-> (k <= 0)%Z.
Proof.
  intros x k s. unfold dp_subset_int.
  destruct (Z.leb_spec 0 k) as [Hk|Hk].
  - rewrite dp_subset_index_error_iff. lia.
  - split; [lia|]. intros _. destruct x as [|a x].
    + simpl. destruct (zrange_cons (k - 1) 0) as (l & ->); [lia|].
      simpl. rewrite getitem_z_nil_negative by assumption. reflexivity.
    + reflexivity.
Qed.

(** ** When the solvers return a result *)

Lemma brute_force_subset_none_or_some (x : list Q) (k : nat) (s : Z) :
  Dp1d.brute_force_subset x k s = (None, None)
  \/ exists e subset, Dp1d.brute_force_subset x k s = (Some e, Some subset).
Proof.
  destruct (brute_force_subset_first_min x k s)
    as [(-> & _)|(e & v & _ & _ & _ & -> & _)]; eauto.
Qed.

(** X6.  With [k > n] the final scan of the 1-D DP has no iteration:
    whenever the DP returns, on any input, it returns the absent result
    [(None, None)]. *)
Theorem X6_dp_absent_when_k_exceeds_n :
  forall (x : list Q) (k : nat) (s : Z) (c : Dp1d.cell),
    (length x < k)%nat -> Dp1d.dp_subset x k s = Ok c -> c = (None, None).
Proof.
  intros x k s c Hk H. unfold Dp1d.dp_subset in H. inv_bind H.
  unfold Dp1d.final_scan, zrange in H.
  replace (Z.to_nat (Z.of_nat (length x) - (Z.of_nat k - 1))) with 0%nat in H
    by lia.
  simpl in H. congruence.
Qed.

(** The input [[0, 1]] with [k = 3]. *)
Lemma X6_dp_absent_when_k_exceeds_n_witness :
  Dp1d.dp_subset [0; 1] 3 1 = Ok (None, None)
  /\ (@None Q, @None (list nat)) = (None, None).
Proof.
  split; [vm_compute; reflexivity|].
  apply (X6_dp_absent_when_k_exceeds_n [0; 1] 3%nat 1%Z).
  - simpl. lia.
  - vm_compute. reflexivity.
Defined.

(** ** Selecting every point *)

Lemma combinations_all {A : Type} (l : list A) :
  combinations l (length l) = [l].
Proof.
  assert (Hbig : forall (l : list A) (m : nat),
             (length l < m)%nat -> combinations l m = []).
  { induction l0 as [|a l0 IH]; intros [|m] Hm; simpl in *; try lia; auto.
    rewrite (IH m), (IH (S m)) by lia. reflexivity. }
  induction l as [|a l IH]; simpl; [reflexivity|].
  rewrite IH, Hbig by lia. reflexivity.
Qed.

Lemma index_subset_all (n : nat) (c : list nat) :
  index_subset n n c -> c = seq 0 n.
Proof.
  intros Hc. apply combinations_range_iff in Hc. unfold range in Hc.
  rewrite Nat.sub_0_r in Hc.
  pose proof (combinations_all (seq 0 n)) as Hall.
  rewrite length_seq in Hall. rewrite Hall in Hc.
  destruct Hc as [<-|[]]. reflexivity.
Qed.

(** X7.  With [k = n] a subset returned by either 1-D solver is the
    whole index list [[0, ..., n-1]]. *)
Theorem X7_select_all_points :
  forall (x : list Q) (s : Z) (energy : option Q) (subset : list nat),
    Dp1d.dp_subset x (length x) s = Ok (energy, Some subset)
    \/ Dp1d.brute_force_subset x (length x) s = (energy, Some subset) ->
    subset = seq 0 (length x).
Proof.
  intros x s energy subset [H|H]; apply index_subset_all.
  - eapply Dp1dFacts.dp_subset_sound; eauto.
  - eapply Dp1dFacts.brute_force_subset_sound; eauto.
Qed.

(** The input [[0, 1, 3]]. *)
Lemma X7_select_all_points_witness :
  [0; 1; 2]%nat = seq 0 (length [0; 1; 3]).
Proof.
  apply (X7_select_all_points [0; 1; 3] 1%Z (Some (11 # 6))).
  left. vm_compute. reflexivity.
Defined.

(** ** Sign of the energy *)

Lemma pair_energy_positive (gap : Q) (s : Z) : 0 < gap -> 0 < pair_energy gap s.
Proof.
  intros H. unfold pair_energy, Qdiv. rewrite Qmult_1_l.
  apply Qinv_lt_0_compat. now apply Qpower_0_lt.
Qed.

Lemma energy_against_nonneg (s : Z) (a : Q) (later : list Q) :
  Forall (Qlt a) later -> 0 <= energy_against s a later.
Proof.
  unfold energy_against. induction 1 as [|b later Hb Hl IH]; simpl.
  - apply Qle_refl.
  - assert (0 < pair_energy (b - a) s) by (apply pair_energy_positive; lra).
    lra.
Qed.





(** ** The finished table satisfies the recursion *)

Lemma for_each_ext {I St : Type} (f g : I -> St -> result St) :
  forall (l : list I) (st : St),
    (forall i st0, In i l -> f i st0 = g i st0) ->
    for_each l f st = for_each l g st.
Proof.
  induction l as [|i l IH]; simpl; intros st H; [reflexivity|].
  rewrite H by auto. destruct (g i st); simpl; auto.
Qed.

Lemma step_p_row_ext (dp dp' : Dp1d.table) (x : list Q) (s : Z) (r i p : nat)
  (st : Dp1d.cell) :
  nth_error dp (r - 1) = nth_error dp' (r - 1) ->
  Dp1d.step_p dp x s r i p st = Dp1d.step_p dp' x s r i p st.
Proof.
  intros H. unfold Dp1d.step_p, Dp1d.extend, getitem. now rewrite H.
Qed.

Lemma lookup2_row_ext {A : Type} (dp dp' : list (list A)) (r i : nat) :
  nth_error dp r = nth_error dp' r -> lookup2 dp r i = lookup2 dp' r i.
Proof.
  intros H. unfold lookup2. now rewrite H.
Qed.

(** [fill_cell] stores the result of the loop over [p] at [(r, i)] and
    leaves every other entry and every other row as it was. *)
Lemma fill_cell_effect (x : list Q) (s : Z) (r i : nat) (dp dp' : Dp1d.table) :
  Dp1d.fill_cell x s r i dp = Ok dp' ->
  exists c,
    for_each (range (r - 2) i) (Dp1d.step_p dp x s r i) (None, None) = Ok c
    /\ lookup2 dp' r i = Some (Some c)
    /\ (forall i', i' <> i -> lookup2 dp' r i' = lookup2 dp r i')
    /\ (forall r', r' <> r -> nth_error dp' r' = nth_error dp r').
Proof.
  unfold Dp1d.fill_cell. intros H. inv_bind H. exists a.
  split; [assumption|].
  pose proof (lookup2_setitem2 _ _ _ _ _ H) as Hl.
  apply setitem2_ok in H. destruct H as (row & Hrow & Hi & ->).
  split; [|split].
  - rewrite Hl. destruct (Nat.eq_dec r r); [|congruence].
    destruct (Nat.eq_dec i i); congruence.
  - intros i' Hne. rewrite Hl. destruct (Nat.eq_dec r r); [|congruence].
    destruct (Nat.eq_dec i' i); congruence.
  - intros r' Hne. apply nth_error_update_neq. congruence.
Qed.

Lemma fill_cells_keep (x : list Q) (s : Z) (r i : nat) (cols : list nat)
  (dp dp' : Dp1d.table) :
  ~ In i cols ->
  for_each cols (Dp1d.fill_cell x s r) dp = Ok dp' ->
  lookup2 dp' r i = lookup2 dp r i
  /\ forall r', r' <> r -> nth_error dp' r' = nth_error dp r'.
Proof.
  intros Hi H.
  eapply (for_each_inv
            (fun dp0 => lookup2 dp0 r i = lookup2 dp r i
                        /\ forall r', r' <> r ->
                                      nth_error dp0 r' = nth_error dp r'));
    [| |exact H]; [|auto].
  intros i' st0 st1 Hin (H1 & H2) Hfill.
  apply fill_cell_effect in Hfill. destruct Hfill as (c & _ & _ & H3 & H4).
  split.
  - rewrite H3; [assumption|]. intros ->. contradiction.
  - intros r' Hne. rewrite H4 by assumption. auto.
Qed.

Lemma fill_rows_keep (x : list Q) (s : Z) (n r : nat) (rows : list nat)
  (dp dp' : Dp1d.table) :
  ~ In r rows ->
  for_each rows (Dp1d.fill_row x s n) dp = Ok dp' ->
  nth_error dp' r = nth_error dp r.
Proof.
  intros Hr H.
  eapply (for_each_inv (fun dp0 => nth_error dp0 r = nth_error dp r));
    [| |exact H]; [|auto].
  intros r' st0 st1 Hin H1 Hrow. unfold Dp1d.fill_row in Hrow.
  assert (Hne : r <> r') by (intros ->; contradiction).
  rewrite <- H1.
  eapply (for_each_inv (fun dp0 => nth_error dp0 r = nth_error st0 r));
    [| |exact Hrow]; [|auto].
  intros i st2 st3 _ H2 Hfill.
  apply fill_cell_effect in Hfill. destruct Hfill as (c & _ & _ & _ & H4).
  rewrite H4 by assumption. assumption.
Qed.

Lemma dp_table_base_row (x : list Q) (k : nat) (s : Z) (dp : Dp1d.table) :
  (1 <= k)%nat -> Dp1d.dp_table x k s = Ok dp ->
  forall i, (i < length x)%nat ->
            lookup2 dp 1 i = Some (Some (Some 0, Some [i])).
Proof.
  intros Hk H i Hi. unfold Dp1d.dp_table in H.
  destruct (Dp1dTotal.base_case_total (length x) k Hk)
    as (dp1 & Hbase & _ & _ & Hrow1 & _).
  cbv zeta in H. rewrite Hbase in H. simpl in H.
  rewrite <- (Hrow1 i Hi). apply lookup2_row_ext.
  eapply fill_rows_keep; [|exact H].
  intros Hin. apply in_range in Hin. lia.
Qed.

Lemma dp_table_recursion (x : list Q) (k : nat) (s : Z) (dp : Dp1d.table)
  (r i : nat) :
  Dp1d.dp_table x k s = Ok dp ->
  (2 <= r <= k)%nat -> (r - 1 <= i < length x)%nat ->
  exists c,
    for_each (range (r - 2) i) (Dp1d.step_p dp x s r i) (None, None) = Ok c
    /\ lookup2 dp r i = Some (Some c).
Proof.
  intros H Hr Hi.
  rewrite (Dp1dTotal.dp_table_through_cell x s k r i Hr Hi) in H.
  inv_bind H. inv_bind H. inv_bind H.
  rename a into d0, a0 into d1, a1 into d2.
  apply fill_cell_effect in Ha0.
  destruct Ha0 as (c & Hloop & Hcell & _ & Hrows1).
  apply (fill_cells_keep x s r i) in Ha1;
    [|intros Hin; apply in_range in Hin; lia].
  destruct Ha1 as (Hcell2 & Hrows2).
  assert (Hrow : forall r', (r' <= r)%nat -> nth_error dp r' = nth_error d2 r').
  { intros r' Hr'. eapply fill_rows_keep; [|exact H].
    intros Hin. apply in_range in Hin. lia. }
  exists c. split.
  - rewrite <- Hloop. apply for_each_ext. intros p st0 _.
    apply step_p_row_ext.
    rewrite Hrow by lia. rewrite Hrows2 by lia. apply Hrows1. lia.
  - rewrite (lookup2_row_ext dp d2 r i) by (apply Hrow; lia).
    now rewrite Hcell2.
Qed.

(** X9.  The table the 1-D DP finishes with satisfies its recursion, on
    every input on which it is built without fault: row 1 holds
    [(0, [i])] at every column, and for [2 <= r <= k] and [r-1 <= i < n]
    the entry at [(r, i)] is the running best of the loop over [p]
    evaluated on the finished table, that is the candidate of the first
    endpoint [p] in [r-2 .. i-1] whose extension has the least energy. *)
Theorem X9_table_satisfies_recursion :
  forall (x : list Q) (k : nat) (s : Z) (dp : Dp1d.table),
    Dp1d.dp_table x k s = Ok dp -> (1 <= k)%nat ->
    (forall i, (i < length x)%nat ->
               lookup2 dp 1 i = Some (Some (Some 0, Some [i])))
    /\ (forall r i,
           (2 <= r <= k)%nat -> (r - 1 <= i < length x)%nat ->
           exists c,
             for_each (range (r - 2) i) (Dp1d.step_p dp x s r i) (None, None)
             = Ok c
             /\ lookup2 dp r i = Some (Some c)
             /\ first_min (dp_candidate dp x s r i) (range (r - 2) i) c).
Proof.
  intros x k s dp H Hk. split.
  - now apply (dp_table_base_row x k s dp Hk H).
  - intros r i Hr Hi.
    destruct (dp_table_recursion x k s dp r i H Hr Hi) as (c & Hloop & Hcell).
    exists c. split; [assumption|]. split; [assumption|].
    now apply best_loop_first_min.
Qed.

(** The finished table for [[0, 1, 3, 6]], [k = 2], [s = 1]. *)
Lemma X9_table_satisfies_recursion_witness :
  exists dp,
    Dp1d.dp_table [0; 1; 3; 6] 2 1 = Ok dp
    /\ forall i, (i < length [0; 1; 3; 6])%nat ->
                 lookup2 dp 1 i = Some (Some (Some 0, Some [i])).
Proof.
  eexists. split; [vm_compute; reflexivity|].
  apply (X9_table_satisfies_recursion [0; 1; 3; 6] 2%nat 1%Z).
  - vm_compute. reflexivity.
  - lia.
Defined.

(** ** The final scan *)

Lemma dp_table_paired (x : list Q) (k : nat) (s : Z) (dp : Dp1d.table) :
  Dp1d.dp_table x k s = Ok dp -> table_paired dp.
Proof.
  assert (Hset : forall (d d' : Dp1d.table) r i c,
             table_paired d -> paired c ->
             setitem2 d r i (Some c) = Ok d' -> table_paired d').
  { intros d d' r i c Hd Hc H r' i' c' Hl.
    rewrite (lookup2_setitem2 _ _ _ _ _ H) in Hl.
    destruct (Nat.eq_dec r' r); [|eauto].
    destruct (Nat.eq_dec i' i); [|eauto].
    injection Hl as <-. assumption. }
  unfold Dp1d.dp_table. intros H. inv_bind H.
  eapply (for_each_inv table_paired); [| |exact H].
  - intros r st0 st1 _ Hs Hrow. unfold Dp1d.fill_row in Hrow.
    eapply (for_each_inv table_paired); [|exact Hs|exact Hrow].
    intros i st2 st3 _ Hs2 Hfill. unfold Dp1d.fill_cell in Hfill.
    inv_bind Hfill. eapply Hset; [exact Hs2| |exact Hfill].
    eapply (for_each_inv paired); [| |exact Ha0]; [|left; reflexivity].
    intros p st4 st5 _ Hst4 Hstep. unfold Dp1d.step_p in Hstep.
    inv_bind Hstep.
    destruct a1 as [| |c sub]; try (injection Hstep as <-; assumption).
    destruct (Dp1d.improves c (fst st4)); injection Hstep as <-;
      [right; eauto|assumption].
  - eapply (for_each_inv table_paired); [| |exact Ha].
    + intros i st0 st1 _ Hs H1. eapply Hset; [exact Hs| |exact H1].
      right. eauto.
    + intros r i c Hl. exfalso. unfold lookup2 in Hl.
      destruct (nth_error _ r) as [row|] eqn:Er; [|discriminate].
      apply nth_error_In, repeat_spec in Er. subst row.
      apply nth_error_In, repeat_spec in Hl. discriminate.
Qed.

Lemma step_final_lookup (dp : Dp1d.table) (k i : nat) (st : Dp1d.cell)
  (entry : option Dp1d.cell) :
  lookup2 dp k i = Some entry ->
  Dp1d.step_final dp k (Z.of_nat i) st = final_update entry st.
Proof.
  unfold lookup2, Dp1d.step_final. intros Hl.
  destruct (nth_error dp k) as [row|] eqn:Er; [|discriminate].
  unfold getitem at 1. rewrite Er. simpl.
  rewrite getitem_z_of_nat. unfold getitem. rewrite Hl. reflexivity.
Qed.

Lemma step_final_is_update (dp : Dp1d.table) (k i : nat) (st st' : Dp1d.cell) :
  Dp1d.step_final dp k (Z.of_nat i) st = Ok st' ->
  exists entry, lookup2 dp k i = Some entry /\ final_update entry st = Ok st'.
Proof.
  intros H. pose proof H as H0. unfold Dp1d.step_final in H.
  inv_bind H. inv_bind H. rewrite getitem_z_of_nat in Ha0.
  exists a0. split; [eapply getitem2_lookup2; eauto|].
  rewrite <- (step_final_lookup dp k i st a0); [assumption|].
  eapply getitem2_lookup2; eauto.
Qed.

Lemma final_update_decreases (entry : option Dp1d.cell) (st st' : Dp1d.cell)
  (e0 : Q) :
  final_update entry st = Ok st' -> fst st = Some e0 ->
  exists e1, fst st' = Some e1 /\ e1 <= e0.
Proof.
  unfold final_update. intros H Hst. rewrite Hst in H.
  destruct entry as [[[e|] subset]|]; try discriminate.
  - destruct (Qltb e e0) eqn:E; injection H as <-; simpl.
    + apply Qltb_lt in E. exists e. split; [reflexivity|lra].
    + exists e0. split; [assumption|lra].
  - injection H as <-. exists e0. split; [assumption|lra].
Qed.

Lemma final_update_below_entry (st st' : Dp1d.cell) (e : Q)
  (subset : option (list nat)) :
  final_update (Some (Some e, subset)) st = Ok st' ->
  exists e1, fst st' = Some e1 /\ e1 <= e.
Proof.
  unfold final_update. intros H.
  destruct (fst st) as [b|] eqn:Hst.
  - destruct (Qltb e b) eqn:E; injection H as <-; simpl.
    + exists e. split; [reflexivity|lra].
    + apply Qltb_ge in E. exists b. split; [assumption|lra].
  - injection H as <-. exists e. split; [reflexivity|lra].
Qed.

Lemma final_loop_min (dp : Dp1d.table) (k : nat) :
  forall (l : list nat) (st st' : Dp1d.cell),
    for_each l (fun i => Dp1d.step_final dp k (Z.of_nat i)) st = Ok st' ->
    (forall e0, fst st = Some e0 ->
                exists e', fst st' = Some e' /\ e' <= e0)
    /\ (forall i e subset,
           In i l -> lookup2 dp k i = Some (Some (Some e, subset)) ->
           exists e', fst st' = Some e' /\ e' <= e).
Proof.
  induction l as [|i l IH]; simpl; intros st st' H.
  - injection H as <-. split.
    + intros e0 H0. exists e0. split; [assumption|lra].
    + intros i e subset [].
  - inv_bind H. destruct (IH _ _ H) as (IH1 & IH2).
    apply step_final_is_update in Ha. destruct Ha as (entry & Hl & Hup).
    split.
    + intros e0 H0.
      destruct (final_update_decreases _ _ _ _ Hup H0) as (e1 & H1 & Hle1).
      destruct (IH1 e1 H1) as (e' & He' & Hle). exists e'. split; [assumption|lra].
    + intros i' e subset [<-|Hin] Hcell.
      * rewrite Hl in Hcell. injection Hcell as ->.
        destruct (final_update_below_entry _ _ _ _ Hup) as (e1 & H1 & Hle1).
        destruct (IH1 e1 H1) as (e' & He' & Hle).
        exists e'. split; [assumption|lra].
      * eauto.
Qed.

(** X10.  When the 1-D DP returns without fault for [k >= 1], what it
    returns is read off row [k] of the finished table: it is [(None,
    None)] or one of the stored tuples, both its components are present
    or both are [None], and if an entry of row [k] at a column [i >= k-1]
    has an energy, the returned energy is present and not larger. *)
Theorem X10_final_scan_minimum :
  forall (x : list Q) (k : nat) (s : Z) (dp : Dp1d.table) (c : Dp1d.cell),
    (1 <= k)%nat ->
    Dp1d.dp_table x k s = Ok dp -> Dp1d.dp_subset x k s = Ok c ->
    (c = (None, None) \/ exists j, lookup2 dp k j = Some (Some c))
    /\ paired c
    /\ forall i e subset,
         (k - 1 <= i < length x)%nat ->
         lookup2 dp k i = Some (Some (Some e, subset)) ->
         exists e', fst c = Some e' /\ e' <= e.
Proof.
  intros x k s dp c Hk Htab Hdp. unfold Dp1d.dp_subset in Hdp.
  rewrite Htab in Hdp. simpl in Hdp.
  pose proof (final_scan_stored dp k (length x) c Hdp) as Hstored.
  split; [assumption|]. split.
  - destruct Hstored as [->|(j & Hj)]; [left; reflexivity|].
    eapply dp_table_paired; eauto.
  - intros i e subset Hi Hcell.
    rewrite Dp1dTotal.final_scan_nat in Hdp by assumption.
    apply final_loop_min in Hdp. destruct Hdp as (_ & H2).
    apply (H2 i e subset); [apply in_range; lia|assumption].
Qed.

(** The run on [[0, 1, 3, 6]], [k = 2], [s = 1]. *)
Lemma X10_final_scan_minimum_witness :
  exists dp c,
    Dp1d.dp_table [0; 1; 3; 6] 2 1 = Ok dp
    /\ Dp1d.dp_subset [0; 1; 3; 6] 2 1 = Ok c
    /\ paired c.
Proof.
  eexists. eexists. split; [vm_compute; reflexivity|].
  split; [vm_compute; reflexivity|].
  refine (proj1 (proj2 (X10_final_scan_minimum [0; 1; 3; 6] 2%nat 1%Z
                          _ _ _ _ _))).
  - lia.
  - vm_compute. reflexivity.
  - vm_compute. reflexivity.
Defined.

(** ** Pairs: the DP is exact for [k = 2] *)

Lemma index_subset_pair (n : nat) (c : list nat) :
  index_subset n 2 c -> exists p i, c = [p; i] /\ (p < i < n)%nat.
Proof.
  intros (Hlen & Hs & Hb).
  destruct c as [|p [|i [|j c]]]; try discriminate.
  exists p, i. split; [reflexivity|].
  inversion Hs as [|? ? _ Hp]; subst. inversion Hp; subst.
  inversion Hb as [|? ? _ Hb']; subst. inversion Hb'; subst. lia.
Qed.

Lemma dp_candidate_pair (dp : Dp1d.table) (x : list Q) (s : Z) (i p : nat) :
  lookup2 dp 1 p = Some (Some (Some 0, Some [p])) ->
  (p < length x)%nat -> (i < length x)%nat -> nth p x 0 < nth i x 0 ->
  dp_candidate dp x s 2 i p
  = Some (0 + (0 + pair_energy (nth i x 0 - nth p x 0) s), [p; i]).
Proof.
  intros Hl Hp Hi Hlt. unfold lookup2 in Hl.
  destruct (nth_error dp 1) as [row|] eqn:Er; [|discriminate].
  unfold dp_candidate, Dp1d.extend. change (2 - 1)%nat with 1%nat.
  unfold getitem at 1. rewrite Er. cbn [bind].
  unfold getitem at 1. rewrite Hl. cbn [bind Dp1d.extra_cost_loop].
  unfold getitem.
  rewrite (nth_error_nth' x 0 Hi), (nth_error_nth' x 0 Hp). cbn [bind].
  apply gap_positive in Hlt. rewrite Hlt. reflexivity.
Qed.

(** X11.  For [k = 2] the 1-D DP is exact on every input on which it
    returns without fault: either both solvers return the absent result,
    or both return a present one and the two energies are equal as
    rational numbers. *)
Theorem X11_pairs_are_exact :
  forall (x : list Q) (s : Z) (c : Dp1d.cell),
    Dp1d.dp_subset x 2 s = Ok c ->
    (c = (None, None) /\ Dp1d.brute_force_subset x 2 s = (None, None))
    \/ (exists e_dp subset_dp e_bf subset_bf,
           c = (Some e_dp, Some subset_dp)
           /\ Dp1d.brute_force_subset x 2 s = (Some e_bf, Some subset_bf)
           /\ e_dp == e_bf).
Proof.
  intros x s c Hdp. pose proof Hdp as Hrun.
  unfold Dp1d.dp_subset in Hrun. inv_bind Hrun. rename a into dp.
  assert (Hpaired : paired c).
  { destruct (final_scan_stored dp 2 (length x) c Hrun) as [->|(j & Hj)];
      [left; reflexivity|].
    eapply dp_table_paired; eauto. }
  destruct (brute_force_subset_none_or_some x 2 s) as [Hbf|(e_bf & sb & Hbf)].
  - left. split; [|assumption].
    destruct Hpaired as [->|(e & sub & ->)]; [reflexivity|].
    destruct (dp_subset_not_below x 2 s e sub Hdp) as (e' & s' & H' & _).
    congruence.
  - right.
    pose proof (Dp1dFacts.brute_force_subset_sound x 2 s _ _ Hbf) as Hidx.
    destruct (brute_force_subset_exact x 2 s _ _ Hbf) as (Hgaps & Heb).
    destruct (index_subset_pair _ _ Hidx) as (p & i & -> & Hpi).
    simpl in Hgaps, Heb. unfold energy_against in Heb. simpl in Heb.
    assert (Hlt : nth p x 0 < nth i x 0).
    { inversion Hgaps as [|? ? _ HF]; subst. now inversion HF. }
    assert (Hrow1 : lookup2 dp 1 p = Some (Some (Some 0, Some [p])))
      by (apply (dp_table_base_row x 2 s dp); [lia|assumption|lia]).
    destruct (dp_table_recursion x 2 s dp 2 i Ha) as (c2 & Hloop & Hcell);
      [lia|simpl; lia|].
    apply best_loop_first_min in Hloop.
    assert (Hcand : dp_candidate dp x s 2 i p
                    = Some (0 + (0 + pair_energy (nth i x 0 - nth p x 0) s),
                            [p; i]))
      by (apply dp_candidate_pair; [assumption|lia|lia|assumption]).
    assert (Hin : In p (range (2 - 2) i)) by (apply in_range; simpl; lia).
    destruct Hloop
      as [(_ & Hnone)|(e2 & v & p0 & l1 & l2 & -> & Hl & Hp0 & Hl1 & Hl2)].
    { rewrite (Hnone p Hin) in Hcand. discriminate Hcand. }
    assert (He2 : e2 <= 0 + (0 + pair_energy (nth i x 0 - nth p x 0) s)).
    { rewrite Hl in Hin. apply in_app_iff in Hin.
      destruct Hin as [Hin|[<-|Hin]].
      - apply Qlt_le_weak. eapply Hl1; [exact Hin|exact Hcand].
      - rewrite Hcand in Hp0. injection Hp0 as <- _. apply Qle_refl.
      - eapply Hl2; [exact Hin|exact Hcand]. }
    rewrite Dp1dTotal.final_scan_nat in Hrun by lia.
    apply final_loop_min in Hrun. destruct Hrun as (_ & Hmin).
    destruct (Hmin i e2 (Some v)) as (e' & He' & Hle);
      [apply in_range; simpl; lia|assumption|].
    destruct Hpaired as [->|(e_dp & sd & ->)]; [discriminate|].
    simpl in He'. injection He' as ->.
    destruct (dp_subset_not_below x 2 s e' sd Hdp) as (eb' & sb' & Hbf' & Hge).
    assert (eb' = e_bf) by congruence. subst eb'.
    exists e', sd, e_bf, [p; i]. split; [reflexivity|]. split; [exact Hbf|].
    apply Qle_antisym; [|assumption]. rewrite Heb. lra.
Qed.

(** The input [[0, 1, 3, 6]] with [s = 1]. *)
Lemma X11_pairs_are_exact_witness :
  ((Some (1 # 6), Some [0%nat; 3%nat]) = (@None Q, @None (list nat))
   /\ Dp1d.brute_force_subset [0; 1; 3; 6] 2 1 = (None, None))
  \/ (exists e_dp subset_dp e_bf subset_bf,
         (Some (1 # 6), Some [0%nat; 3%nat]) = (Some e_dp, Some subset_dp)
         /\ Dp1d.brute_force_subset [0; 1; 3; 6] 2 1
            = (Some e_bf, Some subset_bf)
         /\ e_dp == e_bf).
Proof.
  apply (X11_pairs_are_exact [0; 1; 3; 6] 1%Z).
  vm_compute. reflexivity.
Defined.

(** ** The energy stored with a subset, in two dimensions *)

Section Exact2d.

Variable sqrt : Q -> Q.
Variable points : list Pareto2d.point.
Variable s : Z.

Lemma riesz_energy_by_snoc {A : Type} (dist : A -> A -> Q) (b : A)
  (pts : list A) :
  riesz_energy_by dist s (pts ++ [b])
  == riesz_energy_by dist s pts
     + fold_right (fun a acc => pair_energy (dist a b) s + acc) 0 pts.
Proof.
  induction pts as [|a pts IH]; simpl; [reflexivity|].
  rewrite IH.
  assert (H : fold_right (fun c acc => pair_energy (dist a c) s + acc) 0
                (pts ++ [b])
              == fold_right (fun c acc => pair_energy (dist a c) s + acc) 0 pts
                 + pair_energy (dist a b) s).
  { clear IH. induction pts as [|c pts IH]; simpl; [ring|].
    rewrite IH. ring. }
  rewrite H. ring.
Qed.

Lemma nonzero_distances_snoc {A : Type} (dist : A -> A -> Q) (b : A)
  (pts : list A) :
  nonzero_distances dist pts -> Forall (fun a => ~ dist a b == 0) pts ->
  nonzero_distances dist (pts ++ [b]).
Proof.
  unfold nonzero_distances.
  induction 1 as [|a pts Ha Hp IH]; intros Hb; simpl.
  - repeat constructor.
  - inversion Hb as [|? ? Hab Hb']; subst. constructor; [|auto].
    apply Forall_app. split; [assumption|]. repeat constructor. assumption.
Qed.

Lemma getitem_nth2 (i : nat) (a : Pareto2d.point) :
  getitem points i = Ok a -> nth i points (0, 0) = a.
Proof.
  intros H. apply getitem_ok in H. now apply nth_error_nth.
Qed.

Lemma extra_cost_loop2_fin (i : nat) :
  forall (subset : list nat) (extra_cost ec : Q),
    Pareto2d.extra_cost_loop sqrt points s i subset extra_cost = Ok (Fin ec) ->
    Forall (fun a => ~ Pareto2d.euclidean_distance sqrt a
                         (nth i points (0, 0)) == 0)
      (coords2 points subset)
    /\ ec == extra_cost
             + fold_right
                 (fun a acc =>
                    pair_energy (Pareto2d.euclidean_distance sqrt a
                                   (nth i points (0, 0))) s + acc)
                 0 (coords2 points subset).
Proof.
  induction subset as [|q rest IH]; simpl; intros extra_cost ec H.
  - injection H as <-. split; [constructor|]. ring.
  - inv_bind H. inv_bind H.
    apply getitem_nth2 in Ha, Ha0. subst a a0.
    destruct (Qeq_bool _ 0) eqn:E; [discriminate|].
    apply IH in H. destruct H as (HF & He). split.
    + constructor; [|assumption]. intros Hz.
      apply Qeq_bool_iff in Hz. congruence.
    + rewrite He. ring.
Qed.

Lemma step_p2_exact (dp : Pareto2d.table) (r i p : nat)
  (st st' : Pareto2d.cell) :
  table_exact2 sqrt points s dp -> cell_exact2 sqrt points s st ->
  Pareto2d.step_p sqrt dp points s r i p st = Ok st' ->
  cell_exact2 sqrt points s st'.
Proof.
  intros Hdp Hst H. unfold Pareto2d.step_p in H. inv_bind H.
  destruct a as [|candidate subset']; [injection H as <-; assumption|].
  destruct (xltb candidate (fst st)) eqn:Elt; injection H as <-;
    [|assumption].
  apply Pareto2dFacts.extend2_candidate_inv in Ha.
  destruct Ha as (pe & sub & ec & Hl & Hec & -> & ->).
  destruct pe as [pe|]; [|discriminate]. destruct ec as [ec|]; [|discriminate].
  apply Hdp in Hl. destruct (Hl sub eq_refl) as (e0 & He0 & Hnz & Hpe).
  simpl in He0. injection He0 as <-.
  apply extra_cost_loop2_fin in Hec. destruct Hec as (HF & Hec).
  intros subset [= <-]. exists (pe + ec). split; [reflexivity|].
  unfold coords2. rewrite map_app. simpl. fold (coords2 points sub). split.
  - now apply nonzero_distances_snoc.
  - rewrite riesz_energy_by_snoc, Hec, Hpe. ring.
Qed.

Lemma dp_table2_exact (k : nat) (dp : Pareto2d.table) :
  Pareto2d.dp_table sqrt points k s = Ok dp -> table_exact2 sqrt points s dp.
Proof.
  assert (Hset : forall (d d' : Pareto2d.table) r i c,
             table_exact2 sqrt points s d -> cell_exact2 sqrt points s c ->
             setitem2 d r i (Some c) = Ok d' -> table_exact2 sqrt points s d').
  { intros d d' r i c Hd Hc H r' i' c' Hl.
    rewrite (lookup2_setitem2 _ _ _ _ _ H) in Hl.
    destruct (Nat.eq_dec r' r); [|eauto].
    destruct (Nat.eq_dec i' i); [|eauto].
    injection Hl as <-. assumption. }
  unfold Pareto2d.dp_table. intros H. inv_bind H.
  eapply (for_each_inv (table_exact2 sqrt points s)); [| |exact H].
  - intros r st0 st1 _ Hs Hrow. unfold Pareto2d.fill_row in Hrow.
    eapply (for_each_inv (table_exact2 sqrt points s)); [|exact Hs|exact Hrow].
    intros i st2 st3 _ Hs2 Hfill. unfold Pareto2d.fill_cell in Hfill.
    inv_bind Hfill. eapply Hset; [exact Hs2| |exact Hfill].
    eapply (for_each_inv (cell_exact2 sqrt points s)); [| |exact Ha0].
    + intros p st4 st5 _. now apply step_p2_exact.
    + intros subset [=].
  - eapply (for_each_inv (table_exact2 sqrt points s)); [| |exact Ha].
    + intros i st0 st1 _ Hs H1. eapply Hset; [exact Hs| |exact H1].
      intros subset [= <-]. exists 0. split; [reflexivity|]. simpl.
      split; [repeat constructor|]. ring.
    + intros r i c Hl. exfalso. unfold lookup2 in Hl.
      destruct (nth_error _ r) as [row|] eqn:Er; [|discriminate].
      apply nth_error_In, repeat_spec in Er. subst row.
      apply nth_error_In, repeat_spec in Hl. discriminate.
Qed.

Lemma dp_subset_selection_exact (k : nat) (c : Pareto2d.cell) :
  Pareto2d.dp_subset_selection sqrt points k s = Ok c ->
  cell_exact2 sqrt points s c.
Proof.
  unfold Pareto2d.dp_subset_selection, Pareto2d.final_scan. intros H.
  inv_bind H. apply dp_table2_exact in Ha.
  eapply (for_each_inv (cell_exact2 sqrt points s)); [| |exact H].
  - intros i st0 st1 _ Hst0 Hstep. unfold Pareto2d.step_final in Hstep.
    inv_bind Hstep. inv_bind Hstep.
    apply getitem_ok in Ha0. apply getitem_z_ok in Ha1.
    destruct Ha1 as (j & Hj).
    assert (Hl : lookup2 a k j = Some a1) by (unfold lookup2; now rewrite Ha0).
    destruct a1 as [[energy subset]|]; [|injection Hstep as <-; assumption].
    destruct (xltb energy (fst st0)); injection Hstep as <-; [|assumption].
    eapply Ha; eauto.
  - intros subset [=].
Qed.

Lemma brute_force_subset_selection_exact (k : nat) (c : Pareto2d.cell) :
  Pareto2d.brute_force_subset_selection sqrt points k s = c ->
  cell_exact2 sqrt points s c.
Proof.
  intros <- subset Hsub.
  pose proof (brute_force_subset_selection_first_min sqrt points k s) as Hmin.
  destruct (Pareto2d.brute_force_subset_selection sqrt points k s)
    as [energy best] eqn:Hbf.
  simpl in Hsub. subst best.
  pose proof (brute_force_subset_selection_sound sqrt points k s _ _ Hbf)
    as (Hlen & _).
  unfold finite_part in Hmin. simpl in Hmin.
  destruct Hmin as [(Habs & _)|(e & v & c & l1 & l2 & Hst & _ & Hc & _)].
  - destruct energy; discriminate.
  - destruct energy as [e0|]; [|discriminate]. injection Hst as -> ->.
    exists e. split; [reflexivity|]. unfold bf_candidate2 in Hc.
    destruct (Pareto2d.subset_energy sqrt points k s c) as [e1|] eqn:E;
      [|discriminate].
    injection Hc as -> ->. rewrite <- Hlen, subset_energy_vals2 in E.
    split.
    + clear - E. revert E. generalize 0 at 1. generalize (coords2 points v).
      induction l as [|a l IH]; intros acc E; [constructor|].
      simpl in E.
      destruct (inner_vals2 _ s a l acc) as [e2|] eqn:Ein; [|discriminate].
      constructor; [|eapply IH; eauto].
      clear - Ein. revert acc Ein. induction l as [|b l IH]; intros acc Ein;
        [constructor|].
      simpl in Ein. destruct (Qeq_bool _ 0) eqn:Ez; [discriminate|].
      constructor; [|eapply IH; eauto].
      intros Hz. apply Qeq_bool_iff in Hz. congruence.
    + apply outer_vals2_some in E. rewrite E. ring.
Qed.

End Exact2d.

(** X12.  Both 2-D solvers return, with every subset, a finite energy that
    is the energy of that subset, [sum_{p < q in S} 1 / dist(p, q)^s] over
    the returned index list, and no two selected points are at distance
    zero. *)
Theorem X12_returned_energy_is_subset_energy_2d :
  forall (sqrt : Q -> Q) (points : list Pareto2d.point) (k : nat) (s : Z)
         (energy : xfloat) (subset : list nat),
    Pareto2d.dp_subset_selection sqrt points k s = Ok (energy, Some subset)
    \/ Pareto2d.brute_force_subset_selection sqrt points k s
       = (energy, Some subset) ->
    exists e,
      energy = Fin e
      /\ nonzero_distances (Pareto2d.euclidean_distance sqrt)
           (coords2 points subset)
      /\ e == riesz_energy_by (Pareto2d.euclidean_distance sqrt) s
                (coords2 points subset).
Proof.
  intros sqrt points k s energy subset [H|H].
  - exact (dp_subset_selection_exact sqrt points s k _ H subset eq_refl).
  - exact (brute_force_subset_selection_exact sqrt points s k _ H subset eq_refl).
Qed.

(** The collinear points [(0,0), (3,4), (6,8)] with [k = 2], [s = 1]. *)
Lemma X12_returned_energy_is_subset_energy_2d_witness :
  exists e,
    Fin (1 # 10) = Fin e
    /\ nonzero_distances (Pareto2d.euclidean_distance sqrt_sq)
         (coords2 [(0, 0); (3, 4); (6, 8)] [0%nat; 2%nat])
    /\ e == riesz_energy_by (Pareto2d.euclidean_distance sqrt_sq) 1
              (coords2 [(0, 0); (3, 4); (6, 8)] [0%nat; 2%nat]).
Proof.
  apply (X12_returned_energy_is_subset_energy_2d sqrt_sq
           [(0, 0); (3, 4); (6, 8)] 2%nat 1%Z).
  left. vm_compute. reflexivity.
Defined.

(** ** The 2-D DP against the 2-D brute force *)

Section Compare2d.

Variable sqrt : Q -> Q.
Variable points : list Pareto2d.point.
Variable s : Z.

Lemma bf_candidate2_valid (k : nat) (c : list nat) :
  length c = k ->
  nonzero_distances (Pareto2d.euclidean_distance sqrt) (coords2 points c) ->
  exists e,
    bf_candidate2 sqrt points k s c = Some (e, c)
    /\ e == riesz_energy_by (Pareto2d.euclidean_distance sqrt) s
              (coords2 points c).
Proof.
  intros <- Hnz.
  destruct (outer_vals2_total _ _ s _ 0 Hnz) as (e & He).
  pose proof (outer_vals2_some _ _ _ _ _ _ He) as Heq.
  rewrite <- subset_energy_vals2 in He.
  exists e. unfold bf_candidate2. rewrite He. split; [reflexivity|].
  rewrite Heq. ring.
Qed.


End Compare2d.

(** X13.  The subset the 2-D DP returns is one of the candidates of the
    2-D brute force.  When the DP returns a subset and the brute force a
    finite energy, the DP's subset is one of the combinations the brute
    force enumerates, the brute force's own loops find it valid, and the
    energy they compute for it is not below the energy the brute force
    returns. *)
Theorem X13_brute_force_not_above_dp_subset_2d :
  forall (sqrt : Q -> Q) (points : list Pareto2d.point) (k : nat) (s : Z)
         (e_dp : xfloat) (e_bf : Q) (subset_dp : list nat)
         (best : option (list nat)),
    Pareto2d.dp_subset_selection sqrt points k s = Ok (e_dp, Some subset_dp) ->
    Pareto2d.brute_force_subset_selection sqrt points k s = (Fin e_bf, best) ->
    In subset_dp (combinations (range 0 (length points)) k)
    /\ exists e,
         Pareto2d.subset_energy sqrt points k s subset_dp = Some e
         /\ e_bf <= e.
Proof.
  intros sqrt points k s e_dp e_bf subset_dp best Hdp Hbf.
  pose proof (Pareto2dFacts.dp_subset_selection_sound sqrt points k s _ _ Hdp)
    as Hidx.
  destruct (dp_subset_selection_exact sqrt points s k _ Hdp subset_dp eq_refl)
    as (e0 & _ & Hnz & _).
  destruct (bf_candidate2_valid sqrt points s k subset_dp (proj1 Hidx) Hnz)
    as (e & Hcand & _).
  apply combinations_range_iff in Hidx. split; [assumption|].
  exists e. split.
  - unfold bf_candidate2 in Hcand.
    destruct (Pareto2d.subset_energy sqrt points k s subset_dp);
      [|discriminate].
    congruence.
  - pose proof (brute_force_subset_selection_first_min sqrt points k s)
      as Hmin.
    rewrite Hbf in Hmin. unfold finite_part in Hmin. simpl in Hmin.
    destruct Hmin
      as [(Habs & _)|(e1 & v & c0 & l1 & l2 & Hst & Hl & Hc0 & Hl1 & Hl2)];
      [discriminate|].
    injection Hst as -> ->.
    rewrite Hl in Hidx. apply in_app_iff in Hidx.
    destruct Hidx as [Hin|[<-|Hin]].
    + apply Qlt_le_weak. eapply Hl1; eauto.
    + rewrite Hc0 in Hcand. injection Hcand as <-. apply Qle_refl.
    + eapply Hl2; eauto.
Qed.

(** The points [(0,0), (4,0), (5,0), (10,0), (11,0)] with [k = 4],
    [s = 1], where the two solvers return different subsets. *)
Lemma X13_brute_force_not_above_dp_subset_2d_witness :
  In [0; 2; 3; 4]%nat
    (combinations
       (range 0 (length [(0, 0); (4, 0); (5, 0); (10, 0); (11, 0)])) 4)
  /\ exists e,
       Pareto2d.subset_energy sqrt_sq
         [(0, 0); (4, 0); (5, 0); (10, 0); (11, 0)] 4 1 [0; 2; 3; 4]%nat
       = Some e
       /\ (32348 # 18480) <= e.
Proof.
  refine (X13_brute_force_not_above_dp_subset_2d sqrt_sq
            [(0, 0); (4, 0); (5, 0); (10, 0); (11, 0)] 4%nat 1%Z
            (Fin (29000 # 16500)) (32348 # 18480) [0; 2; 3; 4]%nat
            (Some [0; 1; 3; 4]%nat) _ _).
  - vm_compute. reflexivity.
  - vm_compute. reflexivity.
Defined.

(** X15.  The divergence of the 2-D DP from the 2-D brute force occurs
    and the test of [run_example] reports it: there are points, sorted by
    the first coordinate, on which both solvers return a subset, the DP
    energy is strictly larger, and the test fails.  The points are
    [(0,0), (4,0), (5,0), (10,0), (11,0)] with [k = 4], [s = 1], where all
    distances are integers. *)
Theorem X15_divergence_is_reported :
  exists (points : list Pareto2d.point) (k : nat) (s : Z) (e_dp e_bf : Q)
         (subset_dp subset_bf : list nat),
    Pareto2d.dp_subset_selection sqrt_sq points k s
    = Ok (Fin e_dp, Some subset_dp)
    /\ Pareto2d.brute_force_subset_selection sqrt_sq points k s
       = (Fin e_bf, Some subset_bf)
    /\ e_bf < e_dp
    /\ Pareto2d.solutions_match (Fin e_dp, Some subset_dp)
         (Fin e_bf, Some subset_bf) = false.
Proof.
  exists [(0, 0); (4, 0); (5, 0); (10, 0); (11, 0)], 4%nat, 1%Z.
  do 4 eexists.
  split; [vm_compute; reflexivity|]. split; [vm_compute; reflexivity|].
  split; reflexivity.
Qed.

(** ** The drivers *)

Lemma comprehension_nth {A : Type} (d : A) (x : list A) (idx : list nat) :
  Forall (fun i => i < length x)%nat idx ->
  comprehension x idx = Ok (map (fun i => nth i x d) idx).
Proof.
  induction 1 as [|i rest Hi Hrest IH]; simpl; [reflexivity|].
  unfold getitem. rewrite (nth_error_nth' x d Hi). simpl.
  rewrite IH. reflexivity.
Qed.

(** X16.  [print_solution] completes on what a 1-D solver returned
    exactly when the returned subset is present.  It then prints the
    method, the indices, the coordinates at these indices, the energy and
    the rule; on an absent subset it raises TypeError after the first two
    lines, whatever the energy is. *)
Theorem X16_print_solution_on_solver_result :
  forall (x : list Q) (k : nat) (s : Z) (energy : option Q)
         (subset : option (list nat)) (method : String.string),
    Dp1d.dp_subset x k s = Ok (energy, subset)
    \/ Dp1d.brute_force_subset x k s = (energy, subset) ->
    match subset with
    | Some idx =>
        print_solution x subset energy method
        = ([Method_line method; Indices_line subset;
            Points_line (coords x idx); Energy_line energy; Rule_line],
           Ok tt)
    | None =>
        print_solution x subset energy method
        = ([Method_line method; Indices_line subset], Raise TypeError)
    end.
Proof.
  intros x k s energy [idx|] method H; [|reflexivity].
  assert (Hidx : index_subset (length x) k idx).
  { destruct H as [H|H].
    - eapply Dp1dFacts.dp_subset_sound; eauto.
    - eapply Dp1dFacts.brute_force_subset_sound; eauto. }
  destruct Hidx as (_ & _ & Hb).
  unfold print_solution, select. rewrite (comprehension_nth 0 x idx Hb).
  reflexivity.
Qed.

(** The DP result on [[0, 1, 3, 6]], [k = 2], [s = 1], with the default
    empty method label. *)
Lemma X16_print_solution_on_solver_result_witness :
  print_solution [0; 1; 3; 6] (Some [0%nat; 3%nat]) (Some (1 # 6))
    String.EmptyString
  = ([Method_line String.EmptyString; Indices_line (Some [0%nat; 3%nat]);
      Points_line (coords [0; 1; 3; 6] [0%nat; 3%nat]);
      Energy_line (Some (1 # 6)); Rule_line], Ok tt).
Proof.
  apply (X16_print_solution_on_solver_result [0; 1; 3; 6] 2%nat 1%Z
           (Some (1 # 6)) (Some [0%nat; 3%nat]) String.EmptyString).
  left. vm_compute. reflexivity.
Defined.

(** ** Which faults the 2-D DP can raise *)

Section Faults2d.

Variable sqrt : Q -> Q.
Variable points : list Pareto2d.point.
Variable s : Z.

Lemma base_case2_total (k : nat) :
  (1 <= k)%nat ->
  exists dp : Pareto2d.table,
    for_each (range 0 (length points))
      (fun i dp => setitem2 dp 1 i (Some (Fin 0, Some [i])))
      (repeat (repeat None (length points)) (k + 1)) = Ok dp
    /\ table_shape (length points) (k + 1) dp
    /\ table_sound (length points) dp.
Proof.
  intros Hk.
  apply for_each_range_total
    with (Inv := fun (j : nat) (dp0 : Pareto2d.table) =>
                   table_shape (length points) (k + 1) dp0
                   /\ table_sound (length points) dp0);
    [lia| |].
  - split; [apply table_shape_init|apply table_sound_init].
  - intros i dp0 Hi (H1 & H2).
    destruct (setitem2_total (length points) (k + 1) dp0 1 i
                (Some (Fin 0, Some [i])) H1)
      as (dp1 & Hset & Hshape1 & _); [lia|lia|].
    exists dp1. split; [assumption|]. split; [assumption|].
    eapply table_sound_setitem2; [exact H2| |exact Hset].
    simpl. intros subset [= <-]. split; [|lia].
    repeat split; repeat constructor.
Qed.

Lemma extra_cost_loop2_in_range (i : nat) :
  (i < length points)%nat ->
  forall (subset : list nat) (extra_cost : Q),
    Forall (fun q => q < length points)%nat subset ->
    exists ec,
      Pareto2d.extra_cost_loop sqrt points s i subset extra_cost = Ok ec.
Proof.
  intros Hi. induction subset as [|q rest IH]; simpl; intros extra_cost HF;
    [eauto|].
  inversion HF as [|? ? Hq Hrest]; subst.
  destruct (nth_error points i) as [pi|] eqn:Ei;
    [|apply nth_error_None in Ei; lia].
  destruct (nth_error points q) as [pq|] eqn:Eq;
    [|apply nth_error_None in Eq; lia].
  unfold getitem. rewrite Ei, Eq. simpl.
  destruct (Qeq_bool _ 0); [eauto|]. apply IH. assumption.
Qed.

Lemma fill_cell2_no_index_error (m r i : nat) (dp : Pareto2d.table) :
  table_shape (length points) m dp -> table_sound (length points) dp ->
  (1 <= r < m)%nat -> (r - 1 <= i < length points)%nat ->
  no_index_error
    (fun dp' => table_shape (length points) m dp'
                /\ table_sound (length points) dp')
    (Pareto2d.fill_cell sqrt points s r i dp).
Proof.
  intros Hshape Hsound Hr Hi.
  assert (Hloop : no_index_error (fun _ => True)
            (for_each (range (r - 2) i)
               (Pareto2d.step_p sqrt dp points s r i) (Inf, None))).
  { apply for_each_no_index_error; [|exact I].
    intros p st0 Hp _. apply in_range in Hp.
    destruct (table_shape_lookup2 (length points) m dp (r - 1) p Hshape)
      as (row & entry & Hrow & _ & Hentry); [lia|lia|].
    unfold Pareto2d.step_p, Pareto2d.extend, getitem.
    rewrite Hrow. simpl. rewrite Hentry. simpl.
    destruct entry as [[prev_energy [subset|]]|]; simpl; auto.
    assert (Hl : lookup2 dp (r - 1) p = Some (Some (prev_energy, Some subset)))
      by (unfold lookup2; now rewrite Hrow).
    destruct (Hsound _ _ _ _ Hl) as ((_ & _ & Hb) & _).
    destruct (extra_cost_loop2_in_range i (proj2 Hi) subset 0) as (ec & ->).
    { eapply Forall_impl; [|exact Hb]. simpl. intros; lia. }
    simpl. destruct (xltb _ (fst st0)); exact I. }
  destruct (for_each (range (r - 2) i) _ _) as [c|e] eqn:Eloop;
    simpl in Hloop.
  - destruct (setitem2_total (length points) m dp r i (Some c) Hshape)
      as (dp' & Hset & Hs & _); [lia|lia|].
    assert (Hfill : Pareto2d.fill_cell sqrt points s r i dp = Ok dp')
      by (unfold Pareto2d.fill_cell; rewrite Eloop; exact Hset).
    rewrite Hfill. simpl. split; [assumption|].
    eapply Pareto2dFacts.fill_cell2_sound; [exact Hsound| | |exact Hfill]; lia.
  - unfold Pareto2d.fill_cell. rewrite Eloop. simpl. assumption.
Qed.

Lemma dp_table2_no_index_error (k : nat) :
  (1 <= k)%nat ->
  no_index_error (fun dp => table_shape (length points) (k + 1) dp)
    (Pareto2d.dp_table sqrt points k s).
Proof.
  intros Hk. unfold Pareto2d.dp_table.
  destruct (base_case2_total k Hk) as (dp1 & -> & Hshape & Hsound).
  simpl.
  assert (H : no_index_error
            (fun dp => table_shape (length points) (k + 1) dp
                       /\ table_sound (length points) dp)
            (for_each (range 2 (k + 1))
               (Pareto2d.fill_row sqrt points s (length points)) dp1)).
  { apply for_each_no_index_error; [|auto].
    intros r dp0 Hr (H1 & H2). apply in_range in Hr. unfold Pareto2d.fill_row.
    apply for_each_no_index_error; [|auto].
    intros i dp2 Hi (H3 & H4). apply in_range in Hi.
    apply fill_cell2_no_index_error; auto; lia. }
  destruct (for_each (range 2 (k + 1)) _ dp1); simpl in *; tauto.
Qed.

Lemma final_scan2_no_index_error (k : nat) (dp : Pareto2d.table) :
  (1 <= k)%nat -> table_shape (length points) (k + 1) dp ->
  no_index_error (fun _ => True) (Pareto2d.final_scan dp k (length points)).
Proof.
  intros Hk Hshape. unfold Pareto2d.final_scan.
  replace (Z.of_nat k - 1)%Z with (Z.of_nat (k - 1)) by lia.
  rewrite zrange_of_nat, for_each_map.
  apply for_each_no_index_error; [|exact I].
  intros i st0 Hi _. apply in_range in Hi.
  destruct (table_shape_lookup2 (length points) (k + 1) dp k i Hshape)
    as (row & entry & Hrow & _ & Hentry); [lia|lia|].
  unfold Pareto2d.step_final. unfold getitem at 1. rewrite Hrow. simpl.
  rewrite getitem_z_of_nat. unfold getitem. rewrite Hentry. simpl.
  destruct entry as [[energy subset]|]; simpl; auto.
  destruct (xltb energy (fst st0)); exact I.
Qed.

End Faults2d.

Lemma dp_subset_selection_index_error_iff (sqrt : Q -> Q)
  (points : list Pareto2d.point) (k : nat) (s : Z) :
  Pareto2d.dp_subset_selection sqrt points k s = Raise IndexError
  <-> k = 0%nat.
Proof.
  split.
  - intros H. destruct k as [|k]; [reflexivity|]. exfalso.
    pose proof (dp_table2_no_index_error sqrt points s (S k)) as Htab.
    unfold Pareto2d.dp_subset_selection in H.
    destruct (Pareto2d.dp_table sqrt points (S k) s) as [dp|e]; simpl in *.
    + pose proof (final_scan2_no_index_error points (S k) dp) as Hfin.
      rewrite H in Hfin. simpl in Hfin.
      assert (IndexError = TypeError) by (apply Hfin; [lia|apply Htab; lia]).
      discriminate.
    + assert (e = TypeError) by (apply Htab; lia). congruence.
  - intros ->. destruct points; reflexivity.
Qed.

(** X19.  For an integer [k], the 2-D DP raises IndexError exactly when
    [k <= 0], on every input, the empty one included; for no [k >= 1]
    does it raise IndexError. *)
Theorem X19_index_error_iff_k_nonpositive_2d :
  forall (sqrt : Q -> Q) (points : list Pareto2d.point) (k : Z) (s : Z),
    dp_subset_selection_int sqrt points k s = Raise IndexError
    <-> (k <= 0)%Z.
Proof.
  intros sqrt points k s. unfold dp_subset_selection_int.
  destruct (Z.leb_spec 0 k) as [Hk|Hk].
  - rewrite dp_subset_selection_index_error_iff. lia.
  - split; [lia|]. intros _. destruct points as [|a points].
    + simpl. destruct (zrange_cons (k - 1) 0) as (l & ->); [lia|].
      simpl. rewrite getitem_z_nil_negative by assumption. reflexivity.
    + reflexivity.
Qed.

(** ** A verdict of no match at equal energies *)

(** X21.  The verdict of [run_example] is stricter than optimality: there
    are points on which the 2-D DP and the 2-D brute force return the same
    energy, so the DP result is optimal, and [run_example] still prints
    that the solutions do not match, because two subsets tie and the two
    solvers keep different ones.  The points are the corners
    [(0,3), (0,0), (4,3), (4,0)] of a rectangle with [k = 2], [s = 1]: both
    diagonals have length 5, the DP keeps [[1, 2]] and the brute force
    [[0, 3]]. *)
Theorem X21_no_match_at_equal_energy :
  exists (points : list Pareto2d.point) (k : nat) (s : Z) (e : Q)
         (subset_dp subset_bf : list nat),
    Pareto2d.dp_subset_selection sqrt_sq points k s
    = Ok (Fin e, Some subset_dp)
    /\ Pareto2d.brute_force_subset_selection sqrt_sq points k s
       = (Fin e, Some subset_bf)
    /\ subset_dp <> subset_bf
    /\ In No_match_line (fst (run_example sqrt_sq points k s 1))
    /\ ~ In Match_line (fst (run_example sqrt_sq points k s 1)).
Proof.
  exists [(0, 3); (0, 0); (4, 3); (4, 0)], 2%nat, 1%Z.
  exists (1 # 5), [1; 2]%nat, [0; 3]%nat.
  split; [vm_compute; reflexivity|]. split; [vm_compute; reflexivity|].
  split; [discriminate|].
  split.
  - vm_compute. do 12 right. left. reflexivity.
  - vm_compute. intros H.
    repeat (destruct H as [H|H]; [discriminate H|]). exact H.
Qed.

(** ** The optimal energy as a function of [k] *)

Lemma index_subset_tail (n k i : nat) (c : list nat) :
  index_subset n (S k) (i :: c) -> index_subset n k c.
Proof.
  intros (Hlen & Hs & Hb). simpl in Hlen.
  inversion Hs; subst. inversion Hb; subst.
  split; [lia|]. split; assumption.
Qed.

(** X22.  The energy the 1-D brute force returns does not decrease
    with [k]: whenever it returns an energy for [k + 1] points, what it
    returns for [k] points on the same input is present, with an energy
    that is not larger. *)
Theorem X22_brute_force_monotone_in_k :
  forall (x : list Q) (k : nat) (s : Z) (e' : Q) (subset' : list nat)
         (energy : option Q) (best : option (list nat)),
    Dp1d.brute_force_subset x (S k) s = (Some e', Some subset') ->
    Dp1d.brute_force_subset x k s = (energy, best) ->
    exists e subset, energy = Some e /\ best = Some subset /\ e <= e'.
Proof.
  intros x k s e' subset' energy best Hbf Hk0.
  pose proof (Dp1dFacts.brute_force_subset_sound x (S k) s _ _ Hbf) as Hidx.
  destruct (brute_force_subset_exact x (S k) s _ _ Hbf) as (Hgaps & Heq).
  destruct subset' as [|i c]; [destruct Hidx as (Hlen & _); discriminate|].
  pose proof (index_subset_tail _ _ _ _ Hidx) as Hc.
  simpl in Hgaps, Heq. inversion Hgaps as [|? ? Hsorted Hfirst]; subst.
  destruct (brute_force_subset_present x k s c Hc Hsorted) as (e & sub & Hk).
  pose proof (brute_force_subset_optimal_gaps x k s e (Some sub) c Hk Hc Hsorted)
    as Hle.
  rewrite Hk in Hk0. injection Hk0 as <- <-.
  exists e, sub. split; [reflexivity|]. split; [reflexivity|].
  pose proof (energy_against_nonneg s _ _ Hfirst). lra.
Qed.

(** The input [[0, 1, 3, 6]] with [k = 2]. *)
Lemma X22_brute_force_monotone_in_k_witness :
  exists e subset,
    Some (1 # 6) = Some e /\ Some [0; 3]%nat = Some subset /\ e <= 45 # 54.
Proof.
  apply (X22_brute_force_monotone_in_k [0; 1; 3; 6] 2%nat 1%Z (45 # 54)
           [0; 2; 3]%nat).
  - vm_compute. reflexivity.
  - vm_compute. reflexivity.
Defined.

(** ** When the 2-D brute force returns a result *)

Section BruteForce2dResult.

Variable sqrt : Q -> Q.
Variable points : list Pareto2d.point.
Variable s : Z.

Lemma brute_force_subset_selection_inf_or_fin (k : nat) :
  Pareto2d.brute_force_subset_selection sqrt points k s = (Inf, None)
  \/ exists e subset,
       Pareto2d.brute_force_subset_selection sqrt points k s
       = (Fin e, Some subset).
Proof.
  pose proof (brute_force_subset_selection_first_min sqrt points k s) as Hmin.
  destruct (Pareto2d.brute_force_subset_selection sqrt points k s)
    as [energy best].
  unfold finite_part in Hmin. simpl in Hmin.
  destruct Hmin as [(Hst & _)|(e & v & _ & _ & _ & Hst & _)].
  - left. destruct energy; congruence.
  - right. destruct energy as [e0|]; [|discriminate].
    injection Hst as -> ->. eauto.
Qed.

End BruteForce2dResult.

(** ** 2-D energies under a non-negative square root *)

Section NonNegativeSqrt.

Variable sqrt : Q -> Q.
Hypothesis sqrt_nonneg : forall a, 0 <= sqrt a.
Variable s : Z.

Lemma euclidean_distance_positive (p q : Pareto2d.point) :
  ~ Pareto2d.euclidean_distance sqrt p q == 0 ->
  0 < Pareto2d.euclidean_distance sqrt p q.
Proof.
  intros Hnz. unfold Pareto2d.euclidean_distance in *.
  destruct (Qle_lt_or_eq _ _ (sqrt_nonneg ((fst p - fst q) ^ 2
                                           + (snd p - snd q) ^ 2)))
    as [H|H]; [assumption|].
  exfalso. apply Hnz. symmetry. exact H.
Qed.



End NonNegativeSqrt.






(** ** Pairs on non-decreasing coordinates *)

Section Pairs.

Variable x : list Q.
Variable s : Z.




Hypothesis x_sorted : StronglySorted Qle x.



End Pairs.



(** ** Pairs in two dimensions *)

Section Pairs2d.

Variable sqrt : Q -> Q.
Variable points : list Pareto2d.point.
Variable s : Z.

Lemma base_case2_row1 (k : nat) :
  (1 <= k)%nat ->
  exists dp : Pareto2d.table,
    for_each (range 0 (length points))
      (fun i dp => setitem2 dp 1 i (Some (Fin 0, Some [i])))
      (repeat (repeat None (length points)) (k + 1)) = Ok dp
    /\ table_shape (length points) (k + 1) dp
    /\ forall i, (i < length points)%nat ->
         lookup2 dp 1 i = Some (Some (Fin 0, Some [i])).
Proof.
  intros Hk.
  apply for_each_range_total
    with (Inv := fun (j : nat) (dp0 : Pareto2d.table) =>
                   table_shape (length points) (k + 1) dp0
                   /\ forall i, (i < j)%nat ->
                        lookup2 dp0 1 i = Some (Some (Fin 0, Some [i])));
    [lia| |].
  - split; [apply table_shape_init|]. intros; lia.
  - intros i dp0 Hi (H1 & H3).
    destruct (setitem2_total (length points) (k + 1) dp0 1 i
                (Some (Fin 0, Some [i])) H1)
      as (dp1 & Hset & Hshape1 & Hl); [lia|lia|].
    exists dp1. split; [assumption|]. split; [assumption|].
    intros i' Hi'. rewrite Hl. simpl.
    destruct (Nat.eq_dec i' i) as [->|]; [reflexivity|]. apply H3. lia.
Qed.

(** The final scan of the 2-D DP cannot fault on a table of the right
    shape: comparing with [float('inf')] is always defined. *)
Lemma final_scan2_total (k : nat) (dp : Pareto2d.table) :
  (1 <= k)%nat -> table_shape (length points) (k + 1) dp ->
  exists c, Pareto2d.final_scan dp k (length points) = Ok c.
Proof.
  intros Hk Hshape. unfold Pareto2d.final_scan.
  replace (Z.of_nat k - 1)%Z with (Z.of_nat (k - 1)) by lia.
  rewrite zrange_of_nat, for_each_map.
  destruct (Nat.le_gt_cases (k - 1) (length points)) as [Hn|Hn].
  - assert (Hloop : exists c,
               for_each (range (k - 1) (length points))
                 (fun i => Pareto2d.step_final dp k (Z.of_nat i)) (Inf, None)
               = Ok c /\ True).
    { apply for_each_range_total with (Inv := fun _ _ => True);
        [assumption|exact I|].
      intros i st0 Hi _.
      destruct (table_shape_lookup2 (length points) (k + 1) dp k i Hshape)
        as (row & entry & Hrow & _ & Hentry); [lia|lia|].
      unfold Pareto2d.step_final. unfold getitem at 1. rewrite Hrow.
      cbn [bind]. rewrite getitem_z_of_nat. unfold getitem. rewrite Hentry.
      cbn [bind]. destruct entry as [[energy subset]|]; [|eauto].
      destruct (xltb energy (fst st0)); eauto. }
    destruct Hloop as (c & Hc & _). eauto.
  - unfold range. replace (length points - (k - 1))%nat with 0%nat by lia.
    simpl. eauto.
Qed.

Lemma step_p2_pair_total (dp : Pareto2d.table) (i p : nat)
  (st : Pareto2d.cell) :
  lookup2 dp 1 p = Some (Some (Fin 0, Some [p])) ->
  (p < length points)%nat -> (i < length points)%nat ->
  exists st', Pareto2d.step_p sqrt dp points s 2 i p st = Ok st'.
Proof.
  intros Hl Hp Hi. unfold lookup2 in Hl.
  destruct (nth_error dp 1) as [row|] eqn:Er; [|discriminate].
  unfold Pareto2d.step_p, Pareto2d.extend. change (2 - 1)%nat with 1%nat.
  unfold getitem at 1. rewrite Er. cbn [bind].
  unfold getitem at 1. rewrite Hl. cbn [bind].
  destruct (extra_cost_loop2_in_range sqrt points s i Hi [p] 0) as (ec & ->);
    [repeat constructor; assumption|].
  cbn [bind]. destruct (xltb _ (fst st)); eauto.
Qed.

Lemma dp_table2_pairs_total (k : nat) :
  (1 <= k <= 2)%nat ->
  exists dp,
    Pareto2d.dp_table sqrt points k s = Ok dp
    /\ table_shape (length points) (k + 1) dp.
Proof.
  intros Hk. unfold Pareto2d.dp_table.
  destruct (base_case2_row1 k) as (dp1 & -> & Hshape & Hrow1); [lia|].
  cbn [bind].
  assert (Hloop : exists dp,
             for_each (range 2 (k + 1))
               (Pareto2d.fill_row sqrt points s (length points)) dp1 = Ok dp
             /\ (table_shape (length points) (k + 1) dp
                 /\ forall p, (p < length points)%nat ->
                      lookup2 dp 1 p = Some (Some (Fin 0, Some [p])))).
  { apply for_each_range_total
      with (Inv := fun (_ : nat) (dp0 : Pareto2d.table) =>
                     table_shape (length points) (k + 1) dp0
                     /\ forall p, (p < length points)%nat ->
                          lookup2 dp0 1 p = Some (Some (Fin 0, Some [p])));
      [lia|split; assumption|].
    intros r dp0 Hr (Hs0 & Hr0). assert (r = 2)%nat by lia. subst r.
    unfold Pareto2d.fill_row. change (2 - 1)%nat with 1%nat.
    destruct (Nat.le_gt_cases 1 (length points)) as [Hn|Hn].
    - apply for_each_range_total
        with (Inv := fun (_ : nat) (dp2 : Pareto2d.table) =>
                       table_shape (length points) (k + 1) dp2
                       /\ forall p, (p < length points)%nat ->
                            lookup2 dp2 1 p = Some (Some (Fin 0, Some [p])));
        [assumption|split; assumption|].
      intros i dp2 Hi (Hs2 & Hr2).
      assert (Hbest : exists c,
                 for_each (range (2 - 2) i)
                   (Pareto2d.step_p sqrt dp2 points s 2 i) (Inf, None) = Ok c
                 /\ True).
      { apply for_each_range_total with (Inv := fun _ _ => True);
          [lia|exact I|].
        intros p st0 Hp _.
        destruct (step_p2_pair_total dp2 i p st0 (Hr2 p ltac:(lia)))
          as (st' & ->); [lia|lia|]. eauto. }
      destruct Hbest as (c & Hc & _).
      destruct (setitem2_total (length points) (k + 1) dp2 2 i (Some c) Hs2)
        as (dp3 & Hset & Hs3 & Hl); [lia|lia|].
      exists dp3. unfold Pareto2d.fill_cell. rewrite Hc. cbn [bind].
      split; [assumption|]. split; [assumption|].
      intros p Hp. rewrite Hl.
      destruct (Nat.eq_dec 1 2); [lia|]. now apply Hr2.
    - exists dp0. unfold range.
      replace (length points - 1)%nat with 0%nat by lia.
      split; [reflexivity|]. split; assumption. }
  destruct Hloop as (dp & Hdp & Hs & _). eauto.
Qed.

End Pairs2d.

(** X27.  For [k = 1] and [k = 2] the 2-D DP raises neither TypeError
    nor IndexError, on any points in any order, coinciding points
    included: the only subsets it iterates over are those of row 1. *)
Theorem X27_pairs_no_type_error_2d :
  forall (sqrt : Q -> Q) (points : list Pareto2d.point) (k : nat) (s : Z),
    (1 <= k <= 2)%nat ->
    Pareto2d.dp_subset_selection sqrt points k s <> Raise TypeError
    /\ Pareto2d.dp_subset_selection sqrt points k s <> Raise IndexError.
Proof.
  intros sqrt points k s Hk.
  destruct (dp_table2_pairs_total sqrt points s k Hk) as (dp & Hdp & Hshape).
  unfold Pareto2d.dp_subset_selection. rewrite Hdp. cbn [bind].
  destruct (final_scan2_total points k dp) as (c & ->); [lia|assumption|].
  split; discriminate.
Qed.

(** The points [(0,0), (0,0), (1,0)] with [k = 2]. *)
Lemma X27_pairs_no_type_error_2d_witness :
  Pareto2d.dp_subset_selection sqrt_sq [(0, 0); (0, 0); (1, 0)] 2 1
  <> Raise TypeError
  /\ Pareto2d.dp_subset_selection sqrt_sq [(0, 0); (0, 0); (1, 0)] 2 1
     <> Raise IndexError.
Proof.
  apply (X27_pairs_no_type_error_2d sqrt_sq [(0, 0); (0, 0); (1, 0)] 2%nat
           1%Z).
  lia.
Defined.

(** * The 1-D solvers over the numbers of the interpreter *)

(** ** Loops whose body can fault *)

Lemma outcome_impl {St : Type} (good good' : St -> Prop) (bad : exn -> Prop)
  (c : result St) :
  (forall st, good st -> good' st) -> outcome good bad c -> outcome good' bad c.
Proof.
  intros H. destruct c; simpl; auto.
Qed.

Lemma for_each_range_outcome {St : Type} (Inv : nat -> St -> Prop)
  (bad : exn -> Prop) (body : nat -> St -> result St) (a : nat) :
  forall (b : nat) (st : St),
    (a <= b)%nat -> Inv a st ->
    (forall i st0, (a <= i < b)%nat -> Inv i st0 ->
                   outcome (Inv (S i)) bad (body i st0)) ->
    outcome (Inv b) bad (for_each (range a b) body st).
Proof.
  induction b as [|b IH]; intros st Hab Ha Hbody.
  - assert (a = 0)%nat by lia. subst a. exact Ha.
  - destruct (Nat.eq_dec a (S b)) as [->|Hne].
    + unfold range. rewrite Nat.sub_diag. exact Ha.
    + rewrite range_snoc by lia. rewrite for_each_app.
      assert (Hpre : outcome (Inv b) bad (for_each (range a b) body st)).
      { apply IH; [lia|assumption|]. intros i st0 Hi. apply Hbody. lia. }
      destruct (for_each (range a b) body st) as [st1|e]; simpl in *;
        [|assumption].
      specialize (Hbody b st1 ltac:(lia) Hpre).
      destruct (body b st1); simpl in *; assumption.
Qed.

Lemma for_each_outcome {I St : Type} (Inv : St -> Prop) (bad : exn -> Prop)
  (body : I -> St -> result St) :
  forall (l : list I) (st : St),
    Inv st ->
    (forall i st0, In i l -> Inv st0 -> outcome Inv bad (body i st0)) ->
    outcome Inv bad (for_each l body st).
Proof.
  induction l as [|i l IH]; simpl; intros st Hst Hbody; [assumption|].
  pose proof (Hbody i st (or_introl eq_refl) Hst) as H.
  destruct (body i st) as [st1|e]; simpl in *; [|assumption].
  apply IH; auto.
Qed.

(** ** Stored subsets are chains *)

Module NumericFacts.
Import Numeric.

Section Sound.

Variable A : arithmetic.

Lemma numeric_extend_candidate_inv (dp : table A) (x : list (coordinate A))
  (s : exponent A) (r i p : nat) (candidate : energy A) (subset' : list nat) :
  extend A dp x s r i p = Ok (Candidate A candidate subset') ->
  exists prev_energy subset,
    lookup2 dp (r - 1) p = Some (Some (Some prev_energy, Some subset))
    /\ subset' = subset ++ [i].
Proof.
  unfold extend. intros H. inv_bind H. inv_bind H.
  pose proof (getitem2_lookup2 _ _ _ _ _ Ha Ha0) as Hl.
  destruct a0 as [[prev_energy [subset|]]|]; try discriminate.
  inv_bind H. destruct a0 as [extra_cost|]; [|discriminate].
  destruct prev_energy as [prev_energy|]; [|discriminate].
  injection H as _ <-. eauto.
Qed.

Lemma numeric_step_p_chain (n : nat) (dp : table A) (x : list (coordinate A))
  (s : exponent A) (r i p : nat) (st st' : cell A) :
  table_sound n dp -> (1 <= r)%nat -> (p < i)%nat ->
  (forall subset, snd st = Some subset -> chain r i subset) ->
  step_p A dp x s r i p st = Ok st' ->
  forall subset, snd st' = Some subset -> chain r i subset.
Proof.
  intros Hdp Hr Hp Hst H. unfold step_p in H. inv_bind H.
  destruct a as [| |candidate subset'].
  - injection H as <-. assumption.
  - injection H as <-. assumption.
  - destruct (improves A candidate (fst st)); injection H as <-; [|assumption].
    apply numeric_extend_candidate_inv in Ha.
    destruct Ha as (pe & sub & Hl & ->).
    apply Hdp in Hl. destruct Hl as (Hchain & _).
    simpl. intros subset [= <-].
    replace r with (S (r - 1)) by lia. eapply chain_snoc; eauto.
Qed.

Lemma numeric_fill_cell_sound (n : nat) (x : list (coordinate A)) (s : exponent A)
  (r i : nat) (dp dp' : table A) :
  table_sound n dp -> (1 <= r)%nat -> (i < n)%nat ->
  fill_cell A x s r i dp = Ok dp' -> table_sound n dp'.
Proof.
  intros Hdp Hr Hi H. unfold fill_cell in H. inv_bind H.
  eapply table_sound_setitem2; [exact Hdp| |exact H].
  intros subset Hs. split; [|assumption]. revert subset Hs.
  eapply (for_each_inv (fun st => forall subset, snd st = Some subset ->
                                  chain r i subset)); [| |exact Ha].
  - intros p st0 st1 Hin. apply in_range in Hin.
    eapply numeric_step_p_chain; eauto. lia.
  - simpl. discriminate.
Qed.

(** The base case fills row 1 and cannot fault. *)
Lemma numeric_base_case_total (n k : nat) :
  (1 <= k)%nat ->
  exists dp : table A,
    base_case A n k = Ok dp
    /\ table_shape n (k + 1) dp
    /\ table_sound n dp
    /\ (forall i, (i < n)%nat ->
          lookup2 dp 1 i = Some (Some (Some (zero A), Some [i]))).
Proof.
  intros Hk. unfold base_case.
  apply for_each_range_total
    with (Inv := fun j (dp0 : table A) =>
                 table_shape n (k + 1) dp0 /\ table_sound n dp0
                 /\ (forall i, (i < j)%nat ->
                       lookup2 dp0 1 i
                       = Some (Some (Some (zero A), Some [i]))));
    [lia| |].
  - split; [apply table_shape_init|]. split; [apply table_sound_init|].
    intros; lia.
  - intros i dp0 Hi (H1 & H2 & H3).
    destruct (setitem2_total n (k + 1) dp0 1 i
                (Some (Some (zero A), Some [i])) H1)
      as (dp1 & Hset & Hshape1 & Hl); [lia|lia|].
    exists dp1. split; [assumption|]. split; [assumption|]. split.
    + eapply table_sound_setitem2; [exact H2| |exact Hset].
      simpl. intros subset [= <-]. split; [|lia].
      repeat split; repeat constructor.
    + intros i' Hi'. rewrite Hl. simpl.
      destruct (Nat.eq_dec i' i) as [->|]; [reflexivity|]. apply H3. lia.
Qed.

(** The run of [dp_table] passes through [table_at_cell x k s r i] and
    calls [fill_cell] on it. *)
Lemma numeric_dp_table_through_cell (x : list (coordinate A)) (s : exponent A)
  (k r i : nat) :
  (2 <= r <= k)%nat -> (r - 1 <= i < length x)%nat ->
  dp_table A x k s
  = (dp <- table_at_cell A x k s r i ;;
     dp <- fill_cell A x s r i dp ;;
     dp <- for_each (range (S i) (length x)) (fill_cell A x s r) dp ;;
     for_each (range (S r) (k + 1)) (fill_row A x s (length x)) dp).
Proof.
  intros Hr Hi. unfold dp_table, table_at_cell, table_at_row.
  assert (Hrows : range 2 (k + 1) = range 2 r ++ r :: range (S r) (k + 1)).
  { unfold range. replace (k + 1 - 2)%nat with ((r - 2) + S (k + 1 - S r))%nat
      by lia.
    rewrite seq_app. simpl. repeat f_equal; lia. }
  assert (Hcols : range (r - 1) (length x)
                  = range (r - 1) i ++ i :: range (S i) (length x)).
  { unfold range.
    replace (length x - (r - 1))%nat
      with ((i - (r - 1)) + S (length x - S i))%nat by lia.
    rewrite seq_app. simpl. repeat f_equal; lia. }
  cbv zeta.
  destruct (base_case A (length x) k) as [dp0|e]; cbn [bind];
    [|reflexivity].
  rewrite Hrows, for_each_app.
  destruct (for_each (range 2 r) (fill_row A x s (length x)) dp0) as [dp1|e];
    cbn [bind]; [|reflexivity].
  cbn [for_each]. unfold fill_row at 1. rewrite Hcols, for_each_app.
  destruct (for_each (range (r - 1) i) (fill_cell A x s r) dp1) as [dp2|e];
    cbn [bind]; [|reflexivity].
  cbn [for_each].
  destruct (fill_cell A x s r i dp2) as [dp3|e]; cbn [bind]; reflexivity.
Qed.

Lemma numeric_final_scan_nat (dp : table A) (k n : nat) :
  (1 <= k)%nat ->
  final_scan A dp k n
  = for_each (range (k - 1) n) (fun i => step_final A dp k (Z.of_nat i))
      (None, None).
Proof.
  intros Hk. unfold final_scan.
  replace (Z.of_nat k - 1)%Z with (Z.of_nat (k - 1)) by lia.
  rewrite zrange_of_nat. apply for_each_map.
Qed.

Lemma numeric_step_final_present (dp : table A) (k i : nat) (st : cell A)
  (e : energy A) (subset : list nat) :
  lookup2 dp k i = Some (Some (Some e, Some subset)) ->
  step_final A dp k (Z.of_nat i) st
  = Ok (match fst st with
        | None => (Some e, Some subset)
        | Some best_final =>
            if less A e best_final then (Some e, Some subset) else st
        end).
Proof.
  unfold lookup2, step_final. intros Hl.
  destruct (nth_error dp k) as [row|] eqn:Er; [|discriminate].
  unfold getitem at 1. rewrite Er. simpl.
  rewrite getitem_z_of_nat. unfold getitem. rewrite Hl. simpl.
  destruct (fst st) as [b|]; [|reflexivity].
  destruct (less A e b); reflexivity.
Qed.

(** The final scan does no arithmetic: on complete rows it returns a
    present result. *)
Lemma numeric_final_scan_total (dp : table A) (k n : nat) :
  rows_complete A n k dp -> (1 <= k <= n)%nat ->
  exists c, final_scan A dp k n = Ok c /\ present A c.
Proof.
  intros Hrows Hk. rewrite numeric_final_scan_nat by lia.
  assert (Hloop : exists c,
             for_each (range (k - 1) n)
               (fun i => step_final A dp k (Z.of_nat i)) (None, None) = Ok c
             /\ ((n = k - 1 /\ c = (None, None))%nat \/ present A c)).
  { apply for_each_range_total
      with (Inv := fun j st => (j = k - 1 /\ st = (None, None))%nat
                               \/ present A st);
      [lia|auto|].
    intros i st0 Hi Hst0.
    destruct (Hrows k i) as (c & Hl & e & sub & ->); [lia|lia|].
    rewrite (numeric_step_final_present dp k i st0 e sub Hl).
    eexists. split; [reflexivity|]. right.
    destruct Hst0 as [(_ & ->)|Hpres]; simpl; [red; eauto|].
    destruct Hpres as (e0 & sub0 & ->). simpl.
    destruct (less A e e0); red; eauto. }
  destruct Hloop as (c & Hc & [(Habs & _)|Hpres]); [lia|eauto].
Qed.

End Sound.

(** ** Positive gaps: a present result or the fault of a pair energy *)

Section PositiveGaps.

Variable A : arithmetic.
Variable x : list (coordinate A).
Variable s : exponent A.
Hypothesis x_gaps : gaps_positive A x.

Lemma extra_cost_loop_outcome (i : nat) :
  (i < length x)%nat ->
  forall (subset : list nat) (extra_cost : energy A),
    Forall (fun q => q < i)%nat subset ->
    outcome (fun r => exists ec, r = Some ec) (pair_fault A x s)
      (extra_cost_loop A x s i subset extra_cost).
Proof.
  intros Hi. induction subset as [|q rest IH]; intros extra_cost HF.
  - simpl. eauto.
  - inversion HF as [|? ? Hq Hrest]; subst.
    destruct (nth_error x i) as [xi|] eqn:Ei;
      [|apply nth_error_None in Ei; lia].
    destruct (nth_error x q) as [xq|] eqn:Eq;
      [|apply nth_error_None in Eq; lia].
    cbn [extra_cost_loop]. unfold getitem. rewrite Ei, Eq. cbn [bind].
    destruct (x_gaps q i xq xi Hq Eq Ei) as (gap & Hgap & Hpos).
    rewrite Hgap. cbn [bind]. rewrite Hpos.
    destruct (inverse_power A gap s) as [t|e] eqn:Et; cbn [bind].
    + apply IH. assumption.
    + simpl. exists q, i, xq, xi, gap. auto.
Qed.

(** With a present entry at [(r-1, p)] the extension is a candidate or
    the fault of a pair energy: neither [continue] branch is taken, and
    no TypeError is raised. *)
Lemma extend_outcome (dp : table A) (r i p : nat) (c : cell A) :
  table_sound (length x) dp ->
  lookup2 dp (r - 1) p = Some (Some c) -> present A c ->
  (p < i < length x)%nat ->
  outcome (fun e => exists candidate subset, e = Candidate A candidate subset)
    (pair_fault A x s) (extend A dp x s r i p).
Proof.
  intros Hsound Hl (e & sub & ->) Hpi.
  destruct (Hsound _ _ _ _ Hl) as ((_ & _ & Hb) & _).
  pose proof (extra_cost_loop_outcome i (proj2 Hpi) sub (zero A)) as Hec.
  unfold lookup2 in Hl. destruct (nth_error dp (r - 1)) as [row|] eqn:Er;
    [|discriminate].
  unfold extend, getitem. rewrite Er. cbn [bind]. rewrite Hl. cbn [bind].
  destruct (extra_cost_loop A x s i sub (zero A)) as [ec|err]; cbn [bind].
  - destruct Hec as (ec0 & ->).
    { eapply Forall_impl; [|exact Hb]. simpl. intros; lia. }
    simpl. eauto.
  - simpl. apply Hec. eapply Forall_impl; [|exact Hb]. simpl. intros; lia.
Qed.

Lemma best_loop_outcome (dp : table A) (r i : nat) :
  table_sound (length x) dp -> rows_complete A (length x) (r - 1) dp ->
  (2 <= r)%nat -> (r - 1 <= i < length x)%nat ->
  outcome (present A) (pair_fault A x s)
    (for_each (range (r - 2) i) (step_p A dp x s r i) (None, None)).
Proof.
  intros Hsound Hrows Hr Hi.
  apply outcome_impl
    with (good := fun st => (i = r - 2 /\ st = (None, None))%nat
                            \/ present A st).
  { intros st [(Habs & _)|Hpres]; [lia|assumption]. }
  apply for_each_range_outcome
    with (Inv := fun j st => (j = r - 2 /\ st = (None, None))%nat
                             \/ present A st);
    [lia|auto|].
  intros p st0 Hp Hst0.
  destruct (Hrows (r - 1)%nat p) as (c & Hl & Hpres); [lia|lia|].
  pose proof (extend_outcome dp r i p c Hsound Hl Hpres ltac:(lia)) as He.
  unfold step_p.
  destruct (extend A dp x s r i p) as [ext|err]; cbn [bind]; simpl in *;
    [|assumption].
  destruct He as (cand & sub & ->).
  destruct (improves A cand (fst st0)) eqn:Eimp; simpl.
  - right. red. eauto.
  - right. destruct Hst0 as [(_ & ->)|Hpres0]; [discriminate|assumption].
Qed.

Lemma fill_cell_outcome (k : nat) (dp : table A) (r i : nat) :
  table_shape (length x) (k + 1) dp ->
  table_sound (length x) dp -> rows_complete A (length x) (r - 1) dp ->
  (2 <= r <= k)%nat -> (r - 1 <= i < length x)%nat ->
  outcome
    (fun dp' =>
       exists c,
         present A c
         /\ table_shape (length x) (k + 1) dp'
         /\ table_sound (length x) dp'
         /\ forall r' i', lookup2 dp' r' i'
              = if Nat.eq_dec r' r
                then if Nat.eq_dec i' i then Some (Some c)
                     else lookup2 dp r' i'
                else lookup2 dp r' i')
    (pair_fault A x s) (fill_cell A x s r i dp).
Proof.
  intros Hshape Hsound Hrows Hr Hi.
  pose proof (best_loop_outcome dp r i Hsound Hrows ltac:(lia) Hi) as Hbest.
  destruct (for_each (range (r - 2) i) (step_p A dp x s r i) (None, None))
    as [c|err] eqn:Hc; simpl in Hbest.
  - destruct (setitem2_total (length x) (k + 1) dp r i (Some c) Hshape)
      as (dp' & Hset & Hshape' & Hl); [lia|lia|].
    assert (Hfill : fill_cell A x s r i dp = Ok dp')
      by (unfold fill_cell; rewrite Hc; exact Hset).
    rewrite Hfill. simpl. exists c. split; [assumption|].
    split; [assumption|]. split; [|assumption].
    eapply numeric_fill_cell_sound; [exact Hsound| | |exact Hfill]; lia.
  - unfold fill_cell. rewrite Hc. simpl. assumption.
Qed.

Lemma fill_row_prefix_outcome (k : nat) (dp : table A) (r j : nat) :
  table_shape (length x) (k + 1) dp ->
  table_sound (length x) dp -> rows_complete A (length x) (r - 1) dp ->
  (2 <= r <= k)%nat -> (r - 1 <= j <= length x)%nat ->
  outcome
    (fun dp' =>
       table_shape (length x) (k + 1) dp'
       /\ table_sound (length x) dp'
       /\ rows_complete A (length x) (r - 1) dp'
       /\ forall i, (r - 1 <= i < j)%nat ->
            exists c, lookup2 dp' r i = Some (Some c) /\ present A c)
    (pair_fault A x s)
    (for_each (range (r - 1) j) (fill_cell A x s r) dp).
Proof.
  intros Hshape Hsound Hrows Hr Hj.
  set (n := length x) in *.
  apply for_each_range_outcome
    with (Inv := fun j dp0 =>
                   table_shape n (k + 1) dp0 /\ table_sound n dp0
                   /\ rows_complete A n (r - 1) dp0
                   /\ forall i, (r - 1 <= i < j)%nat ->
                        exists c, lookup2 dp0 r i = Some (Some c)
                                  /\ present A c);
    [lia| |].
  - split; [assumption|]. split; [assumption|]. split; [assumption|].
    intros i Hi. lia.
  - intros i dp0 Hi (H1 & H2 & H3 & H4).
    pose proof (fill_cell_outcome k dp0 r i H1 H2 H3 Hr ltac:(fold n; lia))
      as Hfill.
    destruct (fill_cell A x s r i dp0) as [dp1|err]; simpl in *;
      [|assumption].
    destruct Hfill as (c & Hpres & Hshape1 & Hsound1 & Hl).
    split; [assumption|]. split; [assumption|]. split.
    + intros r' i' Hr' Hi'. rewrite Hl.
      destruct (Nat.eq_dec r' r); [lia|]. apply H3; assumption.
    + intros i' Hi'. rewrite Hl.
      destruct (Nat.eq_dec r r); [|congruence].
      destruct (Nat.eq_dec i' i); [eauto|]. apply H4. lia.
Qed.

Lemma fill_row_outcome (k : nat) (dp : table A) (r : nat) :
  table_shape (length x) (k + 1) dp ->
  table_sound (length x) dp -> rows_complete A (length x) (r - 1) dp ->
  (2 <= r <= k)%nat ->
  outcome
    (fun dp' =>
       table_shape (length x) (k + 1) dp'
       /\ table_sound (length x) dp'
       /\ rows_complete A (length x) r dp')
    (pair_fault A x s) (fill_row A x s (length x) r dp).
Proof.
  intros Hshape Hsound Hrows Hr. unfold fill_row.
  set (n := length x) in *.
  destruct (Nat.le_gt_cases (r - 1) n) as [Hle|Hgt].
  - pose proof (fill_row_prefix_outcome k dp r n Hshape Hsound Hrows Hr
                  ltac:(fold n; lia)) as Hrun.
    fold n in Hrun.
    destruct (for_each (range (r - 1) n) (fill_cell A x s r) dp)
      as [dp'|err]; simpl in *; [|assumption].
    destruct Hrun as (Hs1 & Hs2 & Hs3 & Hs4).
    split; [assumption|]. split; [assumption|].
    intros r' i' Hr' Hi'.
    destruct (Nat.eq_dec r' r) as [->|]; [apply Hs4; lia|].
    apply Hs3; lia.
  - unfold range. replace (n - (r - 1))%nat with 0%nat by lia. simpl.
    split; [assumption|]. split; [assumption|].
    intros r' i' Hr' Hi'.
    destruct (Nat.eq_dec r' r) as [->|]; [lia|]. apply Hrows; lia.
Qed.

Lemma table_at_row_outcome (k r : nat) :
  (1 <= k)%nat -> (2 <= r <= k + 1)%nat ->
  outcome
    (fun dp =>
       table_shape (length x) (k + 1) dp
       /\ table_sound (length x) dp
       /\ rows_complete A (length x) (r - 1) dp)
    (pair_fault A x s) (table_at_row A x k s r).
Proof.
  intros Hk Hr. unfold table_at_row.
  destruct (numeric_base_case_total A (length x) k Hk)
    as (dp1 & -> & Hshape & Hsound & Hrow1).
  cbn [bind].
  apply for_each_range_outcome
    with (Inv := fun r dp0 =>
                   table_shape (length x) (k + 1) dp0
                   /\ table_sound (length x) dp0
                   /\ rows_complete A (length x) (r - 1) dp0);
    [lia| |].
  - split; [assumption|]. split; [assumption|].
    intros r' i Hr' Hi. assert (r' = 1)%nat by lia. subst r'.
    rewrite Hrow1 by lia. eexists. split; [reflexivity|]. red. eauto.
  - intros r0 dp0 Hr0 (H1 & H2 & H3).
    replace (S r0 - 1)%nat with r0 by lia.
    apply fill_row_outcome; auto. lia.
Qed.

Lemma dp_table_outcome (k : nat) :
  (1 <= k)%nat ->
  outcome
    (fun dp =>
       table_shape (length x) (k + 1) dp
       /\ table_sound (length x) dp
       /\ rows_complete A (length x) k dp)
    (pair_fault A x s) (dp_table A x k s).
Proof.
  intros Hk.
  pose proof (table_at_row_outcome k (k + 1) Hk ltac:(lia)) as H.
  replace (k + 1 - 1)%nat with k in H by lia. exact H.
Qed.

(** The table on which the extensions for [(r, i)] are computed is sound
    and complete up to row [r - 1]. *)
Lemma table_at_cell_outcome (k r i : nat) :
  (1 <= k)%nat -> (2 <= r <= k)%nat -> (r - 1 <= i <= length x)%nat ->
  outcome
    (fun dp =>
       table_sound (length x) dp /\ rows_complete A (length x) (r - 1) dp)
    (pair_fault A x s) (table_at_cell A x k s r i).
Proof.
  intros Hk Hr Hi. unfold table_at_cell.
  pose proof (table_at_row_outcome k r Hk ltac:(lia)) as Hrow.
  destruct (table_at_row A x k s r) as [dp0|err]; cbn [bind]; simpl in Hrow;
    [|assumption].
  destruct Hrow as (H1 & H2 & H3).
  pose proof (fill_row_prefix_outcome k dp0 r i H1 H2 H3 Hr Hi) as Hrun.
  destruct (for_each (range (r - 1) i) (fill_cell A x s r) dp0)
    as [dp|err]; simpl in *; [|assumption].
  destruct Hrun as (_ & Hsound & Hrows & _). auto.
Qed.

Lemma dp_subset_outcome (k : nat) :
  (1 <= k <= length x)%nat ->
  outcome (present A) (pair_fault A x s) (dp_subset A x k s).
Proof.
  intros Hk. unfold dp_subset.
  pose proof (dp_table_outcome k ltac:(lia)) as Htab.
  destruct (dp_table A x k s) as [dp|err]; cbn [bind]; simpl in Htab;
    [|assumption].
  destruct Htab as (_ & _ & Hrows).
  destruct (numeric_final_scan_total A dp k (length x) Hrows Hk) as (c & -> & Hpres).
  exact Hpres.
Qed.

(** *** The brute force *)

Lemma energy_inner_outcome (k : nat) (subset : list nat) (i : nat) :
  index_subset (length x) k subset -> (i < k)%nat ->
  forall (js : list nat) (e : energy A),
    Forall (fun j => i < j < k)%nat js ->
    outcome (fun r => exists e', r = Some e') (pair_fault A x s)
      (energy_inner A x s subset i js e).
Proof.
  intros (Hlen & Hsorted & Hbound) Hi.
  induction js as [|j js IH]; intros e HF.
  - simpl. eauto.
  - inversion HF as [|? ? Hj Hjs]; subst.
    destruct (nth_error subset j) as [sj|] eqn:Ej;
      [|apply nth_error_None in Ej; lia].
    destruct (nth_error subset i) as [si|] eqn:Ei;
      [|apply nth_error_None in Ei; lia].
    assert (Hsi : (si < sj)%nat)
      by (eapply (sorted_nth_error lt subset Hsorted i j); eauto; lia).
    rewrite Forall_forall in Hbound.
    assert (Hbj : (sj < length x)%nat)
      by (apply Hbound; eapply nth_error_In; eauto).
    destruct (nth_error x sj) as [xj|] eqn:Exj;
      [|apply nth_error_None in Exj; lia].
    destruct (nth_error x si) as [xi|] eqn:Exi;
      [|apply nth_error_None in Exi; lia].
    cbn [energy_inner]. unfold getitem.
    rewrite Ej. cbn [bind]. rewrite Exj. cbn [bind].
    rewrite Ei. cbn [bind]. rewrite Exi. cbn [bind].
    destruct (x_gaps si sj xi xj Hsi Exi Exj) as (gap & Hgap & Hpos).
    rewrite Hgap. cbn [bind]. rewrite Hpos.
    destruct (inverse_power A gap s) as [t|err] eqn:Et; cbn [bind].
    + apply IH. assumption.
    + simpl. exists si, sj, xi, xj, gap. auto.
Qed.

Lemma energy_outer_outcome (k : nat) (subset : list nat) :
  index_subset (length x) k subset ->
  forall (rows : list nat) (e : energy A),
    Forall (fun i => i < k)%nat rows ->
    outcome (fun r => exists e', r = Some e') (pair_fault A x s)
      (energy_outer A x s subset k rows e).
Proof.
  intros Hc. induction rows as [|i rows IH]; intros e HF.
  - simpl. eauto.
  - inversion HF as [|? ? Hi Hrows]; subst. cbn [energy_outer].
    pose proof (energy_inner_outcome k subset i Hc Hi (range (i + 1) k) e)
      as Hin.
    destruct (energy_inner A x s subset i (range (i + 1) k) e)
      as [r|err]; cbn [bind]; simpl in Hin.
    + destruct Hin as (e' & ->).
      { apply Forall_forall. intros j Hj. apply in_range in Hj. lia. }
      apply IH. assumption.
    + apply Hin. apply Forall_forall. intros j Hj. apply in_range in Hj. lia.
Qed.

Lemma step_subset_outcome (k : nat) (subset : list nat) (st : cell A) :
  index_subset (length x) k subset ->
  st = (None, None) \/ present A st ->
  outcome (present A) (pair_fault A x s) (step_subset A x k s subset st).
Proof.
  intros Hc Hst. unfold step_subset, subset_energy.
  pose proof (energy_outer_outcome k subset Hc (range 0 k) (zero A)) as He.
  destruct (energy_outer A x s subset k (range 0 k) (zero A)) as [r|err];
    cbn [bind]; simpl in He.
  - destruct He as (e & ->).
    { apply Forall_forall. intros i Hi. apply in_range in Hi. lia. }
    destruct (improves A e (fst st)) eqn:Eimp; simpl.
    + red. eauto.
    + destruct Hst as [->|Hpres]; [discriminate|assumption].
  - apply He. apply Forall_forall. intros i Hi. apply in_range in Hi. lia.
Qed.

Lemma brute_force_subset_outcome (k : nat) :
  (k <= length x)%nat ->
  outcome (present A) (pair_fault A x s) (brute_force_subset A x k s).
Proof.
  intros Hk. unfold brute_force_subset.
  assert (Hall : forall c, In c (combinations (range 0 (length x)) k) ->
                           index_subset (length x) k c)
    by (intros c; apply combinations_range_iff).
  assert (Hne : In (seq 0 k) (combinations (range 0 (length x)) k))
    by (apply combinations_range_iff, seq_index_subset; assumption).
  destruct (combinations (range 0 (length x)) k) as [|c0 l]; [destruct Hne|].
  cbn [for_each].
  pose proof (step_subset_outcome k c0 (None, None)
                (Hall c0 (or_introl eq_refl)) (or_introl eq_refl)) as H0.
  destruct (step_subset A x k s c0 (None, None)) as [st1|err]; cbn [bind];
    simpl in H0; [|assumption].
  apply for_each_outcome; [assumption|].
  intros c st0 Hin Hst0. apply step_subset_outcome; [|auto].
  apply Hall. right. assumption.
Qed.

End PositiveGaps.

End NumericFacts.

(** ** The two instances *)

Lemma exact_gaps_positive (x : list Q) :
  StronglySorted Qlt x -> Numeric.gaps_positive exact x.
Proof.
  intros Hx q i xq xi Hqi Hq Hi. exists (xi - xq). split; [reflexivity|].
  simpl. apply gap_positive. eapply sorted_nth_error_lt; eauto.
Qed.

Lemma exact_pairs_evaluate (x : list Q) (s : Z) :
  Numeric.pairs_evaluate exact x s.
Proof.
  intros q i xq xi gap _ _ _ _. simpl. eauto.
Qed.

Lemma python_int_gaps_positive (x : list Z) :
  StronglySorted Z.lt x -> Numeric.gaps_positive python_int x.
Proof.
  intros Hx q i xq xi Hqi Hq Hi. exists (xi - xq)%Z. split; [reflexivity|].
  simpl. apply Z.leb_gt.
  pose proof (sorted_nth_error Z.lt x Hx q i xq xi Hqi Hq Hi). lia.
Qed.

(** Over the rational arithmetic the DP of [Numeric] is the DP of
    [Dp1d]. *)
Lemma exact_extra_cost_loop (x : list Q) (s : Z) (i : nat) :
  forall (subset : list nat) (extra_cost : Q),
    Numeric.extra_cost_loop exact x s i subset extra_cost
    = Dp1d.extra_cost_loop x s i subset extra_cost.
Proof.
  induction subset as [|q rest IH]; intros extra_cost; simpl; [reflexivity|].
  destruct (getitem x i) as [xi|e]; simpl; [|reflexivity].
  destruct (getitem x q) as [xq|e]; simpl; [|reflexivity].
  destruct (Qle_bool (xi - xq) 0); [reflexivity|]. apply IH.
Qed.

Lemma exact_step_p (dp : Dp1d.table) (x : list Q) (s : Z) (r i p : nat)
  (st : Dp1d.cell) :
  Numeric.step_p exact dp x s r i p st = Dp1d.step_p dp x s r i p st.
Proof.
  unfold Numeric.step_p, Dp1d.step_p, Numeric.extend, Dp1d.extend.
  change (@getitem (list (option (Numeric.cell exact))) dp (r - 1))
    with (@getitem (list (option Dp1d.cell)) dp (r - 1)).
  destruct (@getitem (list (option Dp1d.cell)) dp (r - 1)) as [row|e];
    cbn [bind]; [|reflexivity].
  change (@getitem (option (Numeric.cell exact)) row p)
    with (@getitem (option Dp1d.cell) row p).
  destruct (@getitem (option Dp1d.cell) row p)
    as [[[prev_energy [subset|]]|]|e]; cbn [bind]; try reflexivity.
  rewrite exact_extra_cost_loop. change (zero exact) with 0.
  destruct (Dp1d.extra_cost_loop x s i subset 0) as [[ec|]|e]; cbn [bind];
    try reflexivity.
  destruct prev_energy; reflexivity.
Qed.

Lemma exact_fill_row (x : list Q) (s : Z) (n r : nat) (dp : Dp1d.table) :
  Numeric.fill_row exact x s n r dp = Dp1d.fill_row x s n r dp.
Proof.
  unfold Numeric.fill_row, Dp1d.fill_row. apply for_each_ext.
  intros i dp0 _. unfold Numeric.fill_cell, Dp1d.fill_cell.
  rewrite (for_each_ext (Numeric.step_p exact dp0 x s r i)
             (Dp1d.step_p dp0 x s r i)); [reflexivity|].
  intros p st _. apply exact_step_p.
Qed.

Lemma exact_dp_table (x : list Q) (k : nat) (s : Z) :
  Numeric.dp_table exact x k s = Dp1d.dp_table x k s.
Proof.
  change (Numeric.dp_table exact x k s)
    with (dp <- for_each (range 0 (length x))
                  (fun i (dp : Dp1d.table) =>
                     setitem2 dp 1 i (Some (Some 0, Some [i])))
                  (repeat (repeat None (length x)) (k + 1)) ;;
          for_each (range 2 (k + 1)) (Numeric.fill_row exact x s (length x))
            dp).
  unfold Dp1d.dp_table. cbv zeta.
  destruct (for_each (range 0 (length x)) _ _) as [dp0|e]; cbn [bind];
    [|reflexivity].
  apply for_each_ext. intros r dp _. apply exact_fill_row.
Qed.

Lemma exact_dp_subset (x : list Q) (k : nat) (s : Z) :
  Numeric.dp_subset exact x k s = Dp1d.dp_subset x k s.
Proof.
  unfold Numeric.dp_subset, Dp1d.dp_subset. rewrite exact_dp_table.
  reflexivity.
Qed.

(** Over the rational arithmetic the brute force of [Numeric] is the
    brute force of [Dp1d]: the indices of a combination are in range, so
    no lookup faults. *)
Lemma getitem_nth_default {A : Type} (d : A) (l : list A) (i : nat) :
  (i < length l)%nat -> getitem l i = Ok (nth i l d).
Proof.
  intros H. unfold getitem. now rewrite (nth_error_nth' l d H).
Qed.

Lemma exact_energy_inner (x : list Q) (s : Z) (subset : list nat) (i : nat) :
  Forall (fun q => q < length x)%nat subset -> (i < length subset)%nat ->
  forall (js : list nat) (e : Q),
    Forall (fun j => j < length subset)%nat js ->
    Numeric.energy_inner exact x s subset i js e
    = Ok (Dp1d.energy_inner x s subset i js e).
Proof.
  intros Hb Hi. induction js as [|j js IH]; intros e HF; [reflexivity|].
  inversion HF as [|? ? Hj Hjs]; subst.
  rewrite Forall_forall in Hb.
  assert (Hxj : (nth j subset 0 < length x)%nat) by (apply Hb, nth_In, Hj).
  assert (Hxi : (nth i subset 0 < length x)%nat) by (apply Hb, nth_In, Hi).
  cbn [Numeric.energy_inner Dp1d.energy_inner].
  change (coordinate exact) with Q.
  rewrite (getitem_nth_default 0%nat subset j Hj). cbn [bind].
  rewrite (getitem_nth_default 0 x _ Hxj). cbn [bind].
  rewrite (getitem_nth_default 0%nat subset i Hi). cbn [bind].
  rewrite (getitem_nth_default 0 x _ Hxi). cbn [bind].
  cbn [minus nonpositive inverse_power plus exact bind]. cbv zeta.
  destruct (Qle_bool (nth (nth j subset 0%nat) x 0
                      - nth (nth i subset 0%nat) x 0) 0);
    [reflexivity|].
  apply IH. assumption.
Qed.

Lemma exact_energy_outer (x : list Q) (s : Z) (subset : list nat) :
  Forall (fun q => q < length x)%nat subset ->
  forall (rows : list nat) (e : Q),
    Forall (fun i => i < length subset)%nat rows ->
    Numeric.energy_outer exact x s subset (length subset) rows e
    = Ok (Dp1d.energy_outer x s subset (length subset) rows e).
Proof.
  intros Hb. induction rows as [|i rows IH]; intros e HF; [reflexivity|].
  inversion HF as [|? ? Hi Hrows]; subst.
  cbn [Numeric.energy_outer Dp1d.energy_outer].
  rewrite (exact_energy_inner x s subset i Hb Hi)
    by (apply Forall_forall; intros j Hj; apply in_range in Hj; lia).
  cbn [bind].
  destruct (Dp1d.energy_inner x s subset i
              (range (i + 1) (length subset)) e); [|reflexivity].
  apply IH. assumption.
Qed.

Lemma exact_brute_force_subset (x : list Q) (k : nat) (s : Z) :
  Numeric.brute_force_subset exact x k s
  = Ok (Dp1d.brute_force_subset x k s).
Proof.
  unfold Numeric.brute_force_subset, Dp1d.brute_force_subset.
  apply (for_each_pure (Numeric.step_subset exact x k s)
           (Dp1d.step_subset x k s)).
  intros c st Hc. apply combinations_range_iff in Hc.
  destruct Hc as (Hlen & _ & Hb).
  unfold Numeric.step_subset, Dp1d.step_subset, Numeric.subset_energy,
    Dp1d.subset_energy.
  subst k. rewrite (exact_energy_outer x s c Hb)
    by (apply Forall_forall; intros i Hi; apply in_range in Hi; lia).
  cbn [bind]. change (zero exact) with 0.
  destruct (Dp1d.energy_outer x s c (length c) (range 0 (length c)) 0);
    [|reflexivity].
  destruct st as [[b|] best_subset];
    cbn [fst Numeric.improves Dp1d.improves less exact];
    [destruct (Qltb q b)|]; reflexivity.
Qed.

(** ** Distances of a subset with positive gaps *)

Lemma StronglySorted_weaken {A : Type} (R R' : A -> A -> Prop) (l : list A) :
  (forall a b, R a b -> R' a b) -> StronglySorted R l -> StronglySorted R' l.
Proof.
  intros H. induction 1 as [|a l Hl IH Ha]; constructor; auto.
  eapply Forall_impl; [|exact Ha]. auto.
Qed.

Lemma ForallOrdPairs_weaken {A : Type} (R R' : A -> A -> Prop) (l : list A) :
  (forall a b, R a b -> R' a b) -> ForallOrdPairs R l -> ForallOrdPairs R' l.
Proof.
  intros H. induction 1 as [|a l Ha Hl IH]; constructor; auto.
  eapply Forall_impl; [|exact Ha]. auto.
Qed.

Lemma positive_gaps_distances (pts : list Q) :
  positive_gaps pts -> positive_distances distance pts.
Proof.
  unfold positive_gaps, positive_distances.
  induction 1 as [|a later Hs IH Ha]; constructor; auto.
  eapply Forall_impl; [|exact Ha]. simpl. intros b Hb.
  rewrite distance_gap by lra. lra.
Qed.

(** ** The comparison of [run_example] *)

Lemma solutions_match_spec (dp_result bf_result : Pareto2d.cell) :
  Pareto2d.solutions_match dp_result bf_result = true
  <-> snd dp_result = snd bf_result
      /\ energies_within tolerance (fst dp_result) (fst bf_result).
Proof.
  destruct dp_result as [e1 s1], bf_result as [e2 s2].
  assert (H1 : subset_eqb s1 s2 = true <-> s1 = s2).
  { unfold subset_eqb. destruct s1 as [u|], s2 as [v|];
      try (split; [discriminate|congruence]); [|tauto].
    destruct (list_eq_dec Nat.eq_dec u v) as [->|Hne];
      split; intros H; try reflexivity; try discriminate; congruence. }
  assert (H2 : xclose e1 e2 = true <-> energies_within tolerance e1 e2).
  { unfold xclose, energies_within. destruct e1, e2;
      try (split; [discriminate|tauto]).
    apply Qltb_lt. }
  unfold Pareto2d.solutions_match. simpl.
  rewrite andb_true_iff, H1, H2. reflexivity.
Qed.

(** ** The absent result of the brute force *)

Lemma brute_force_loop_absent (A : arithmetic) (x : list (coordinate A))
  (k : nat) (s : exponent A) :
  forall (combos : list (list nat)) (st c : Numeric.cell A),
    st = (None, None) \/ Numeric.present A st ->
    for_each combos (Numeric.step_subset A x k s) st = Ok c ->
    (c = (None, None) \/ Numeric.present A c)
    /\ (c = (None, None) ->
        st = (None, None)
        /\ forall subset, In subset combos ->
             Numeric.subset_energy A x k s subset = Ok None).
Proof.
  induction combos as [|sub combos IH]; simpl; intros st c Hst H.
  - injection H as <-. split; [assumption|]. intros ->.
    split; [reflexivity|]. intros subset [].
  - unfold Numeric.step_subset in H at 1.
    destruct (Numeric.subset_energy A x k s sub) as [[e|]|err] eqn:He;
      simpl in H; try discriminate.
    + destruct (Numeric.improves A e (fst st)) eqn:Himp; simpl in H.
      * assert (Hnew : (Some e, Some sub) = (None, None)
                       \/ Numeric.present A (Some e, Some sub))
          by (right; exists e, sub; reflexivity).
        destruct (IH _ _ Hnew H) as (Hc & Habs). split; [assumption|].
        intros Hcn. destruct (Habs Hcn) as (Hcontra & _). discriminate.
      * destruct (IH _ _ Hst H) as (Hc & Habs). split; [assumption|].
        intros Hcn. destruct (Habs Hcn) as (Hs & _). subst st.
        simpl in Himp. discriminate.
    + destruct (IH _ _ Hst H) as (Hc & Habs). split; [assumption|].
      intros Hcn. destruct (Habs Hcn) as (Hs & Hall). split; [assumption|].
      intros subset [<-|Hin]; auto.
Qed.

(** X5.  What the 1-D brute force returns, over any arithmetic of the
    interpreter, has both components present or both [None].  When it
    returns the absent result [(None, None)], its validity loop has
    rejected every size-[k] combination: each one has a pair whose
    computed gap fails the test [gap <= 0].  And it returns the absent
    result whenever [k > n], where no combination is enumerated and no
    arithmetic is done. *)
Theorem X5_brute_force_absent_result :
  forall (A : arithmetic) (x : list (coordinate A)) (k : nat)
         (s : exponent A),
    (forall c, Numeric.brute_force_subset A x k s = Ok c ->
               c = (None, None) \/ Numeric.present A c)
    /\ (Numeric.brute_force_subset A x k s = Ok (None, None) ->
        forall subset, In subset (combinations (range 0 (length x)) k) ->
          Numeric.subset_energy A x k s subset = Ok None)
    /\ ((length x < k)%nat ->
        Numeric.brute_force_subset A x k s = Ok (None, None)).
Proof.
  intros A x k s. split; [|split].
  - intros c H. eapply brute_force_loop_absent; [|exact H]. auto.
  - intros H. eapply brute_force_loop_absent; [|exact H|reflexivity]. auto.
  - intros Hk. unfold Numeric.brute_force_subset.
    destruct (combinations (range 0 (length x)) k) as [|c l] eqn:Hc;
      [reflexivity|].
    assert (Hin : In c (combinations (range 0 (length x)) k))
      by (rewrite Hc; left; reflexivity).
    apply combinations_range_iff in Hin.
    destruct (index_subset_too_large (length x) k c Hk Hin).
Qed.

(** Python's arithmetic on the integers [[0, 1]] with [k = 3]. *)
Lemma X5_brute_force_absent_result_witness :
  Numeric.brute_force_subset python_int [0; 1]%Z 3 1%N = Ok (None, None).
Proof.
  apply (proj2 (proj2 (X5_brute_force_absent_result python_int [0; 1]%Z
                         3%nat 1%N))).
  simpl. lia.
Defined.

(** ** Summation order in binary64 *)

(** X28.  Under binary64 arithmetic the two algorithms can return the same
    subset with energies that differ in the last place, because they add the
    pair energies in different orders.  On the integer inputs [[0, 1, 10]]
    with [k = 3] and [s = 1] both return the subset [[0, 1, 2]];
    [dp_subset] returns the energy 5454359548704267 * 2^-52
    (1.211111111111111) and [brute_force_subset] returns
    5454359548704268 * 2^-52 (1.2111111111111112), so the brute-force energy
    is the larger of the two. *)
Theorem X28_summation_order_rounding :
  let e_dp := SpecFloat.S754_finite false 5454359548704267 (-52) in
  let e_bf := SpecFloat.S754_finite false 5454359548704268 (-52) in
  Numeric.dp_subset python_int [0; 1; 10]%Z 3 1%N
    = Ok (Some e_dp, Some [0; 1; 2]%nat)
  /\ Numeric.brute_force_subset python_int [0; 1; 10]%Z 3 1%N
     = Ok (Some e_bf, Some [0; 1; 2]%nat)
  /\ SpecFloat.SFltb e_dp e_bf = true.
Proof.
  cbv zeta. repeat split; vm_compute; reflexivity.
Qed.

(** * The claims *)

(** C1.  The brute-force result, when present, is the global optimum
    over the valid size-[k] index subsets, those whose pairwise distances
    are all positive: it is the energy of such a subset, the returned
    one, and no such subset has a smaller energy.  This holds for the 1-D
    solver on every non-decreasing sequence, the sorted input of the
    contract, and for the 2-D solver on every sequence, with a square
    root that is never negative. *)
Theorem C1_brute_force_optimal :
  (forall (x : list Q) (k : nat) (s : Z) (e : Q) (best : option (list nat)),
      StronglySorted Qle x ->
      Dp1d.brute_force_subset x k s = (Some e, best) ->
      (exists subset,
          best = Some subset
          /\ index_subset (length x) k subset
          /\ positive_distances distance (coords x subset)
          /\ e == riesz_energy_by distance s (coords x subset))
      /\ forall c,
           index_subset (length x) k c ->
           positive_distances distance (coords x c) ->
           e <= riesz_energy_by distance s (coords x c))
  /\ (forall (sqrt : Q -> Q) (points : list Pareto2d.point) (k : nat) (s : Z)
             (e : Q) (best : option (list nat)),
         (forall a, 0 <= sqrt a) ->
         Pareto2d.brute_force_subset_selection sqrt points k s = (Fin e, best) ->
         (exists subset,
             best = Some subset
             /\ index_subset (length points) k subset
             /\ positive_distances (Pareto2d.euclidean_distance sqrt)
                  (coords2 points subset)
             /\ e == riesz_energy_by (Pareto2d.euclidean_distance sqrt) s
                       (coords2 points subset))
         /\ forall c,
              index_subset (length points) k c ->
              positive_distances (Pareto2d.euclidean_distance sqrt)
                (coords2 points c) ->
              e <= riesz_energy_by (Pareto2d.euclidean_distance sqrt) s
                     (coords2 points c)).
Proof.
  split.
  - intros x k s e best Hx Hbf. split.
    + destruct (brute_force_subset_none_or_some x k s)
        as [Hnone|(e0 & subset & Hsome)]; [congruence|].
      assert (e0 = e /\ best = Some subset) as (-> & ->)
        by (split; congruence).
      pose proof (Dp1dFacts.brute_force_subset_sound x k s _ _ Hbf) as Hidx.
      destruct (brute_force_subset_exact x k s _ _ Hbf) as (Hgaps & He).
      exists subset. split; [reflexivity|]. split; [assumption|].
      split; [now apply positive_gaps_distances|].
      rewrite He. symmetry. apply riesz_energy_by_distance.
      eapply StronglySorted_weaken; [|exact Hgaps].
      intros a b. apply Qlt_le_weak.
    + intros c Hc Hpos. eapply brute_force_subset_optimal_sorted; eauto.
  - intros sqrt points k s e best Hsqrt Hbf. split.
    + destruct (brute_force_subset_selection_inf_or_fin sqrt points s k)
        as [Hnone|(e0 & subset & Hsome)]; [congruence|].
      assert (e0 = e /\ best = Some subset) as (-> & ->)
        by (split; congruence).
      pose proof (brute_force_subset_selection_sound sqrt points k s _ _ Hbf)
        as Hidx.
      destruct (brute_force_subset_selection_exact sqrt points s k _ Hbf
                  subset eq_refl) as (e1 & He1 & Hnz & He).
      simpl in He1. injection He1 as <-.
      exists subset. split; [reflexivity|]. split; [assumption|].
      split; [|assumption].
      eapply ForallOrdPairs_weaken; [|exact Hnz].
      intros p q. now apply euclidean_distance_positive.
    + intros c Hc Hpos. eapply brute_force_subset_selection_optimal; eauto.
Qed.

(** The sorted sequence [[0, 1, 3, 6]] with [k = 2], [s = 1]. *)
Lemma C1_brute_force_optimal_witness :
  (exists subset,
      Some [0%nat; 3%nat] = Some subset
      /\ index_subset (length [0; 1; 3; 6]) 2 subset
      /\ positive_distances distance (coords [0; 1; 3; 6] subset)
      /\ (1 # 6) == riesz_energy_by distance 1 (coords [0; 1; 3; 6] subset))
  /\ forall c,
       index_subset (length [0; 1; 3; 6]) 2 c ->
       positive_distances distance (coords [0; 1; 3; 6] c) ->
       (1 # 6) <= riesz_energy_by distance 1 (coords [0; 1; 3; 6] c).
Proof.
  apply (proj1 C1_brute_force_optimal [0; 1; 3; 6] 2%nat 1%Z (1 # 6)
           (Some [0%nat; 3%nat])).
  - repeat constructor; discriminate.
  - vm_compute. reflexivity.
Defined.

(** C2 fails on the DP solvers.  On [x = [0, 0, 1]] with [k = 3] the only
    size-3 index subset contains the duplicate pair, and the brute force
    returns the absent result; the 1-D DP solver raises TypeError, because
    row 2 stores the tuple [(None, None)] at column 1 and the test
    [dp[r-1][p] is None] lets it through to [for q in subset].  The 2-D DP
    solver raises the same way on the points [(0,0), (0,0), (1,0)]. *)
Theorem C2_duplicate_raises :
  (forall c, index_subset 3 3 c ->
             ~ positive_distances distance (coords [0; 0; 1] c))
  /\ Dp1d.brute_force_subset [0; 0; 1] 3 1 = (None, None)
  /\ Dp1d.dp_subset [0; 0; 1] 3 1 = Raise TypeError
  /\ Pareto2d.brute_force_subset_selection sqrt_sq [(0, 0); (0, 0); (1, 0)] 3 1
     = (Inf, None)
  /\ Pareto2d.dp_subset_selection sqrt_sq [(0, 0); (0, 0); (1, 0)] 3 1
     = Raise TypeError.
Proof.
  split; [|repeat split; vm_compute; reflexivity].
  intros c Hc Hpos. apply combinations_range_iff in Hc.
  vm_compute in Hc. destruct Hc as [<-|[]].
  inversion Hpos as [|? ? Hd _]; subst.
  inversion Hd as [|? ? H0 _]; subst.
  vm_compute in H0. discriminate.
Qed.

(** C3.  On [x = [0, 1, 3, 6]], [k = 2], [s = 1] both 1-D solvers return
    energy [1/6] and subset [[0, 3]]. *)
Theorem C3_worked_example :
  Dp1d.dp_subset [0; 1; 3; 6] 2 1 = Ok (Some (1 # 6), Some [0%nat; 3%nat])
  /\ Dp1d.brute_force_subset [0; 1; 3; 6] 2 1
     = (Some (1 # 6), Some [0%nat; 3%nat]).
Proof.
  split; vm_compute; reflexivity.
Qed.

(** C4.  Ties are broken by strict comparison.  Brute force: the returned
    subset has the returned energy, no size-[k] index subset has a smaller
    energy, and every one whose energy is not larger is the returned
    subset or comes after it in lexicographic order.  DP: a candidate
    equal to the current best leaves the stored best unchanged, and the
    entry computed for a cell [(r, i)] is the candidate of the earliest
    endpoint [p] attaining the minimum: earlier endpoints have strictly
    larger candidates. *)
Theorem C4_strict_tie_breaking :
  (forall (x : list Q) (k : nat) (s : Z) (e : Q) (subset : list nat),
      Dp1d.brute_force_subset x k s = (Some e, Some subset) ->
      Dp1d.subset_energy x k s subset = Some e
      /\ forall (c : list nat) (e' : Q),
           index_subset (length x) k c ->
           Dp1d.subset_energy x k s c = Some e' ->
           e <= e' /\ (e' <= e -> c = subset \/ lex_lt subset c))
  /\ (forall (dp : Dp1d.table) (x : list Q) (s : Z) (r i p : nat)
             (best candidate : Q) (best_subset : option (list nat))
             (subset : list nat),
         Dp1d.extend dp x s r i p = Ok (Dp1d.Candidate candidate subset) ->
         candidate == best ->
         Dp1d.step_p dp x s r i p (Some best, best_subset)
         = Ok (Some best, best_subset))
  /\ (forall (dp : Dp1d.table) (x : list Q) (s : Z) (r i : nat) (e : Q)
             (subset : list nat),
         for_each (range (r - 2) i) (Dp1d.step_p dp x s r i) (None, None)
         = Ok (Some e, Some subset) ->
         exists p before after,
           range (r - 2) i = before ++ p :: after
           /\ Dp1d.extend dp x s r i p = Ok (Dp1d.Candidate e subset)
           /\ (forall p' e' subset',
                  In p' before ->
                  Dp1d.extend dp x s r i p' = Ok (Dp1d.Candidate e' subset') ->
                  e < e')
           /\ (forall p' e' subset',
                  In p' after ->
                  Dp1d.extend dp x s r i p' = Ok (Dp1d.Candidate e' subset') ->
                  e <= e')).
Proof.
  split; [|split].
  - intros x k s e subset Hbf.
    pose proof (brute_force_subset_first_min x k s) as Hmin. rewrite Hbf in Hmin.
    destruct Hmin
      as [(Habs & _)|(e0 & v & c0 & l1 & l2 & Hst & Hl & Hc0 & Hl1 & Hl2)];
      [discriminate|].
    injection Hst as -> ->.
    assert (Hcand : forall c e', Dp1d.subset_energy x k s c = Some e' ->
                                 bf_candidate x k s c = Some (e', c))
      by (intros c e' H; unfold bf_candidate; now rewrite H).
    assert (Hv : Dp1d.subset_energy x k s c0 = Some e0 /\ v = c0).
    { unfold bf_candidate in Hc0.
      destruct (Dp1d.subset_energy x k s c0); [|discriminate].
      injection Hc0 as -> ->. auto. }
    destruct Hv as (He0 & ->). split; [assumption|].
    intros c e' Hc He'. apply Hcand in He'.
    apply combinations_range_iff in Hc.
    pose proof (combinations_seq_lex (length x - 0) 0 k) as Hlex.
    fold (range 0 (length x)) in Hlex. rewrite Hl in Hlex, Hc.
    apply StronglySorted_split in Hlex. destruct Hlex as (_ & Hafter).
    apply in_app_iff in Hc. destruct Hc as [Hin|[<-|Hin]].
    + pose proof (Hl1 c e' c Hin He') as Hlt. split; [lra|]. intros; lra.
    + rewrite Hc0 in He'. injection He' as <-. split; [lra|auto].
    + pose proof (Hl2 c e' c Hin He') as Hle. split; [assumption|]. auto.
  - intros dp x s r i p best candidate best_subset subset He Heq.
    unfold Dp1d.step_p. rewrite He. simpl.
    assert (Hge : Qltb candidate best = false) by (apply Qltb_ge; lra).
    now rewrite Hge.
  - intros dp x s r i e subset H.
    apply best_loop_first_min in H.
    destruct H as [(Habs & _)|(e0 & v & p & l1 & l2 & Hst & Hl & Hp & Hl1 & Hl2)];
      [discriminate|].
    injection Hst as <- <-.
    exists p, l1, l2. split; [assumption|]. split; [now apply dp_candidate_some|].
    split.
    + intros p' e' subset' Hin He'. apply dp_candidate_some in He'. eauto.
    + intros p' e' subset' Hin He'. apply dp_candidate_some in He'. eauto.
Qed.

(** On [x = [0, 1, 2, 3]], [k = 3], [s = 1] the subsets [[0, 1, 3]] and
    [[0, 2, 3]] tie at the minimum [11/6]; the first is returned. *)
Lemma C4_strict_tie_breaking_witness :
  Dp1d.subset_energy [0; 1; 2; 3] 3 1 [0%nat; 1%nat; 3%nat] = Some (11 # 6)
  /\ forall (c : list nat) (e' : Q),
       index_subset (length [0; 1; 2; 3]) 3 c ->
       Dp1d.subset_energy [0; 1; 2; 3] 3 1 c = Some e' ->
       (11 # 6) <= e'
       /\ ((e' <= 11 # 6) ->
           c = [0%nat; 1%nat; 3%nat] \/ lex_lt [0%nat; 1%nat; 3%nat] c).
Proof.
  apply (proj1 C4_strict_tie_breaking [0; 1; 2; 3] 3%nat 1%Z).
  vm_compute. reflexivity.
Defined.

(** C5.  Whenever a solver returns a subset, it is a list of exactly [k]
    strictly increasing indices below [n].  This holds for the DP solver
    and the brute force, in one and in two dimensions. *)
Theorem C5_returned_subset_shape :
  (forall (x : list Q) (k : nat) (s : Z) (energy : option Q) (subset : list nat),
      Dp1d.dp_subset x k s = Ok (energy, Some subset) ->
      length subset = k /\ StronglySorted lt subset
      /\ Forall (fun i => i < length x)%nat subset)
  /\ (forall (x : list Q) (k : nat) (s : Z) (energy : option Q)
             (subset : list nat),
         Dp1d.brute_force_subset x k s = (energy, Some subset) ->
         length subset = k /\ StronglySorted lt subset
         /\ Forall (fun i => i < length x)%nat subset)
  /\ (forall (sqrt : Q -> Q) (points : list Pareto2d.point) (k : nat) (s : Z)
             (energy : xfloat) (subset : list nat),
         Pareto2d.dp_subset_selection sqrt points k s = Ok (energy, Some subset) ->
         length subset = k /\ StronglySorted lt subset
         /\ Forall (fun i => i < length points)%nat subset)
  /\ (forall (sqrt : Q -> Q) (points : list Pareto2d.point) (k : nat) (s : Z)
             (energy : xfloat) (subset : list nat),
         Pareto2d.brute_force_subset_selection sqrt points k s
         = (energy, Some subset) ->
         length subset = k /\ StronglySorted lt subset
         /\ Forall (fun i => i < length points)%nat subset).
Proof.
  split; [|split; [|split]].
  - intros. eapply Dp1dFacts.dp_subset_sound; eauto.
  - intros. eapply Dp1dFacts.brute_force_subset_sound; eauto.
  - intros. eapply Pareto2dFacts.dp_subset_selection_sound; eauto.
  - intros. eapply brute_force_subset_selection_sound; eauto.
Qed.

(** The subset [[0, 3]] returned on [[0, 1, 3, 6]], [k = 2], [s = 1]. *)
Lemma C5_returned_subset_shape_witness :
  length [0%nat; 3%nat] = 2%nat /\ StronglySorted lt [0%nat; 3%nat]
  /\ Forall (fun i => i < length [0; 1; 3; 6])%nat [0%nat; 3%nat].
Proof.
  apply (proj1 C5_returned_subset_shape [0; 1; 3; 6] 2%nat 1%Z (Some (1 # 6))).
  vm_compute. reflexivity.
Defined.

(** C6.  For a non-empty sequence and [k = 1] the DP solver returns energy
    0 and the one-element subset [[0]], a valid index; the brute force
    returns energy 0 as well, with the same subset. *)
Theorem C6_single_point :
  forall (x : list Q) (s : Z),
    x <> [] ->
    Dp1d.dp_subset x 1 s = Ok (Some 0, Some [0%nat])
    /\ (0 < length x)%nat
    /\ Dp1d.brute_force_subset x 1 s = (Some 0, Some [0%nat]).
Proof.
  intros x s Hx. split; [|split].
  - now apply Dp1dTotal.dp_subset_single.
  - destruct x; [congruence|simpl; lia].
  - now apply brute_force_subset_single.
Qed.

(** The unsorted sequence [[5, 2]] with [s = 3]. *)
Lemma C6_single_point_witness :
  Dp1d.dp_subset [5; 2] 1 3 = Ok (Some 0, Some [0%nat])
  /\ (0 < length [5; 2])%nat
  /\ Dp1d.brute_force_subset [5; 2] 1 3 = (Some 0, Some [0%nat]).
Proof.
  apply (C6_single_point [5; 2] 3%Z). discriminate.
Defined.

(** C7, as stated, fails when the DP solver returns no subset: on the
    two coinciding points [(0,0), (0,0)] with [k = 2] both solvers return
    [(inf, None)], the comparison would fail, and the claim says that "no
    match" is reported; but [run_example] raises TypeError while it builds
    the list of the selected points, before the comparison, and prints no
    verdict at all. *)
Lemma C7_absent_subset_counterexample :
  Pareto2d.dp_subset_selection sqrt_sq [(0, 0); (0, 0)] 2 1 = Ok (Inf, None)
  /\ Pareto2d.brute_force_subset_selection sqrt_sq [(0, 0); (0, 0)] 2 1
     = (Inf, None)
  /\ Pareto2d.solutions_match (Inf, None) (Inf, None) = false
  /\ snd (run_example sqrt_sq [(0, 0); (0, 0)] 2 1 1) = Raise TypeError
  /\ ~ In No_match_line (fst (run_example sqrt_sq [(0, 0); (0, 0)] 2 1 1))
  /\ ~ In Match_line (fst (run_example sqrt_sq [(0, 0); (0, 0)] 2 1 1)).
Proof.
  split; [vm_compute; reflexivity|]. split; [vm_compute; reflexivity|].
  split; [reflexivity|]. split; [vm_compute; reflexivity|].
  split; vm_compute; intros H;
    repeat (destruct H as [H|H]; [discriminate H|]); exact H.
Qed.

(** C7 (amended).  When both solvers return a subset, [run_example]
    prints the two results as the solvers returned them and then its
    verdict: the match line when the comparison holds and the no-match
    line otherwise, and the comparison holds exactly when the two subsets
    are identical and the absolute difference of the two energies is
    below [1e-6].  When the DP solver returns no subset, or the brute
    force returns none, [run_example] raises TypeError while it builds
    the list of the selected points and prints no verdict.  The
    comparison itself is a function of the two results: it holds exactly
    when their subsets are equal and their energies are within the
    tolerance. *)
Theorem C7_run_example_verdict :
  forall (sqrt : Q -> Q) (points : list Pareto2d.point) (k : nat) (s : Z)
         (example_number : nat),
    let intro :=
      Example_line example_number :: Header_line :: point_lines points in
    (forall dp_energy dp_subset bf_energy bf_subset,
        Pareto2d.dp_subset_selection sqrt points k s
        = Ok (dp_energy, Some dp_subset) ->
        Pareto2d.brute_force_subset_selection sqrt points k s
        = (bf_energy, Some bf_subset) ->
        run_example sqrt points k s example_number
        = (intro
           ++ [Dp_indices_line (Some dp_subset);
               Dp_points_line (coords2 points dp_subset);
               Dp_energy_line s dp_energy;
               Bf_indices_line (Some bf_subset);
               Bf_points_line (coords2 points bf_subset);
               Bf_energy_line s bf_energy;
               if Pareto2d.solutions_match (dp_energy, Some dp_subset)
                    (bf_energy, Some bf_subset)
               then Match_line else No_match_line;
               Separator_line],
           Ok tt)
        /\ (Pareto2d.solutions_match (dp_energy, Some dp_subset)
              (bf_energy, Some bf_subset) = true
            <-> dp_subset = bf_subset
                /\ energies_within tolerance dp_energy bf_energy))
    /\ (forall dp_energy,
           Pareto2d.dp_subset_selection sqrt points k s = Ok (dp_energy, None) ->
           run_example sqrt points k s example_number
           = (intro ++ [Dp_indices_line None], Raise TypeError))
    /\ (forall dp_energy dp_subset bf_energy,
           Pareto2d.dp_subset_selection sqrt points k s
           = Ok (dp_energy, Some dp_subset) ->
           Pareto2d.brute_force_subset_selection sqrt points k s
           = (bf_energy, None) ->
           run_example sqrt points k s example_number
           = (intro
              ++ [Dp_indices_line (Some dp_subset);
                  Dp_points_line (coords2 points dp_subset);
                  Dp_energy_line s dp_energy]
              ++ [Bf_indices_line None],
              Raise TypeError))
    /\ (forall dp_result bf_result : Pareto2d.cell,
           Pareto2d.solutions_match dp_result bf_result = true
           <-> snd dp_result = snd bf_result
               /\ energies_within tolerance (fst dp_result) (fst bf_result)).
Proof.
  intros sqrt points k s example_number intro.
  split; [|split; [|split]].
  - intros dp_energy dp_subset bf_energy bf_subset Hdp Hbf. split.
    + pose proof (Pareto2dFacts.dp_subset_selection_sound sqrt points k s _ _
                    Hdp) as (_ & _ & Hb1).
      pose proof (brute_force_subset_selection_sound sqrt points k s _ _ Hbf)
        as (_ & _ & Hb2).
      unfold run_example. rewrite Hdp, Hbf. cbv beta iota zeta. unfold select.
      rewrite (@comprehension_nth Pareto2d.point (0, 0) points dp_subset Hb1).
      rewrite (@comprehension_nth Pareto2d.point (0, 0) points bf_subset Hb2).
      reflexivity.
    + rewrite solutions_match_spec. simpl. split.
      * intros (Hs & He). split; [congruence|assumption].
      * intros (-> & He). auto.
  - intros dp_energy Hdp. unfold run_example. rewrite Hdp.
    destruct (Pareto2d.brute_force_subset_selection sqrt points k s).
    reflexivity.
  - intros dp_energy dp_subset bf_energy Hdp Hbf.
    pose proof (Pareto2dFacts.dp_subset_selection_sound sqrt points k s _ _
                  Hdp) as (_ & _ & Hb1).
    unfold run_example. rewrite Hdp, Hbf. cbv beta iota zeta. unfold select.
    rewrite (@comprehension_nth Pareto2d.point (0, 0) points dp_subset Hb1).
    reflexivity.
  - intros dp_result bf_result. apply solutions_match_spec.
Qed.

(** The points [(0,0), (3,0), (0,4)] with [k = 2], [s = 1]: both solvers
    return the subset [[1, 2]] with energy 1/5. *)
Lemma C7_run_example_verdict_witness :
  run_example sqrt_sq [(0, 0); (3, 0); (0, 4)] 2 1 1
  = ((Example_line 1 :: Header_line
        :: point_lines [(0, 0); (3, 0); (0, 4)])
     ++ [Dp_indices_line (Some [1; 2]%nat);
         Dp_points_line (coords2 [(0, 0); (3, 0); (0, 4)] [1; 2]%nat);
         Dp_energy_line 1 (Fin (1 # 5));
         Bf_indices_line (Some [1; 2]%nat);
         Bf_points_line (coords2 [(0, 0); (3, 0); (0, 4)] [1; 2]%nat);
         Bf_energy_line 1 (Fin (1 # 5));
         if Pareto2d.solutions_match (Fin (1 # 5), Some [1; 2]%nat)
              (Fin (1 # 5), Some [1; 2]%nat)
         then Match_line else No_match_line;
         Separator_line],
     Ok tt)
  /\ (Pareto2d.solutions_match (Fin (1 # 5), Some [1; 2]%nat)
        (Fin (1 # 5), Some [1; 2]%nat) = true
      <-> [1; 2]%nat = [1; 2]%nat
          /\ energies_within tolerance (Fin (1 # 5)) (Fin (1 # 5))).
Proof.
  apply (proj1 (C7_run_example_verdict sqrt_sq [(0, 0); (3, 0); (0, 4)]
                  2%nat 1%Z 1%nat)
           (Fin (1 # 5)) [1; 2]%nat (Fin (1 # 5)) [1; 2]%nat);
    vm_compute; reflexivity.
Defined.



(** C9, as stated, fails on the arithmetic: on the strictly increasing
    integers [x = [0, 10]] with [k = 2] and the exponent [s = 400] the gap
    10 is positive and [10 ** 400] is an exact integer, but it is too
    large for a float, and [1.0 / (gap ** s)] raises OverflowError in the
    DP solver and in the brute force. *)
Lemma C9_overflow_counterexample :
  StronglySorted Z.lt [0; 10]%Z
  /\ (1 <= 2 <= length [0; 10]%Z)%nat
  /\ Numeric.dp_subset python_int [0; 10]%Z 2 400%N = Raise OverflowError
  /\ Numeric.brute_force_subset python_int [0; 10]%Z 2 400%N
     = Raise OverflowError.
Proof.
  split; [repeat constructor|]. split; [simpl; lia|].
  split; vm_compute; reflexivity.
Qed.

(** C9 (amended).  Over any arithmetic of the interpreter, on a sequence
    whose gaps [x[i] - x[q]], [q < i], are computed without fault and are
    strictly positive, with [1 <= k <= n]:
    - whenever the run of the DP reaches a cell [(r, i)], every
      extension computed on the table it has built is a candidate or the
      fault of [1.0 / (gap ** s)] for a pair of the sequence, so the entry
      read at [(r-1, p)] is present, every gap is positive and neither
      [continue] branch is taken;
    - when the table is finished, every entry of row [k] read by the
      final scan is present;
    - each solver returns a present result or raises the exception that
      [1.0 / (gap ** s)] raises for a pair of the sequence, and nothing
      else;
    - when [1.0 / (gap ** s)] is computed without fault for every pair,
      both solvers return a present result. *)
Theorem C9_positive_gaps_outcome :
  forall (A : arithmetic) (x : list (coordinate A)) (k : nat)
         (s : exponent A),
    Numeric.gaps_positive A x -> (1 <= k <= length x)%nat ->
    (forall r i dp,
        (2 <= r <= k)%nat -> (r - 1 <= i < length x)%nat ->
        Numeric.table_at_cell A x k s r i = Ok dp ->
        Numeric.dp_table A x k s
        = (dp1 <- Numeric.fill_cell A x s r i dp ;;
           dp2 <- for_each (range (S i) (length x))
                    (Numeric.fill_cell A x s r) dp1 ;;
           for_each (range (S r) (k + 1))
             (Numeric.fill_row A x s (length x)) dp2)
        /\ forall p, (r - 2 <= p < i)%nat ->
             outcome
               (fun e => exists candidate subset,
                           e = Numeric.Candidate A candidate subset)
               (Numeric.pair_fault A x s)
               (Numeric.extend A dp x s r i p))
    /\ (forall dp,
           Numeric.dp_table A x k s = Ok dp ->
           forall i, (k - 1 <= i < length x)%nat ->
             exists e subset,
               lookup2 dp k i = Some (Some (Some e, Some subset)))
    /\ outcome (Numeric.present A) (Numeric.pair_fault A x s)
         (Numeric.dp_subset A x k s)
    /\ outcome (Numeric.present A) (Numeric.pair_fault A x s)
         (Numeric.brute_force_subset A x k s)
    /\ (Numeric.pairs_evaluate A x s ->
        (exists e subset,
            Numeric.dp_subset A x k s = Ok (Some e, Some subset))
        /\ (exists e subset,
               Numeric.brute_force_subset A x k s = Ok (Some e, Some subset))).
Proof.
  intros A x k s Hgaps Hk.
  pose proof (NumericFacts.dp_subset_outcome A x s Hgaps k Hk) as Hdp.
  pose proof (NumericFacts.brute_force_subset_outcome A x s Hgaps k
                (proj2 Hk)) as Hbf.
  split; [|split; [|split; [|split]]]; try assumption.
  - intros r i dp Hr Hi Hcell. split.
    + rewrite (NumericFacts.numeric_dp_table_through_cell A x s k r i Hr Hi), Hcell.
      reflexivity.
    + intros p Hp.
      pose proof (NumericFacts.table_at_cell_outcome A x s Hgaps k r i
                    ltac:(lia) Hr ltac:(lia)) as Hinv.
      rewrite Hcell in Hinv. simpl in Hinv. destruct Hinv as (Hsound & Hrows).
      destruct (Hrows (r - 1)%nat p) as (c & Hl & Hpres); [lia|lia|].
      apply (NumericFacts.extend_outcome A x s Hgaps dp r i p c); auto. lia.
  - intros dp Htab i Hi.
    pose proof (NumericFacts.dp_table_outcome A x s Hgaps k ltac:(lia))
      as Hinv.
    rewrite Htab in Hinv. simpl in Hinv. destruct Hinv as (_ & _ & Hrows).
    destruct (Hrows k i) as (c & Hl & e & sub & ->); [lia|lia|]. eauto.
  - intros Heval.
    assert (Hno : forall e, ~ Numeric.pair_fault A x s e).
    { intros e (q & i & xq & xi & gap & Hqi & Hq & Hi & Hgap & Hraise).
      destruct (Heval q i xq xi gap Hqi Hq Hi Hgap) as (t & Ht). congruence. }
    split.
    + destruct (Numeric.dp_subset A x k s) as [c|e]; simpl in Hdp.
      * destruct Hdp as (e & sub & ->). eauto.
      * destruct (Hno e Hdp).
    + destruct (Numeric.brute_force_subset A x k s) as [c|e]; simpl in Hbf.
      * destruct Hbf as (e & sub & ->). eauto.
      * destruct (Hno e Hbf).
Qed.

(** Python's arithmetic on the integers [[0, 1, 3, 6]] with [k = 2],
    [s = 1]. *)
Lemma C9_positive_gaps_outcome_witness :
  outcome (Numeric.present python_int)
    (Numeric.pair_fault python_int [0; 1; 3; 6]%Z 1%N)
    (Numeric.dp_subset python_int [0; 1; 3; 6]%Z 2 1%N)
  /\ outcome (Numeric.present python_int)
       (Numeric.pair_fault python_int [0; 1; 3; 6]%Z 1%N)
       (Numeric.brute_force_subset python_int [0; 1; 3; 6]%Z 2 1%N).
Proof.
  pose proof (C9_positive_gaps_outcome python_int [0; 1; 3; 6]%Z 2%nat 1%N)
    as H.
  destruct H as (_ & _ & Hdp & Hbf & _).
  - apply python_int_gaps_positive. repeat constructor.
  - simpl. lia.
  - split; assumption.
Defined.

(** C10.  For [k = 0] and a non-empty sequence the brute force returns
    energy 0 with the empty subset, while the DP solver raises IndexError
    in its base case: the table has the single row 0 and the first write
    goes to row 1.  The same holds in two dimensions. *)
Theorem C10_k_zero :
  (forall (x : list Q) (s : Z),
      x <> [] ->
      Dp1d.brute_force_subset x 0 s = (Some 0, Some [])
      /\ Dp1d.dp_table x 0 s = Raise IndexError
      /\ Dp1d.dp_subset x 0 s = Raise IndexError)
  /\ (forall (sqrt : Q -> Q) (points : list Pareto2d.point) (s : Z),
         points <> [] ->
         Pareto2d.brute_force_subset_selection sqrt points 0 s = (Fin 0, Some [])
         /\ Pareto2d.dp_table sqrt points 0 s = Raise IndexError
         /\ Pareto2d.dp_subset_selection sqrt points 0 s = Raise IndexError).
Proof.
  split.
  - intros [|a x] s Hx; [congruence|].
    split; [|split].
    + unfold Dp1d.brute_force_subset. rewrite combinations_0. reflexivity.
    + reflexivity.
    + reflexivity.
  - intros sqrt [|a points] s Hp; [congruence|].
    split; [|split].
    + unfold Pareto2d.brute_force_subset_selection. rewrite combinations_0.
      reflexivity.
    + reflexivity.
    + reflexivity.
Qed.

(** The one-point sequence [[7]]. *)
Lemma C10_k_zero_witness :
  Dp1d.brute_force_subset [7] 0 1 = (Some 0, Some [])
  /\ Dp1d.dp_table [7] 0 1 = Raise IndexError
  /\ Dp1d.dp_subset [7] 0 1 = Raise IndexError.
Proof.
  apply (proj1 C10_k_zero [7] 1%Z). discriminate.
Defined.
